(** * Telegraph-Image: the manual multipart/form-data parser

    A shallow embedding of [functions/utils/multipart-parser.js]
    ([parseMultipartFormData], [parseMultipartParts], [parsePart],
    [parseHeaders], [findBoundary], [findSequence]) and the properties its
    specification states about it; then of the handler that calls it,
    [functions/upload.js] ([onRequestPost], [getFileId], [sendToTelegram]),
    and further properties of both.

    Conventions of the embedding.
    - A [Uint8Array] is a [list Z] of values in [0, 255]; a JavaScript string
      is the [list Z] of its UTF-16 code units.  Reading an index outside an
      array gives [undefined] in JavaScript: here it is [None] of the list
      lookup [!!], and a comparison [=== 13] with it is false.
    - Array positions are [nat]; the sentinel [-1] of [findSequence] is [None].
    - [while] loops run on fuel; [None] of a fuelled function stands for a run
      that has not finished, and is proved never to be the answer.
    - [throw new Error(msg)] is the constructor [Throws msg]. *)

From Stdlib Require Import ZArith String Ascii Lia.
From stdpp Require Import base option list gmap.

Local Open Scope Z_scope.

(** ** JavaScript strings and bytes *)

(** The code units of an ASCII literal. *)
Definition str (s : string) : list Z :=
  (λ a, Z.of_N (N_of_ascii a)) <$> list_ascii_of_string s.

Definition CR : Z := 13.
Definition LF : Z := 10.
Definition DASH : Z := 45.
Definition COLON : Z := 58.
Definition SEMICOLON : Z := 59.
Definition DQUOTE : Z := 34.
Definition SQUOTE : Z := 39.

Definition CRLF : list Z := [CR; LF].
Definition CRLFCRLF : list Z := [CR; LF; CR; LF].

(** [data[i] === v] *)
Definition at_is (data : list Z) (i : nat) (v : Z) : bool :=
  match data !! i with
  | Some b => b =? v
  | None => false
  end.

(** [data.slice(start, end)] for [start <= end], and [data.slice(start)];
    [s.substring] on strings is the same function. *)
Definition slice (data : list Z) (start stop : nat) : list Z :=
  take (stop - start) (drop start data).

Definition slice_from (data : list Z) (start : nat) : list Z :=
  drop start data.

Fixpoint drop_while (p : Z → bool) (s : list Z) : list Z :=
  match s with
  | [] => []
  | c :: r => if p c then drop_while p r else s
  end.

Fixpoint take_while (p : Z → bool) (s : list Z) : list Z :=
  match s with
  | [] => []
  | c :: r => if p c then c :: take_while p r else []
  end.

Definition list_eqb (a b : list Z) : bool := bool_decide (a = b).

(** [s] begins with [p]. *)
Fixpoint starts_with (p s : list Z) : bool :=
  match p, s with
  | [], _ => true
  | _ :: _, [] => false
  | a :: p', b :: s' => (a =? b) && starts_with p' s'
  end.

(** [s.includes(sub)]: [sub] occurs in [s] at some index. *)
Fixpoint includes (s sub : list Z) : bool :=
  starts_with sub s ||
  match s with
  | [] => false
  | _ :: r => includes r sub
  end.

(** [s.indexOf(c)] for a single code unit [c]; [None] is [-1]. *)
Fixpoint indexOf (s : list Z) (c : Z) : option nat :=
  match s with
  | [] => None
  | d :: r => if d =? c then Some 0%nat else S <$> indexOf r c
  end.

(** ECMAScript [WhiteSpace] and [LineTerminator] code points, the ones
    [String.prototype.trim] removes. *)
Definition is_white_space (c : Z) : bool :=
  (c =? 9) || (c =? 10) || (c =? 11) || (c =? 12) || (c =? 13) || (c =? 32)
  || (c =? 160) || (c =? 5760) || ((8192 <=? c) && (c <=? 8202))
  || (c =? 8232) || (c =? 8233) || (c =? 8239) || (c =? 8287)
  || (c =? 12288) || (c =? 65279).

Definition trim_start (s : list Z) : list Z := drop_while is_white_space s.
Definition trim_end (s : list Z) : list Z :=
  reverse (drop_while is_white_space (reverse s)).

(** [s.trim()] *)
Definition trim (s : list Z) : list Z := trim_end (trim_start s).

Definition is_ascii (c : Z) : bool := (0 <=? c) && (c <? 128).

Definition ascii_lower (c : Z) : Z :=
  if (65 <=? c) && (c <=? 90) then c + 32 else c.

Definition ascii_upper (c : Z) : Z :=
  if (97 <=? c) && (c <=? 122) then c - 32 else c.

(** ** UTF-8 (the WHATWG Encoding standard)

    [TextEncoder.encode] turns the string into scalar values (a surrogate
    that is not part of a pair becomes U+FFFD) and writes each in UTF-8.
    The standard's shifts and masks are written as divisions and remainders
    by powers of two. *)

Definition REPLACEMENT : Z := 65533.

Definition is_lead_surrogate (c : Z) : bool := (55296 <=? c) && (c <=? 56319).
Definition is_trail_surrogate (c : Z) : bool := (56320 <=? c) && (c <=? 57343).

Fixpoint to_scalar_values (s : list Z) : list Z :=
  match s with
  | [] => []
  | c :: r =>
      if is_lead_surrogate c then
        match r with
        | d :: r' =>
            if is_trail_surrogate d
            then (65536 + (c - 55296) * 1024 + (d - 56320)) :: to_scalar_values r'
            else REPLACEMENT :: to_scalar_values r
        | [] => [REPLACEMENT]
        end
      else if is_trail_surrogate c then REPLACEMENT :: to_scalar_values r
      else c :: to_scalar_values r
  end.

Definition utf8_encode_scalar (c : Z) : list Z :=
  if c <? 128 then [c]
  else if c <? 2048 then [192 + c / 64; 128 + c mod 64]
  else if c <? 65536 then
    [224 + c / 4096; 128 + (c / 64) mod 64; 128 + c mod 64]
  else
    [240 + c / 262144; 128 + (c / 4096) mod 64; 128 + (c / 64) mod 64;
     128 + c mod 64].

(** [new TextEncoder().encode(s)] *)
Definition TextEncoder_encode (s : list Z) : list Z :=
  concat (utf8_encode_scalar <$> to_scalar_values s).

(** The state of the WHATWG UTF-8 decoder: the code point being assembled,
    the number of continuation bytes still needed, and the range allowed for
    the next continuation byte. *)
Record utf8_state := Utf8State {
  u_code_point : Z;
  u_needed : nat;
  u_lower : Z;
  u_upper : Z
}.

Definition utf8_initial : utf8_state := Utf8State 0 0 128 191.

(** A byte read when no continuation byte is needed: the code points it
    emits and the next state. *)
Definition utf8_lead (b : Z) : list Z * utf8_state :=
  if (0 <=? b) && (b <=? 127) then ([b], utf8_initial)
  else if (194 <=? b) && (b <=? 223) then ([], Utf8State (b mod 32) 1 128 191)
  else if (224 <=? b) && (b <=? 239) then
    ([], Utf8State (b mod 16) 2 (if b =? 224 then 160 else 128)
                                (if b =? 237 then 159 else 191))
  else if (240 <=? b) && (b <=? 244) then
    ([], Utf8State (b mod 8) 3 (if b =? 240 then 144 else 128)
                               (if b =? 244 then 143 else 191))
  else ([REPLACEMENT], utf8_initial).

Fixpoint utf8_decode_from (st : utf8_state) (bs : list Z) : list Z :=
  match bs with
  | [] => match u_needed st with O => [] | S _ => [REPLACEMENT] end
  | b :: r =>
      match u_needed st with
      | O => let '(out, st') := utf8_lead b in out ++ utf8_decode_from st' r
      | S n =>
          if (u_lower st <=? b) && (b <=? u_upper st) then
            let cp := u_code_point st * 64 + b mod 64 in
            match n with
            | O => cp :: utf8_decode_from utf8_initial r
            | S _ => utf8_decode_from (Utf8State cp n 128 191) r
            end
          else
            (* the byte is put back and read again from the initial state *)
            let '(out, st') := utf8_lead b in
            REPLACEMENT :: out ++ utf8_decode_from st' r
      end
  end.

Definition from_scalar_value (c : Z) : list Z :=
  if c <? 65536 then [c]
  else [55296 + (c - 65536) / 1024; 56320 + (c - 65536) mod 1024].

(** A leading U+FEFF is not part of the output ([ignoreBOM] is false). *)
Definition strip_bom (cps : list Z) : list Z :=
  match cps with
  | c :: r => if c =? 65279 then r else cps
  | [] => []
  end.

(** [new TextDecoder().decode(bytes)], also with [{ fatal: false }], which is
    the default. *)
Definition TextDecoder_decode (bs : list Z) : list Z :=
  concat (from_scalar_value <$> strip_bom (utf8_decode_from utf8_initial bs)).

(** ** Byte-sequence search *)

(** The inner loop of [findSequence]: [data[i + j] === sequence[j]] for every
    [j] below [sequence.length]. *)
Definition matches_at (data sequence : list Z) (i : nat) : bool :=
  forallb (λ j : nat,
             match data !! (i + j)%nat, sequence !! j with
             | Some a, Some b => a =? b
             | _, _ => false
             end)
          (seq 0 (length sequence)).

(** The outer loop, with [n] candidate positions left, the next one [i]. *)
Fixpoint findSequence_loop (data sequence : list Z) (n i : nat) : option nat :=
  match n with
  | O => None
  | S n' =>
      if matches_at data sequence i then Some i
      else findSequence_loop data sequence n' (S i)
  end.

(** [findSequence(data, sequence, startPos)]: the loop runs over
    [startPos <= i <= data.length - sequence.length]. *)
Definition findSequence (data sequence : list Z) (startPos : nat) : option nat :=
  findSequence_loop data sequence
    (S (length data) - length sequence - startPos) startPos.

Definition findBoundary (data boundary : list Z) (startPos : nat) : option nat :=
  findSequence data boundary startPos.

(** ** The regular expressions of the parser *)

(** Case-insensitive comparison under the [i] flag (without [u]): both code
    units are canonicalised by the upper-case mapping, which never takes a
    code unit above 127 to one below 128.  Against an ASCII pattern this is
    the comparison of ASCII upper-case forms. *)
Definition ci_eq (a b : Z) : bool := ascii_upper a =? ascii_upper b.

Fixpoint ci_starts_with (p s : list Z) : bool :=
  match p, s with
  | [], _ => true
  | _ :: _, [] => false
  | a :: p', b :: s' => ci_eq a b && ci_starts_with p' s'
  end.

(** [s.match(re)] for a pattern without anchors and without the [g] flag:
    the pattern is tried at index 0, 1, ... up to [s.length], and the first
    index where it succeeds gives the match.  [try_at] is the pattern tried
    at the start of a suffix of [s]; its result is capture group 1. *)
Fixpoint regex_search (try_at : list Z → option (list Z)) (s : list Z)
    : option (list Z) :=
  match try_at s with
  | Some v => Some v
  | None =>
      match s with
      | [] => None
      | _ :: r => regex_search try_at r
      end
  end.

Definition not_semicolon (c : Z) : bool := negb (c =? SEMICOLON).
Definition not_dquote (c : Z) : bool := negb (c =? DQUOTE).

(** [/boundary=([^;]+)/i] tried at the start of [s]: the greedy group takes
    every code unit up to the next [;] and must take at least one. *)
Definition boundary_regex_at (s : list Z) : option (list Z) :=
  if ci_starts_with (str "boundary=") s then
    match take_while not_semicolon (drop 9 s) with
    | [] => None
    | v => Some v
    end
  else None.

(** [contentType.match(/boundary=([^;]+)/i)]: group 1 of the leftmost match. *)
Definition match_boundary (s : list Z) : option (list Z) :=
  regex_search boundary_regex_at s.

(** The pattern [key=Q([^Q]+)Q], where Q is the double quote, tried at the
    start of [s]: after [key=Q] the greedy group takes every code unit up to
    the next double quote, must take at least one, and the quote must be
    there.  The source has it for [key] = name and for [key] = filename. *)
Definition quoted_regex_at (key s : list Z) : option (list Z) :=
  if starts_with (key ++ [61; DQUOTE]) s then
    let rest := drop (length key + 2) s in
    let v := take_while not_dquote rest in
    match v with
    | [] => None
    | _ => if starts_with [DQUOTE] (drop (length v) rest) then Some v else None
    end
  else None.

(** [s.match] on that pattern: group 1 of the leftmost match. *)
Definition match_quoted (key s : list Z) : option (list Z) :=
  regex_search (quoted_regex_at key) s.

Definition is_quote (c : Z) : bool := (c =? DQUOTE) || (c =? SQUOTE).

(** The global [replace] that deletes the matches of [^Q|Q$], where Q is a
    single or a double quote: scanning from the left, a quote is removed
    when it stands at index 0 or is the last code unit. *)
Fixpoint replace_edge_quotes (at_start : bool) (s : list Z) : list Z :=
  match s with
  | [] => []
  | c :: r =>
      if is_quote c && (at_start || match r with [] => true | _ => false end)
      then replace_edge_quotes false r
      else c :: replace_edge_quotes false r
  end.

(** [headerText.split(/\r?\n/)]: a line ends at LF, and a CR just before
    that LF belongs to the separator.  [cur] is the current line, reversed. *)
Fixpoint split_lines_acc (cur : list Z) (s : list Z) : list (list Z) :=
  match s with
  | [] => [reverse cur]
  | c :: r =>
      if c =? LF then reverse cur :: split_lines_acc [] r
      else if (c =? CR) && starts_with [LF] r then
        match r with
        | _ :: r' => reverse cur :: split_lines_acc [] r'
        | [] => [reverse (c :: cur)]
        end
      else split_lines_acc (c :: cur) r
  end.

Definition split_lines (s : list Z) : list (list Z) := split_lines_acc [] s.

(** ** Parts and header blocks *)

Record Part := mkPart {
  name : list Z;
  filename : option (list Z);
  contentType : option (list Z);
  data : list Z
}.

(** [x || null] and [!x] on a value that is a string or [undefined]: the
    empty string is falsy. *)
Definition truthy (o : option (list Z)) : option (list Z) :=
  match o with
  | Some (c :: r) => Some (c :: r)
  | _ => None
  end.

Section Parser.

(** [String.prototype.toLowerCase] on a string that is not pure ASCII
    follows the Unicode case tables, which are not part of this repository;
    they are a parameter of the development. *)
Variable unicode_toLowerCase : list Z → list Z.

(** [s.toLowerCase()] *)
Definition toLowerCase (s : list Z) : list Z :=
  if forallb is_ascii s then ascii_lower <$> s else unicode_toLowerCase s.

(** [headers[key] = value] on an object created by [{}]: the key
    [__proto__] reaches the setter of [Object.prototype], which ignores a
    string, so no property is added. *)
Definition set_property (headers : gmap (list Z) (list Z))
    (key value : list Z) : gmap (list Z) (list Z) :=
  if list_eqb key (str "__proto__") then headers else <[key := value]> headers.

(** The body of the [for (const line of lines)] loop of [parseHeaders]. *)
Definition parseHeaders_line (headers : gmap (list Z) (list Z))
    (line : list Z) : gmap (list Z) (list Z) :=
  match indexOf line COLON with
  | Some colonPos =>
      if (0 <? colonPos)%nat then
        let key := toLowerCase (trim (slice line 0 colonPos)) in
        let value := trim (slice_from line (colonPos + 1)) in
        set_property headers key value
      else headers
  | None => headers
  end.

Definition parseHeaders (headerText : list Z) : gmap (list Z) (list Z) :=
  foldl parseHeaders_line ∅ (split_lines headerText).

(** [contentEnd] after the test for a final CR LF. *)
Definition content_end (contentBytes : list Z) : nat :=
  let contentEnd := length contentBytes in
  if (2 <=? contentEnd)%nat
     && at_is contentBytes (contentEnd - 2) CR
     && at_is contentBytes (contentEnd - 1) LF
  then (contentEnd - 2)%nat else contentEnd.

(** [parsePart(partData)]; [None] is [null]. *)
Definition parsePart (partData : list Z) : option Part :=
  match findSequence partData CRLFCRLF 0 with
  | None => None
  | Some headerEndPos =>
      let headerBytes := slice partData 0 headerEndPos in
      let contentBytes := slice_from partData (headerEndPos + 4) in
      let contentEnd := content_end contentBytes in
      let actualContent := slice contentBytes 0 contentEnd in
      let headerText := TextDecoder_decode headerBytes in
      let headers := parseHeaders headerText in
      match truthy (headers !! str "content-disposition") with
      | None => None
      | Some contentDisposition =>
          let nameMatch := match_quoted (str "name") contentDisposition in
          let filenameMatch := match_quoted (str "filename") contentDisposition in
          Some {| name := default [] nameMatch;
                  filename := filenameMatch;
                  contentType := truthy (headers !! str "content-type");
                  data := actualContent |}
      end
  end.

(** ** The scan over the body *)

(** What one iteration of the [while] loop of [parseMultipartParts] leaves:
    the loop goes on from a new position, or a [break] ends it. *)
Inductive iteration :=
  | Next (position : nat) (parts : list Part)
  | Break (parts : list Part).

(** [if (uint8Array[position] === 13 && uint8Array[position + 1] === 10)
    position += 2], the position after it. *)
Definition skip_crlf (uint8Array : list Z) (position : nat) : nat :=
  if at_is uint8Array position CR && at_is uint8Array (position + 1) LF
  then (position + 2)%nat else position.

(** [uint8Array[position] === 45 && uint8Array[position + 1] === 45] *)
Definition is_terminal (uint8Array : list Z) (position : nat) : bool :=
  at_is uint8Array position DASH && at_is uint8Array (position + 1) DASH.

Definition loop_body (uint8Array boundaryBytes : list Z)
    (position : nat) (parts : list Part) : iteration :=
  let position := skip_crlf uint8Array position in
  match findBoundary uint8Array boundaryBytes position with
  | None => Break parts
  | Some nextBoundaryPos =>
      let partData := slice uint8Array position nextBoundaryPos in
      let parts :=
        match parsePart partData with
        | Some part => parts ++ [part]
        | None => parts
        end in
      let position := (nextBoundaryPos + length boundaryBytes)%nat in
      if is_terminal uint8Array position then Break parts
      else Next position parts
  end.

(** [while (position < uint8Array.length) { ... }] followed by
    [return parts]. *)
Fixpoint loop (fuel : nat) (uint8Array boundaryBytes : list Z)
    (position : nat) (parts : list Part) : option (list Part) :=
  match fuel with
  | O => None
  | S fuel' =>
      if (position <? length uint8Array)%nat then
        match loop_body uint8Array boundaryBytes position parts with
        | Break parts' => Some parts'
        | Next position' parts' =>
            loop fuel' uint8Array boundaryBytes position' parts'
        end
      else Some parts
  end.

Definition boundary_pattern (boundary : list Z) : list Z :=
  TextEncoder_encode (str "--" ++ boundary).

Definition parseMultipartParts_fuel (fuel : nat) (uint8Array boundary : list Z)
    : option (list Part) :=
  let boundaryBytes := boundary_pattern boundary in
  match findBoundary uint8Array boundaryBytes 0 with
  | None => Some []
  | Some position =>
      loop fuel uint8Array boundaryBytes
           (position + length boundaryBytes)%nat []
  end.

(** [parseMultipartParts(uint8Array, boundary)], with one unit of fuel for
    every byte and one for the last test of the loop condition. *)
Definition parseMultipartParts (uint8Array boundary : list Z)
    : option (list Part) :=
  parseMultipartParts_fuel (S (length uint8Array)) uint8Array boundary.

(** ** The form *)

(** The messages of the two errors. *)
Definition MSG_CONTENT_TYPE : string := "Content-Type must be multipart/form-data".
Definition MSG_BOUNDARY : string := "No boundary found in Content-Type".

(** A [File] is recorded by what the constructor is given: its bytes, its
    name and the [type] option. *)
Inductive FormValue :=
  | StringValue (value : list Z)
  | FileValue (bits : list Z) (fileName : list Z) (type : list Z).

(** A [FormData] is the list of its entries in the order of the [append]
    calls. *)
Definition FormData := list (list Z * FormValue).

Inductive outcome :=
  | Returns (formData : FormData)
  | Throws (message : string).

(** A request, as far as the parser reads it: the value of
    [headers.get('Content-Type')] ([None] is [null]) and the bytes of
    [arrayBuffer()]. *)
Record Request := mkRequest {
  content_type_header : option (list Z);
  body : list Z
}.

(** The body of [for (const part of parts)]. *)
Definition append_part (formData : FormData) (part : Part) : FormData :=
  match truthy (filename part) with
  | Some fileName =>
      let type := default (str "application/octet-stream")
                          (truthy (contentType part)) in
      formData ++ [(name part, FileValue (data part) fileName type)]
  | None =>
      let value := TextDecoder_decode (data part) in
      formData ++ [(name part, StringValue value)]
  end.

(** The boundary that [parseMultipartFormData] passes on, or the error it
    throws before reading the body. *)
Definition extract_boundary (contentType : option (list Z))
    : string + list Z :=
  match truthy contentType with
  | None => inl MSG_CONTENT_TYPE
  | Some contentType =>
      if negb (includes contentType (str "multipart/form-data"))
      then inl MSG_CONTENT_TYPE
      else
        match match_boundary contentType with
        | None => inl MSG_BOUNDARY
        | Some group1 => inr (replace_edge_quotes true (trim group1))
        end
  end.

(** [parseMultipartFormData(request)]; [None] only if the scan ran out of
    fuel. *)
Definition parseMultipartFormData (request : Request) : option outcome :=
  match extract_boundary (content_type_header request) with
  | inl message => Some (Throws message)
  | inr boundary =>
      match parseMultipartParts (body request) boundary with
      | None => None
      | Some parts => Some (Returns (foldl append_part [] parts))
      end
  end.

End Parser.

(** ** Notions used in the statements *)

(** [s] occurs in [d] at index [i]. *)
Definition occurs_at (d s : list Z) (i : nat) : Prop :=
  ∃ pre post, d = pre ++ s ++ post ∧ length pre = i.

(** [i] is the first index where [s] occurs in [d]. *)
Definition first_occurrence (d s : list Z) (i : nat) : Prop :=
  occurs_at d s i ∧ ∀ j, (j < i)%nat → ¬ occurs_at d s j.

Definition contains (s sub : list Z) : Prop := ∃ pre post, s = pre ++ sub ++ post.

Definition white (c : Z) : Prop := is_white_space c = true.

(** [m] is [s] without the white space at its two ends. *)
Definition trimmed (s m : list Z) : Prop :=
  ∃ a b, s = a ++ m ++ b ∧ Forall white a ∧ Forall white b ∧
         (∀ c r, m = c :: r → ¬ white c) ∧ (∀ r c, m = r ++ [c] → ¬ white c).

(** [s] neither begins nor ends with white space. *)
Definition no_outer_space (s : list Z) : Prop :=
  (∀ c r, s = c :: r → ¬ white c) ∧ (∀ r c, s = r ++ [c] → ¬ white c).

Definition strip_first_quote (s : list Z) : list Z :=
  match s with
  | c :: r => if is_quote c then r else s
  | [] => []
  end.

Definition strip_last_quote (s : list Z) : list Z :=
  match reverse s with
  | c :: r => if is_quote c then reverse r else s
  | [] => []
  end.

Definition BOUNDARY_EQ : list Z := str "BOUNDARY=".

(** At index [i] of [h] stands the keyword boundary= in any letter case,
    followed by a code unit that is not a semicolon. *)
Definition boundary_param_at (h : list Z) (i : nat) : Prop :=
  ∃ pre kw c post, h = pre ++ kw ++ c :: post ∧ length pre = i ∧
                   ascii_upper <$> kw = BOUNDARY_EQ ∧ c ≠ SEMICOLON.

Definition has_boundary_param (h : list Z) : Prop := ∃ i, boundary_param_at h i.

(** [v] is the value of the first boundary parameter of [h]: what follows
    the keyword, up to the next semicolon or the end of [h]. *)
Definition boundary_param_value (h v : list Z) : Prop :=
  ∃ pre kw rest, h = pre ++ kw ++ v ++ rest ∧
                 ascii_upper <$> kw = BOUNDARY_EQ ∧
                 v ≠ [] ∧ (SEMICOLON ∉ v) ∧
                 (∀ c r, rest = c :: r → c = SEMICOLON) ∧
                 ∀ j, (j < length pre)%nat → ¬ boundary_param_at h j.

(** [key], an equals sign and the opening double quote. *)
Definition attr_open (key : list Z) : list Z := key ++ [61; DQUOTE].

(** At index [j] of [cd] stands the attribute [key] with value [v]: [key],
    an equals sign, and [v], not empty and without double quote, between two
    double quotes. *)
Definition quoted_attr_at (key cd : list Z) (j : nat) (v : list Z) : Prop :=
  ∃ pre post, cd = pre ++ key ++ [61; DQUOTE] ++ v ++ DQUOTE :: post ∧
              length pre = j ∧ v ≠ [] ∧ (DQUOTE ∉ v).

Definition has_quoted_attr (key cd : list Z) : Prop :=
  ∃ j v, quoted_attr_at key cd j v.

(** Every place of [cd] where the text name= with a quoted value stands is
    the end of the attribute filename: [cd] has no name attribute of its
    own. *)
Definition name_only_in_filename (cd : list Z) : Prop :=
  ∀ j v, quoted_attr_at (str "name") cd j v → ∃ pre, take j cd = pre ++ str "file".

(** The payload of a part block as the specification words it: the bytes
    after the separator, less one final CR LF when there is one. *)
Definition payload_of (after_separator result : list Z) : Prop :=
  (∃ q, after_separator = q ++ CRLF ∧ result = q) ∨
  ((¬ ∃ q, after_separator = q ++ CRLF) ∧ result = after_separator).

(** The block that an iteration of the loop started at [position] hands to
    [parsePart] when it finds the next boundary at [nextBoundaryPos]. *)
Definition block_of (uint8Array : list Z) (position nextBoundaryPos : nat)
    : list Z :=
  slice uint8Array (skip_crlf uint8Array position) nextBoundaryPos.

(** The entry that a header line stands for: the text before its first
    colon, which must not be at index 0, trimmed and in lower case, and the
    text after that colon, trimmed. *)
Definition header_line_entry (ul : list Z → list Z) (line k v : list Z) : Prop :=
  ∃ pre post, line = pre ++ COLON :: post ∧ (COLON ∉ pre) ∧ pre ≠ [] ∧
              k = toLowerCase ul (trim pre) ∧ v = trim post.

(** Every line feed of [h] is followed, inside [h], by a byte other than a
    carriage return. *)
Definition lf_not_before_cr (h : list Z) : Prop :=
  ∀ k, h !! k = Some LF → ∃ c, h !! S k = Some c ∧ c ≠ CR.

(** ** Strings without lone surrogate *)

Definition ascii_text (s : list Z) : Prop := Forall (λ c, is_ascii c = true) s.

Definition is_surrogate (c : Z) : bool := (55296 <=? c) && (c <=? 57343).

(** A sequence of code units that are not surrogates and of pairs of a lead
    and a trail surrogate. *)
Inductive well_formed_utf16 : list Z → Prop :=
  | wf_nil : well_formed_utf16 []
  | wf_unit c s :
      0 ≤ c < 65536 → is_surrogate c = false →
      well_formed_utf16 s → well_formed_utf16 (c :: s)
  | wf_pair c d s :
      is_lead_surrogate c = true → is_trail_surrogate d = true →
      well_formed_utf16 s → well_formed_utf16 (c :: d :: s).

Fixpoint well_formedb (s : list Z) : bool :=
  match s with
  | [] => true
  | c :: r =>
      if is_lead_surrogate c then
        match r with
        | d :: r' => is_trail_surrogate d && well_formedb r'
        | [] => false
        end
      else (0 <=? c) && (c <? 65536) && negb (is_surrogate c) && well_formedb r
  end.

(** Unicode scalar values: the code points that are not surrogates. *)
Definition is_scalar_value (c : Z) : Prop :=
  0 ≤ c < 55296 ∨ 57344 ≤ c < 1114112.

(** ** The encoder of the round-trip property

    The specification names no encoder; this one follows its words: each
    part is introduced by the boundary pattern and a CR LF, has a header
    block with Content-Disposition (and Content-Type when the part declares
    one) that ends in CR LF CR LF, then the payload and a CR LF; after the
    last part comes the boundary pattern followed by two dashes.  The
    tuples (field name, optional filename, optional content type, payload)
    are values of [Part]. *)

Definition quoted (s : list Z) : list Z := [DQUOTE] ++ s ++ [DQUOTE].

Definition disposition_value (p : Part) : list Z :=
  str "form-data; name=" ++ quoted (name p)
  ++ match filename p with
     | Some f => str "; filename=" ++ quoted f
     | None => []
     end.

Definition header_text (p : Part) : list Z :=
  str "Content-Disposition: " ++ disposition_value p
  ++ match contentType p with
     | Some t => CRLF ++ str "Content-Type: " ++ t
     | None => []
     end.

(** What stands between the CR LF after a boundary and the next boundary. *)
Definition part_block (p : Part) : list Z :=
  TextEncoder_encode (header_text p) ++ CRLFCRLF ++ data p ++ CRLF.

Definition encode_part (boundary : list Z) (p : Part) : list Z :=
  boundary_pattern boundary ++ CRLF ++ part_block p.

Definition encode_multipart (boundary : list Z) (parts : list Part) : list Z :=
  concat (encode_part boundary <$> parts)
  ++ boundary_pattern boundary ++ [DASH; DASH].

(** The value of Content-Disposition in three pieces: up to the opening
    quote of the name, the name, and what follows its closing quote. *)
Definition NAME_OPEN : list Z := str "form-data; name=" ++ [DQUOTE].

Definition filename_tail (p : Part) : list Z :=
  match filename p with
  | Some f => str "; filename=" ++ quoted f
  | None => []
  end.

Definition DISPOSITION_LINE (p : Part) : list Z :=
  str "Content-Disposition: " ++ disposition_value p.

(** What follows a boundary in an encoded body. *)
Fixpoint encoded_tail (boundary : list Z) (parts : list Part) : list Z :=
  match parts with
  | [] => [DASH; DASH]
  | p :: parts' =>
      CRLF ++ part_block p ++ boundary_pattern boundary
      ++ encoded_tail boundary parts'
  end.

(** [pat] occurs in [blk ++ pat] at the end only. *)
Definition boundary_free (pat blk : list Z) : Prop :=
  ∀ k, (k < length blk)%nat → ¬ occurs_at (blk ++ pat) pat k.

(** The header fields that the encoder can write so that they can be read
    back: strings without lone surrogate; names and file names without
    double quote and without line feed, a file name that is not empty, a name
    that is not empty and does not end in filename= when a file name follows
    it, a content type that is not empty, has no line feed and no white
    space at its ends. *)
Definition encodable_headers (p : Part) : Prop :=
  well_formed_utf16 (name p) ∧ (DQUOTE ∉ name p) ∧ (LF ∉ name p) ∧
  match filename p with
  | Some f =>
      well_formed_utf16 f ∧ f ≠ [] ∧ (DQUOTE ∉ f) ∧ (LF ∉ f) ∧ name p ≠ [] ∧
      ¬ (∃ n, name p = n ++ str "filename=")
  | None => True
  end ∧
  match contentType p with
  | Some t => well_formed_utf16 t ∧ t ≠ [] ∧ (LF ∉ t) ∧ no_outer_space t
  | None => True
  end.

(** The parts that can be read back: such header fields, and a block in
    which the boundary pattern does not occur. *)
Definition encodable (boundary : list Z) (p : Part) : Prop :=
  encodable_headers p ∧
  boundary_free (boundary_pattern boundary) (part_block p).

(** A decision procedure for [encodable]. *)
Definition memb (x : Z) (l : list Z) : bool := existsb (Z.eqb x) l.

Definition ends_with (s suffix : list Z) : bool :=
  starts_with (reverse suffix) (reverse s).

Definition is_nil (s : list Z) : bool :=
  match s with [] => true | _ => false end.

Definition no_outer_spaceb (s : list Z) : bool :=
  match s with [] => true | c :: _ => negb (is_white_space c) end
  && match reverse s with [] => true | c :: _ => negb (is_white_space c) end.

Definition encodable_headersb (p : Part) : bool :=
  well_formedb (name p) && negb (memb DQUOTE (name p))
  && negb (memb LF (name p))
  && match filename p with
     | Some f =>
         well_formedb f && negb (is_nil f) && negb (memb DQUOTE f)
         && negb (memb LF f) && negb (is_nil (name p))
         && negb (ends_with (name p) (str "filename="))
     | None => true
     end
  && match contentType p with
     | Some t =>
         well_formedb t && negb (is_nil t) && negb (memb LF t)
         && no_outer_spaceb t
     | None => true
     end.

Definition encodableb (boundary : list Z) (p : Part) : bool :=
  encodable_headersb p
  && bool_decide
       (findSequence (part_block p ++ boundary_pattern boundary)
          (boundary_pattern boundary) 0
        = Some (length (part_block p))).

(** ** Example inputs *)

(** The platform's case mapping is not needed on ASCII input; the examples
    run with this stand-in. *)
Definition no_case_mapping (s : list Z) : list Z := s.

(** A file part with no content: the header block, the separator, and the
    CR LF that precedes the next boundary. *)
Definition empty_file_block : list Z :=
  str "Content-Disposition: form-data; name=" ++ quoted (str "file")
  ++ str "; filename=" ++ quoted (str "e.txt") ++ CRLF
  ++ str "Content-Type: text/plain" ++ CRLFCRLF ++ CRLF.

Definition empty_file_part : Part :=
  {| name := str "file"; filename := Some (str "e.txt");
     contentType := Some (str "text/plain"); data := [] |}.

(** A block without header separator, then a well-formed part. *)
Definition body_with_malformed_block : list Z :=
  str "--B" ++ CRLF ++ str "no separator here" ++ CRLF
  ++ str "--B" ++ CRLF
  ++ str "Content-Disposition: form-data; name=" ++ quoted (str "a")
  ++ CRLFCRLF ++ str "1" ++ CRLF
  ++ str "--B--" ++ CRLF.




(** A part with an empty quoted filename, as a browser sends for a file input
    left empty, and the body of a request that has this part only. *)
Definition empty_filename_block : list Z :=
  str "Content-Disposition: form-data; name=" ++ quoted (str "f")
  ++ str "; filename=" ++ quoted [] ++ CRLF
  ++ str "Content-Type: application/octet-stream" ++ CRLFCRLF
  ++ str "abc" ++ CRLF.

Definition empty_filename_body : list Z :=
  str "--B" ++ CRLF ++ empty_filename_block ++ str "--B--" ++ CRLF.

(** A body whose first boundary is already followed by two dashes, and which
    goes on with a part and a second terminal boundary. *)
Definition body_terminal_first : list Z :=
  str "--B--" ++ CRLF
  ++ str "Content-Disposition: form-data; name=" ++ quoted (str "a")
  ++ CRLFCRLF ++ str "x" ++ CRLF
  ++ str "--B--".

Definition part_a : Part :=
  {| name := str "a"; filename := None; contentType := None; data := str "x" |}.

(** Parts for the round trip: a field, a file with binary content, and a
    file whose name and file name are not ASCII (U+00E9, and U+1F600 as a
    surrogate pair). *)
Definition field_part : Part :=
  {| name := str "title"; filename := None; contentType := None;
     data := str "hello" ++ CRLF ++ str "world" |}.

Definition file_part : Part :=
  {| name := str "file"; filename := Some (str "x.png");
     contentType := Some (str "image/png");
     data := [137; 80; 78; 71; 13; 10; 26; 10; 0; 255; 45; 45] |}.

Definition unicode_part : Part :=
  {| name := str "caf" ++ [233]; filename := Some ([55357; 56832] ++ str ".txt");
     contentType := Some (str "text/plain; charset=utf-8");
     data := [226; 130; 172] |}.

(** Parts that the encoder writes but the parser does not read back. *)
Definition empty_filename_part : Part :=
  {| name := str "f"; filename := Some [];
     contentType := Some (str "application/octet-stream"); data := [] |}.

Definition boundary_in_payload_part : Part :=
  {| name := str "f"; filename := None; contentType := None;
     data := str "a" ++ CRLF ++ str "--B" ++ CRLF ++ str "b" |}.

Definition quote_in_name_part : Part :=
  {| name := str "a" ++ [DQUOTE] ++ str "b"; filename := None;
     contentType := None; data := str "x" |}.

(** ** Notions used in the further statements *)

(** The entry of the form that a part stands for: a [File] with the bytes,
    the file name and the declared type (application/octet-stream when none
    is declared) of a part that has a file name, the decoded payload of a
    part that has none. *)
Definition form_entry (p : Part) : list Z * FormValue :=
  match filename p with
  | Some f =>
      (name p,
       FileValue (data p) f
         (default (str "application/octet-stream") (contentType p)))
  | None => (name p, StringValue (TextDecoder_decode (data p)))
  end.

(** A boundary that the Content-Type header carries unchanged: not empty,
    without semicolon, without white space or quote at its two ends. *)
Definition plain_boundary (b : list Z) : Prop :=
  b ≠ [] ∧ (SEMICOLON ∉ b) ∧ no_outer_space b ∧
  (∀ c r, b = c :: r → is_quote c = false) ∧
  (∀ r c, b = r ++ [c] → is_quote c = false).

(** A body as producers write it: bytes before the first boundary, for each
    part the boundary pattern, a CR LF that may be left out ([false]), and
    the block of the part; [close] is what follows the last boundary. *)
Fixpoint lenient_tail (boundary : list Z) (parts : list (bool * Part))
    (close : list Z) : list Z :=
  match parts with
  | [] => close
  | (crlf, p) :: parts' =>
      (if crlf : bool then CRLF else []) ++ part_block p
      ++ boundary_pattern boundary ++ lenient_tail boundary parts' close
  end.

Definition lenient_body (preamble boundary : list Z)
    (parts : list (bool * Part)) (close : list Z) : list Z :=
  preamble ++ boundary_pattern boundary ++ lenient_tail boundary parts close.

(** The parts that the scan emits from [position] on: each is what
    [parsePart] makes of the bytes between a cursor, at or after the position,
    and the next boundary from there; the scan goes on after that boundary. *)
Fixpoint emitted_from (ul : list Z → list Z) (d bb : list Z) (position : nat)
    (parts : list Part) : Prop :=
  match parts with
  | [] => True
  | p :: rest =>
      ∃ start stop,
        (position ≤ start)%nat ∧ findBoundary d bb start = Some stop ∧
        parsePart ul (slice d start stop) = Some p ∧
        emitted_from ul d bb (stop + length bb) rest
  end.

(** A body that breaks off inside its only part: no boundary closes it. *)
Definition body_unclosed : list Z :=
  str "--B" ++ CRLF
  ++ str "Content-Disposition: form-data; name=" ++ quoted (str "a")
  ++ CRLFCRLF ++ str "x".

(** A body with a preamble, a part that follows its boundary without CR LF,
    and an epilogue in which the boundary pattern occurs again. *)
Definition lenient_example : list Z :=
  lenient_body (str "preamble" ++ CRLF) (str "B")
    [(true, field_part); (false, file_part)]
    (str "--" ++ CRLF ++ str "epilogue --B" ++ CRLF ++ str "more").

(** A request with a field, a file and a file with names that are not ASCII,
    and the form it stands for. *)
Definition example_request : Request :=
  mkRequest (Some (str "multipart/form-data; boundary=B"))
            (encode_multipart (str "B") [field_part; file_part; unicode_part]).

Definition example_form : FormData :=
  form_entry <$> [field_part; file_part; unicode_part].

(** The part that a text field is written as: no file name, no content
    type, and the value in UTF-8 as the payload. *)
Definition field_part_of (field : list Z * list Z) : Part :=
  {| name := field.1; filename := None; contentType := None;
     data := TextEncoder_encode field.2 |}.

(** Two text fields whose values are not ASCII: U+00E9, and U+1F600 as a
    surrogate pair. *)
Definition example_fields : list (list Z * list Z) :=
  [(str "title", str "caf" ++ [233]); (str "mood", [55357; 56832])].

(** A part whose Content-Disposition has a file name and no name, and the
    body of a request that has this part only. *)
Definition filename_only_block : list Z :=
  str "Content-Disposition: form-data; filename=" ++ quoted (str "x.png")
  ++ CRLFCRLF ++ str "abc" ++ CRLF.

Definition filename_only_body : list Z :=
  str "--B" ++ CRLF ++ filename_only_block ++ str "--B--" ++ CRLF.

(** A part whose Content-Disposition has the attribute filename twice, with
    an empty value first: its header value, its block, and the body of a
    request that has this part only. *)
Definition two_filenames_header : list Z :=
  str "form-data; name=" ++ quoted (str "f")
  ++ str "; filename=" ++ quoted [] ++ str "; filename=" ++ quoted (str "x.bin").

Definition two_filenames_block : list Z :=
  str "Content-Disposition: " ++ two_filenames_header
  ++ CRLFCRLF ++ str "abc" ++ CRLF.

Definition two_filenames_body : list Z :=
  str "--B" ++ CRLF ++ two_filenames_block ++ str "--B--" ++ CRLF.

Definition two_filenames_part : Part :=
  {| name := str "f"; filename := Some (str "x.bin"); contentType := None;
     data := str "abc" |}.

(** * The upload handler ([functions/upload.js])

    Conventions of the embedding, besides those of the parser.
    - A value read from JSON is a [json]; [undefined], which a property
      read can give, is [None] of [option json].  [JNumber n] is the number
      with the integer value [n], for [n] of at most 2^53 in absolute value
      (file sizes are such integers); a number with a fraction, and one
      beyond that range, is outside the model.
    - A [TypeError] thrown by the engine is the constructor [TypeError]; the
      text of its message is the engine's, [EngineText] where it is shown.
    - What the platform does is a parameter: the answer of the network to
      each [fetch], the outcome of the platform's own [formData()], of the
      two middleware functions (imported from [utils/middleware]), of the
      write to the key-value store, and the clock.
    - The effects of the handler are recorded as a list of [event]s, in
      order; [console.log] and [console.error] are left out. *)

#[warnings="-register-all"] Inductive json :=
  | JNull
  | JBool (b : bool)
  | JNumber (n : Z)
  | JString (s : list Z)
  | JArray (items : list json)
  | JObject (members : list (list Z * json)).

Inductive completion (A : Type) :=
  | Normal (a : A)
  | TypeError.

Arguments Normal {A} a.
Arguments TypeError {A}.

Definition completion_bind {A B : Type} (c : completion A)
    (f : A → completion B) : completion B :=
  match c with
  | Normal a => f a
  | TypeError => TypeError
  end.

Notation "x ←? c ; f" := (completion_bind c (λ x, f))
  (at level 20, c at level 100, f at level 200, right associativity,
   only parsing).

(** The value of the member [key] of an object; [JSON.parse] keeps the last
    of several members with the same name. *)
Fixpoint member (key : list Z) (members : list (list Z * json)) : option json :=
  match members with
  | [] => None
  | (k, v) :: rest =>
      match member key rest with
      | Some v' => Some v'
      | None => if list_eqb k key then Some v else None
      end
  end.

(** [v.key] for the keys that the source reads (ok, result, photo, document,
    video, audio, file_id, file_size, description), none of which is a
    property of the prototype of an object, an array, a string, a number or
    a boolean: reading it from [null] throws, from an object gives the
    member, from anything else gives [undefined]. *)
Definition get (v : json) (key : list Z) : completion (option json) :=
  match v with
  | JNull => TypeError
  | JObject members => Normal (member key members)
  | _ => Normal None
  end.

(** The same read when the value may be [undefined], from which it throws
    as well. *)
Definition get_opt (v : option json) (key : list Z) : completion (option json) :=
  match v with
  | Some v => get v key
  | None => TypeError
  end.

(** The conversion to boolean of [!v], [v || w] and [if (v)]. *)
Definition truthy_value (v : option json) : bool :=
  match v with
  | None => false
  | Some JNull => false
  | Some (JBool b) => b
  | Some (JNumber n) => negb (n =? 0)
  | Some (JString s) => negb (is_nil s)
  | Some (JArray _) => true
  | Some (JObject _) => true
  end.

(** [Number.prototype.toString] on an integer of at most 2^53 in absolute
    value: all its decimal digits.  (Beyond that range the engine writes the
    shortest digits that read back as the same number, which are not all
    the digits of the integer.) *)
Fixpoint digits (fuel : nat) (n : Z) (acc : list Z) : list Z :=
  match fuel with
  | O => acc
  | S fuel' =>
      let acc' := (48 + n mod 10) :: acc in
      if n <? 10 then acc' else digits fuel' (n / 10) acc'
  end.

Definition decimal (n : Z) : list Z :=
  if n <? 0 then DASH :: digits (S (Z.to_nat (Z.log2 (- n)))) (- n) []
  else digits (S (Z.to_nat (Z.log2 n))) n [].

Fixpoint join (separator : list Z) (strings : list (list Z)) : list Z :=
  match strings with
  | [] => []
  | [s] => s
  | s :: rest => s ++ separator ++ join separator rest
  end.

(** The results of [f] on the items of a list, in order, up to the first
    that throws. *)
Definition completion_all {A B : Type} (f : A → completion B)
    : list A → completion (list B) :=
  fix go (items : list A) : completion (list B) :=
    match items with
    | [] => Normal []
    | item :: rest =>
        b ←? f item;
        bs ←? go rest;
        Normal (b :: bs)
    end.

(** [ToString], as a template literal and [new Error(v)] apply it.  An array
    is the join of its items, [null] among them giving the empty string.
    An object is converted by the methods [toString] and [valueOf] that it
    has or inherits.  A member of an object read from JSON is never a
    function, so a member toString hides the inherited method, and the
    conversion throws a TypeError (a member valueOf is skipped, or the
    inherited [valueOf] returns the object itself, which is no primitive);
    without a member toString the inherited method gives
    [object Object]. *)
Fixpoint ToString (v : json) : completion (list Z) :=
  match v with
  | JNull => Normal (str "null")
  | JBool true => Normal (str "true")
  | JBool false => Normal (str "false")
  | JNumber n => Normal (decimal n)
  | JString s => Normal s
  | JArray items =>
      strings ←? completion_all
                   (λ item, match item with
                            | JNull => Normal []
                            | _ => ToString item
                            end)
                   items;
      Normal (join (str ",") strings)
  | JObject members =>
      match member (str "toString") members with
      | Some _ => TypeError
      | None => Normal (str "[object Object]")
      end
  end.

(** [ToPrimitive] with the hint number, as a comparison applies it to each
    operand: a primitive is left as it is; an array and an object are
    converted as by [ToString] (their inherited [valueOf] returns the value
    itself, a member valueOf is no function), to a string or a TypeError. *)
Definition ToPrimitive (v : option json) : completion (option json) :=
  match v with
  | Some (JArray items) =>
      s ←? ToString (JArray items); Normal (Some (JString s))
  | Some (JObject members) =>
      s ←? ToString (JObject members); Normal (Some (JString s))
  | _ => Normal v
  end.

(** [`${v}`] for a value that may be [undefined]. *)
Definition template (v : option json) : completion (list Z) :=
  match v with
  | Some v => ToString v
  | None => Normal (str "undefined")
  end.

(** The same for a variable of the environment, a string or [undefined]. *)
Definition template_string (v : option (list Z)) : list Z :=
  default (str "undefined") v.

(** The conversion to a [USVString] that [FormData.append] applies to a
    string: a surrogate that is not part of a pair becomes U+FFFD. *)
Definition to_usv (s : list Z) : list Z :=
  concat (from_scalar_value <$> to_scalar_values s).

(** [formData.get(name)]: the value of the first entry with that name;
    [None] is [null]. *)
Definition FormData_get (formData : FormData) (name : list Z) : option FormValue :=
  snd <$> head (filter (λ entry, entry.1 = name) formData).

(** [formData.append(name, value)] for a [value] that [formData.get] gave:
    [null] is appended as the string null. *)
Definition FormData_append (formData : FormData) (name : list Z)
    (value : option FormValue) : FormData :=
  formData ++ [(name, default (StringValue (str "null")) value)].

(** The [type] attribute of a [File] made with the option [type]: the empty
    string if a character is outside U+0020 to U+007E, the option in ASCII
    lower case otherwise (File API, the constructor of [Blob]). *)
Definition File_type (type : list Z) : list Z :=
  if forallb (λ c, (32 <=? c) && (c <=? 126)) type
  then ascii_lower <$> type else [].

(** [s.startsWith(prefix)] is [starts_with prefix s]. *)

(** [s.split('.')]: the pieces between the full stops, at least one. *)
Fixpoint split_at (separator : Z) (cur : list Z) (s : list Z) : list (list Z) :=
  match s with
  | [] => [reverse cur]
  | c :: r =>
      if c =? separator then reverse cur :: split_at separator [] r
      else split_at separator (c :: cur) r
  end.

Definition FULL_STOP : Z := 46.

(** ** The environment, the platform and the effects *)

Record Env := mkEnv {
  API_TOKEN : option (list Z);
  TG_Chat_ID : option (list Z);
  TG_Bot_Token : option (list Z);
  img_url : bool;                      (* the key-value store is bound *)
  API_DOMAIN : option (list Z)
}.

(** What [fetch] followed by [response.json()] comes to: one of the two
    rejects, or there is a response with its [ok] flag and its parsed
    body. *)
Inductive fetch_outcome :=
  | Rejects
  | Responds (ok : bool) (responseData : json).

Record Metadata := mkMetadata {
  TimeStamp : Z;
  ListType : list Z;
  Label : list Z;
  liked : bool;
  fileName : list Z;
  fileSize : Z
}.

Inductive event :=
  | Fetch (apiUrl : list Z) (formData : FormData)
  | Sleep (milliseconds : Z)
  | Put (key : list Z) (metadata : Metadata).

Record Platform := mkPlatform {
  (* the outcome of the fetch made by the call of [sendToTelegram] with the
     given retry count, for the given address and form *)
  network : nat → list Z → FormData → fetch_outcome;
  (* [clonedRequest.formData()]; [None] when it rejects *)
  native_formData : option FormData;
  (* the message of the error that [errorHandling(context)] throws, if any,
     and the same for [telemetryData(context)] *)
  errorHandling_error : option (list Z);
  telemetryData_error : option (list Z);
  (* the message of the error that [env.img_url.put] rejects with, if any *)
  put_error : option (list Z);
  (* [Date.now()] *)
  now : Z
}.

Inductive send_result :=
  | Success (data : json)
  | Failure (error : json).

(** The [message] of a caught error: the text given to [new Error], or the
    text that the engine gives to a [TypeError]. *)
Inductive error_message :=
  | Text (text : list Z)
  | EngineText.

(** What a [try] block comes to: a value, or an error with its message. *)
Inductive attempt (A : Type) :=
  | Done (a : A)
  | Raised (message : error_message).

Arguments Done {A} a.
Arguments Raised {A} message.

(** A request as far as the handler reads it: the value of
    [headers.get('Authorization')], and what the parser reads. *)
Record HttpRequest := mkHttpRequest {
  authorization : option (list Z);
  request : Request
}.

(** The value given to [JSON.stringify] for the body of a response:
    [{ status: false, message, data: null }] or
    [{ status: true, message: "success", data }]. *)
Inductive response_body :=
  | FailureBody (message : error_message)
  | SuccessBody (data : json).

(** A response: its status and its body; its Content-Type is always
    application/json. *)
Record Response := mkResponse {
  status : Z;
  body_value : response_body
}.

Definition MAX_RETRIES : nat := 2.

Section Handler.

Variable unicode_toLowerCase : list Z → list Z.

(** [a > b] on two primitive values, which does not throw.  On two numbers
    it is the order of the numbers, and it is false when one side is
    [undefined]; on other primitives the operands are converted to numbers,
    or compared as strings, by rules that are not part of this development,
    so the comparison of primitives is a parameter. *)
Variable greater : option json → option json → bool.

Variable platform : Platform.

(** The callback of [reduce]:
    [(prev.file_size > current.file_size) ? prev : current].  The two sizes
    are read, then the operator converts both to primitives, which can
    throw, and compares the primitives. *)
Definition larger (prev current : json) : completion json :=
  a ←? get prev (str "file_size");
  b ←? get current (str "file_size");
  x ←? ToPrimitive a;
  y ←? ToPrimitive b;
  Normal (if greater x y then prev else current).

Fixpoint reduce_from (prev : json) (items : list json) : completion json :=
  match items with
  | [] => Normal prev
  | current :: rest =>
      chosen ←? larger prev current;
      reduce_from chosen rest
  end.

(** [photo.reduce(callback)] without initial value; on an empty array, and
    on a value that is not an array, the call throws. *)
Definition reduce (photo : option json) : completion json :=
  match photo with
  | Some (JArray (first :: rest)) => reduce_from first rest
  | _ => TypeError
  end.

(** [getFileId(response)]; the result is [null] ([Some JNull]), [undefined]
    ([None]) or a value. *)
Definition getFileId (response : json) : completion (option json) :=
  ok ←? get response (str "ok");
  if negb (truthy_value ok) then Normal (Some JNull)
  else
    result ←? get response (str "result");
    if negb (truthy_value result) then Normal (Some JNull)
    else
      photo ←? get_opt result (str "photo");
      if truthy_value photo then
        chosen ←? reduce photo;
        get chosen (str "file_id")
      else
        document ←? get_opt result (str "document");
        if truthy_value document then get_opt document (str "file_id")
        else
          video ←? get_opt result (str "video");
          if truthy_value video then get_opt video (str "file_id")
          else
            audio ←? get_opt result (str "audio");
            if truthy_value audio then get_opt audio (str "file_id")
            else Normal (Some JNull).

Definition api_url (env : Env) (apiEndpoint : list Z) : list Z :=
  str "https://api.telegram.org/bot" ++ template_string (TG_Bot_Token env)
  ++ str "/" ++ apiEndpoint.

(** [sendToTelegram(formData, apiEndpoint, env, retryCount)], which calls
    itself with [retryCount + 1]; [trace] holds the effects so far. *)
Fixpoint sendToTelegram_fuel (fuel : nat) (formData : FormData)
    (apiEndpoint : list Z) (env : Env) (retryCount : nat) (trace : list event)
    : option (send_result * list event) :=
  match fuel with
  | O => None
  | S fuel' =>
      let apiUrl := api_url env apiEndpoint in
      let trace := trace ++ [Fetch apiUrl formData] in
      (* the catch block *)
      let caught :=
        if (retryCount <? MAX_RETRIES)%nat then
          sendToTelegram_fuel fuel' formData apiEndpoint env (retryCount + 1)
            (trace ++ [Sleep (1000 * (Z.of_nat retryCount + 1))])
        else Some (Failure (JString (str "Network error occurred")), trace) in
      match network platform retryCount apiUrl formData with
      | Rejects => caught
      | Responds ok responseData =>
          if ok then Some (Success responseData, trace)
          else if (retryCount <? MAX_RETRIES)%nat
                  && list_eqb apiEndpoint (str "sendPhoto") then
            let newFormData :=
              FormData_append
                (FormData_append [] (str "chat_id")
                   (FormData_get formData (str "chat_id")))
                (str "document") (FormData_get formData (str "photo")) in
            sendToTelegram_fuel fuel' newFormData (str "sendDocument") env
              (retryCount + 1) trace
          else
            match get responseData (str "description") with
            | TypeError => caught
            | Normal description =>
                Some (Failure
                        (if truthy_value description
                         then default JNull description
                         else JString (str "Upload to Telegram failed")),
                      trace)
            end
      end
  end.

(** One unit of fuel for the call and one for every retry that is left. *)
Definition sendToTelegram (formData : FormData) (apiEndpoint : list Z)
    (env : Env) (retryCount : nat) (trace : list event)
    : option (send_result * list event) :=
  sendToTelegram_fuel (S (MAX_RETRIES - retryCount)) formData apiEndpoint env
    retryCount trace.

(** The test of the Authorization header: with a token configured, the
    header must be there and be Bearer, a space and the token. *)
Definition authorized (env : Env) (authHeader : option (list Z)) : bool :=
  match truthy (API_TOKEN env) with
  | Some token =>
      match truthy authHeader with
      | Some header => list_eqb header (str "Bearer " ++ token)
      | None => false
      end
  | None => true
  end.

Definition UNAUTHORIZED : list Z :=
  str "Unauthorized: Invalid or missing API token".

(** The form: the platform's own, or the manual parser's when the platform
    rejects the body. *)
Definition read_form (r : Request) : option (attempt FormData) :=
  match native_formData platform with
  | Some formData => Some (Done formData)
  | None =>
      match parseMultipartFormData unicode_toLowerCase r with
      | Some (Returns formData) => Some (Done formData)
      | Some (Throws message) => Some (Raised (Text (str message)))
      | None => None
      end
  end.

(** [fileName.split('.').pop().toLowerCase()] *)
Definition file_extension (fileName : list Z) : list Z :=
  toLowerCase unicode_toLowerCase
    (default [] (last (split_at FULL_STOP [] fileName))).

(** The field of the form sent on and the method of the Bot API, by the
    type of the file. *)
Definition choose_endpoint (type : list Z) : list Z * list Z :=
  if starts_with (str "image/") type then (str "photo", str "sendPhoto")
  else if starts_with (str "audio/") type then (str "audio", str "sendAudio")
  else if starts_with (str "video/") type then (str "video", str "sendVideo")
  else (str "document", str "sendDocument").

(** The [data] of the response to an upload that succeeded; [id] is the
    identifier as the templates write it. *)
Definition success_data (env : Env) (fileId : option json) (id : list Z)
    (fileName fileExtension : list Z) (size : Z) (type : list Z) : json :=
  let domain :=
    default (str "https://your-domain.pages.dev") (truthy (API_DOMAIN env)) in
  let fullUrl := domain ++ str "/file/" ++ id ++ str "." ++ fileExtension in
      JObject
        [(str "key", default JNull fileId);
         (str "name", JString (id ++ str "." ++ fileExtension));
         (str "pathname",
          JString (str "/file/" ++ id ++ str "." ++ fileExtension));
         (str "origin_name", JString fileName);
         (str "size", JNumber size);
         (str "mimetype", JString type);
         (str "extension", JString fileExtension);
         (str "links",
          JObject
            [(str "url", JString fullUrl);
             (str "html",
              JString (str "<img src=" ++ [DQUOTE] ++ fullUrl ++ [DQUOTE]
                       ++ str " alt=" ++ [DQUOTE] ++ fileName ++ [DQUOTE]
                       ++ str " />"));
             (str "bbcode", JString (str "[img]" ++ fullUrl ++ str "[/img]"));
             (str "markdown",
              JString (str "![" ++ fileName ++ str "](" ++ fullUrl ++ str ")"));
             (str "markdown_with_link",
              JString (str "[![" ++ fileName ++ str "](" ++ fullUrl
                       ++ str ")](" ++ fullUrl ++ str ")"));
             (str "thumbnail_url", JString fullUrl)])].

(** The [try] block of [onRequestPost] after the test of the token. *)
Definition upload (env : Env) (r : Request)
    : option (attempt json * list event) :=
  match read_form r with
  | None => None
  | Some (Raised message) => Some (Raised message, [])
  | Some (Done formData) =>
      match errorHandling_error platform with
      | Some message => Some (Raised (Text message), [])
      | None =>
      match telemetryData_error platform with
      | Some message => Some (Raised (Text message), [])
      | None =>
      match FormData_get formData (str "file") with
      | None => Some (Raised (Text (str "No file uploaded")), [])
      | Some (StringValue []) =>
          Some (Raised (Text (str "No file uploaded")), [])
      | Some (StringValue (_ :: _)) =>
          (* [uploadFile.name] is [undefined], and [split] is read from it *)
          Some (Raised EngineText, [])
      | Some (FileValue bits fileName type) =>
          let uploadFile := FileValue bits fileName type in
          let fileExtension := file_extension fileName in
          let '(field, apiEndpoint) := choose_endpoint (File_type type) in
          let telegramFormData :=
            [(str "chat_id",
              StringValue (to_usv (template_string (TG_Chat_ID env))));
             (field, uploadFile)] in
          match sendToTelegram telegramFormData apiEndpoint env 0 [] with
          | None => None
          | Some (Failure error, trace) =>
              (* [new Error(result.error)] converts the error to a string *)
              match ToString error with
              | Normal text => Some (Raised (Text text), trace)
              | TypeError => Some (Raised EngineText, trace)
              end
          | Some (Success data, trace) =>
              match getFileId data with
              | TypeError => Some (Raised EngineText, trace)
              | Normal fileId =>
                  if negb (truthy_value fileId)
                  then Some (Raised (Text (str "Failed to get file ID")), trace)
                  else
                    (* the first template with [fileId], that of the key or
                       of [fullUrl], throws before anything is written *)
                    match template fileId with
                    | TypeError => Some (Raised EngineText, trace)
                    | Normal id =>
                        let size := Z.of_nat (length bits) in
                        let data :=
                          success_data env fileId id fileName fileExtension
                            size (File_type type) in
                        if img_url env then
                          let key := id ++ str "." ++ fileExtension in
                          let metadata :=
                            {| TimeStamp := now platform;
                               ListType := str "None"; Label := str "None";
                               liked := false; fileName := fileName;
                               fileSize := size |} in
                          let trace := trace ++ [Put key metadata] in
                          match put_error platform with
                          | Some message => Some (Raised (Text message), trace)
                          | None => Some (Done data, trace)
                          end
                        else Some (Done data, trace)
                    end
              end
          end
      end
      end
      end
  end.

(** [onRequestPost(context)]: the response and the effects. *)
Definition onRequestPost (env : Env) (r : HttpRequest)
    : option (Response * list event) :=
  if negb (authorized env (authorization r))
  then Some (mkResponse 401 (FailureBody (Text UNAUTHORIZED)), [])
  else
    match upload env (request r) with
    | None => None
    | Some (Done data, trace) => Some (mkResponse 200 (SuccessBody data), trace)
    | Some (Raised message, trace) =>
        Some (mkResponse 500 (FailureBody message), trace)
    end.

End Handler.

(** ** Notions used in the statements about the handler *)

(** The conversion of [v] to a string or to a primitive reaches an object
    with a member toString: [v] is such an object, or an array with such a
    value among its items. *)
Inductive unprintable : json → Prop :=
  | unprintable_object members :
      is_Some (member (str "toString") members) → unprintable (JObject members)
  | unprintable_array items item :
      item ∈ items → unprintable item → unprintable (JArray items).

(** The [file_size] of [item] is such a value. *)
Definition unprintable_size (item : json) : Prop :=
  ∃ size, get item (str "file_size") = Normal (Some size) ∧ unprintable size.

(** The [file_size] of an item of the photo array, when it is a number. *)
Definition photo_size (item : json) : option Z :=
  match get item (str "file_size") with
  | Normal (Some (JNumber n)) => Some n
  | _ => None
  end.

(** [chosen] stands in [items] with size [m], no item before it is larger
    and every item after it is smaller. *)
Definition last_largest (items : list json) (chosen : json) : Prop :=
  ∃ before after m,
    items = before ++ chosen :: after ∧ photo_size chosen = Some m ∧
    Forall (λ e, ∃ k, photo_size e = Some k ∧ k ≤ m) before ∧
    Forall (λ e, ∃ k, photo_size e = Some k ∧ k < m) after.

(** The number of requests in a list of effects, and the time slept. *)
Definition fetches (trace : list event) : nat :=
  foldr (λ e n, match e with Fetch _ _ => S n | _ => n end) 0%nat trace.

Definition slept (trace : list event) : Z :=
  foldr (λ e total, match e with Sleep ms => ms + total | _ => total end) 0 trace.

(** What the result says about the last request: [r] is the result when
    the answer to the request of the call with retry count [last] was
    [outcome]. *)
Definition reports (r : send_result) (last : nat) (outcome : fetch_outcome)
    : Prop :=
  match r with
  | Success data => outcome = Responds true data
  | Failure error =>
      (error = JString (str "Network error occurred") ∧
       (MAX_RETRIES ≤ last)%nat ∧
       (outcome = Rejects ∨ outcome = Responds false JNull)) ∨
      (∃ d description,
         outcome = Responds false d ∧
         get d (str "description") = Normal description ∧
         error = if truthy_value description then default JNull description
                 else JString (str "Upload to Telegram failed"))
  end.

(** The order of two numbers, and false on anything else: a stand-in for the
    operator on the examples, where only numbers are compared. *)
Definition number_greater (a b : option json) : bool :=
  match a, b with
  | Some (JNumber x), Some (JNumber y) => y <? x
  | _, _ => false
  end.

(** An answer of the Bot API with four sizes of a photo, two of them of the
    largest size. *)
Definition photo_items : list json :=
  [JObject [(str "file_id", JString (str "small"));
            (str "file_size", JNumber 1200)];
   JObject [(str "file_id", JString (str "large"));
            (str "file_size", JNumber 98000)];
   JObject [(str "file_id", JString (str "large2"));
            (str "file_size", JNumber 98000)];
   JObject [(str "file_id", JString (str "medium"));
            (str "file_size", JNumber 20000)]].

Definition photo_answer : json :=
  JObject
    [(str "ok", JBool true);
     (str "result",
      JObject [(str "message_id", JNumber 7); (str "photo", JArray photo_items)])].

(** An answer whose second photo size has an object with a member toString
    as its [file_size]. *)
Definition unprintable_answer : json :=
  JObject
    [(str "ok", JBool true);
     (str "result",
      JObject
        [(str "photo",
          JArray
            [JObject [(str "file_id", JString (str "a"));
                      (str "file_size", JNumber 1)];
             JObject [(str "file_id", JString (str "b"));
                      (str "file_size",
                       JObject [(str "toString", JNumber 1)])]])])].

(** An answer of the Bot API to a document. *)
Definition document_answer : json :=
  JObject
    [(str "ok", JBool true);
     (str "result",
      JObject
        [(str "document",
          JObject [(str "file_id", JString (str "doc1"));
                   (str "file_size", JNumber 12)])])].

Definition example_env : Env :=
  {| API_TOKEN := Some (str "secret"); TG_Chat_ID := Some (str "42");
     TG_Bot_Token := Some (str "T"); img_url := true; API_DOMAIN := None |}.

(** A platform that rejects the body of the request, so that the manual
    parser runs, and a network that refuses the first request and accepts
    the second. *)
Definition example_platform : Platform :=
  {| network := λ retryCount _ _,
       match retryCount with
       | O => Responds false
                (JObject [(str "description", JString (str "PHOTO_INVALID"))])
       | _ => Responds true document_answer
       end;
     native_formData := None;
     errorHandling_error := None;
     telemetryData_error := None;
     put_error := None;
     now := 1700000000000 |}.

(** The form that the handler sends for a photo. *)
Definition photo_form : FormData :=
  [(str "chat_id", StringValue (str "42"));
   (str "photo", FileValue (data file_part) (str "x.png") (str "image/png"))].

(** The number of writes to the store in a list of effects. *)
Definition puts (trace : list event) : nat :=
  foldr (λ e n, match e with Put _ _ => S n | _ => n end) 0%nat trace.

(** [p] is the first of [parts] with the name file. *)
Definition first_file_part (parts : list Part) (p : Part) : Prop :=
  ∃ before after,
    parts = before ++ p :: after ∧ name p = str "file" ∧
    Forall (λ q, name q ≠ str "file") before.

(** The request that the handler sends first for a file: the form with the
    chat identifier and the file, to the method chosen by the type of the
    file. *)
Definition first_request (env : Env) (bits fileName type : list Z) : event :=
  Fetch (api_url env (choose_endpoint (File_type type)).2)
    [(str "chat_id", StringValue (to_usv (template_string (TG_Chat_ID env))));
     ((choose_endpoint (File_type type)).1, FileValue bits fileName type)].

(** An upload, with its token, of [example_request], and what the handler
    does with it on [example_platform]. *)
Definition example_upload : HttpRequest :=
  mkHttpRequest (Some (str "Bearer secret")) example_request.

Definition example_trace : list event :=
  [Fetch (api_url example_env (str "sendPhoto")) photo_form;
   Fetch (api_url example_env (str "sendDocument"))
     [(str "chat_id", StringValue (str "42"));
      (str "document",
       FileValue (data file_part) (str "x.png") (str "image/png"))];
   Put (str "doc1.png")
     {| TimeStamp := 1700000000000; ListType := str "None";
        Label := str "None"; liked := false; fileName := str "x.png";
        fileSize := 12 |}].

Definition example_response : Response :=
  mkResponse 200
    (SuccessBody
       (success_data example_env (Some (JString (str "doc1"))) (str "doc1")
          (str "x.png") (str "png") 12 (str "image/png"))).

(** The same upload without its token. *)
Definition example_upload_without_token : HttpRequest :=
  mkHttpRequest None example_request.

(** A request that is not a form. *)
Definition example_text_upload : HttpRequest :=
  mkHttpRequest (Some (str "Bearer secret"))
                (mkRequest (Some (str "text/plain")) (str "hello")).

(** An upload whose form has a text field only. *)
Definition example_upload_without_file : HttpRequest :=
  mkHttpRequest (Some (str "Bearer secret"))
    (mkRequest (Some (str "multipart/form-data; boundary=B"))
               (encode_multipart (str "B") [field_part])).

(** A network that accepts the file and answers with an identifier that is
    an object with a member toString, and one that refuses every request
    with such an object as its description. *)
Definition unprintable_id_platform : Platform :=
  {| network := λ _ _ _,
       Responds true
         (JObject
            [(str "ok", JBool true);
             (str "result",
              JObject
                [(str "document",
                  JObject
                    [(str "file_id",
                      JObject [(str "toString", JNumber 1)])])])]);
     native_formData := None;
     errorHandling_error := None;
     telemetryData_error := None;
     put_error := None;
     now := 1700000000000 |}.

Definition unprintable_error_platform : Platform :=
  {| network := λ _ _ _,
       Responds false
         (JObject [(str "description", JObject [(str "toString", JNumber 1)])]);
     native_formData := None;
     errorHandling_error := None;
     telemetryData_error := None;
     put_error := None;
     now := 1700000000000 |}.

(** * Properties *)

(** ** Byte-sequence search: what [findSequence] returns *)

Lemma occurs_at_alt d s i :
  occurs_at d s i ↔
  (i + length s ≤ length d)%nat ∧ take (length s) (drop i d) = s.
Proof.
  split.
  - intros (pre & post & -> & <-). split.
    + rewrite !length_app. lia.
    + rewrite drop_app_length. by rewrite take_app_length.
  - intros [Hlen Heq]. exists (take i d), (drop (i + length s) d). split.
    + rewrite <- Heq at 1. rewrite <- (take_drop i d) at 1. f_equal.
      rewrite <- (take_drop (length s) (drop i d)) at 1. f_equal.
      rewrite drop_drop. done.
    + rewrite length_take. lia.
Qed.

Lemma matches_at_spec d s i :
  matches_at d s i = true ↔ take (length s) (drop i d) = s.
Proof.
  unfold matches_at. rewrite forallb_forall. split.
  - intros H. apply list_eq. intros j.
    destruct (decide (j < length s)%nat) as [Hj|Hj].
    + rewrite lookup_take_lt by done. rewrite lookup_drop.
      specialize (H j). rewrite in_seq in H. specialize (H ltac:(lia)).
      destruct (d !! (i + j)%nat), (s !! j); try done.
      apply Z.eqb_eq in H. by subst.
    + rewrite lookup_take_ge by lia. symmetry. apply lookup_ge_None. lia.
  - intros H j Hj. rewrite in_seq in Hj.
    destruct (lookup_lt_is_Some_2 s j ltac:(lia)) as [b Hb].
    assert (d !! (i + j)%nat = Some b) as ->.
    { rewrite <- lookup_drop. rewrite <- (lookup_take_lt _ (length s)) by lia.
      by rewrite H. }
    rewrite Hb. apply Z.eqb_refl.
Qed.

Lemma matches_at_occurs d s i :
  (i + length s ≤ length d)%nat →
  matches_at d s i = true ↔ occurs_at d s i.
Proof.
  intros. rewrite matches_at_spec, occurs_at_alt.
  split; [by split | by intros [_ ?]].
Qed.

Lemma occurs_at_length d s i : occurs_at d s i → (i + length s ≤ length d)%nat.
Proof. rewrite occurs_at_alt. tauto. Qed.

Lemma findSequence_loop_Some d s n i k :
  (i + n + length s ≤ S (length d))%nat →
  findSequence_loop d s n i = Some k ↔
  (i ≤ k < i + n)%nat ∧ occurs_at d s k ∧ ∀ j, (i ≤ j < k)%nat → ¬ occurs_at d s j.
Proof.
  revert i. induction n as [|n IH]; intros i Hr; simpl.
  - split; [done | lia].
  - destruct (matches_at d s i) eqn:Hm.
    + apply matches_at_occurs in Hm; [|lia]. split.
      * intros [= <-]. split; [lia|]. split; [done|]. lia.
      * intros (Hk & Ho & Hfirst). f_equal.
        destruct (decide (i = k)) as [|Hne]; [done|].
        exfalso. apply (Hfirst i); [lia | done].
    + assert (¬ occurs_at d s i) as Hno.
      { rewrite <- matches_at_occurs by lia. by rewrite Hm. }
      rewrite IH by lia. split.
      * intros (Hk & Ho & Hfirst). split; [lia|]. split; [done|].
        intros j Hj. destruct (decide (j = i)) as [->|]; [done|].
        apply Hfirst. lia.
      * intros (Hk & Ho & Hfirst).
        assert (i ≠ k) by (intros ->; done).
        split; [lia|]. split; [done|]. intros j Hj. apply Hfirst. lia.
Qed.

Lemma findSequence_loop_None d s n i :
  (i + n + length s ≤ S (length d))%nat →
  findSequence_loop d s n i = None ↔
  ∀ j, (i ≤ j < i + n)%nat → ¬ occurs_at d s j.
Proof.
  revert i. induction n as [|n IH]; intros i Hr; simpl.
  - split; [lia | done].
  - destruct (matches_at d s i) eqn:Hm.
    + apply matches_at_occurs in Hm; [|lia]. split; [done|].
      intros H. exfalso. apply (H i); [lia | done].
    + assert (¬ occurs_at d s i) as Hno.
      { rewrite <- matches_at_occurs by lia. by rewrite Hm. }
      rewrite IH by lia. split.
      * intros H j Hj. destruct (decide (j = i)) as [->|]; [done|].
        apply H. lia.
      * intros H j Hj. apply H. lia.
Qed.

(** [findSequence] returns the first index at or after [startPos] where the
    sequence occurs. *)
Lemma findSequence_Some d s p k :
  findSequence d s p = Some k ↔
  (p ≤ k)%nat ∧ occurs_at d s k ∧ ∀ j, (p ≤ j < k)%nat → ¬ occurs_at d s j.
Proof.
  unfold findSequence.
  destruct (decide (p + length s ≤ length d)%nat) as [Hle|Hgt].
  - rewrite findSequence_loop_Some by lia. split.
    + intros (? & ? & ?). split; [lia | done].
    + intros (? & Ho & ?). split; [|done].
      apply occurs_at_length in Ho. lia.
  - replace (S (length d) - length s - p)%nat with 0%nat by lia. simpl.
    split; [done|]. intros (? & Ho & ?).
    apply occurs_at_length in Ho. lia.
Qed.

Lemma findSequence_None d s p :
  findSequence d s p = None ↔ ∀ j, (p ≤ j)%nat → ¬ occurs_at d s j.
Proof.
  unfold findSequence.
  destruct (decide (p + length s ≤ length d)%nat) as [Hle|Hgt].
  - rewrite findSequence_loop_None by lia. split.
    + intros H j Hj Ho. apply (H j); [|done].
      apply occurs_at_length in Ho. lia.
    + intros H j Hj. apply H. lia.
  - replace (S (length d) - length s - p)%nat with 0%nat by lia. simpl.
    split; [|done]. intros _ j Hj Ho.
    apply occurs_at_length in Ho. lia.
Qed.

(** ** The loop: progress and termination *)

Lemma boundary_pattern_cons boundary :
  boundary_pattern boundary = DASH :: DASH :: TextEncoder_encode boundary.
Proof. reflexivity. Qed.

Lemma boundary_pattern_length boundary :
  (2 ≤ length (boundary_pattern boundary))%nat.
Proof. rewrite boundary_pattern_cons. simpl. lia. Qed.

Section Loop.
Variable ul : list Z → list Z.

Lemma skip_crlf_ge d pos : (pos ≤ skip_crlf d pos)%nat.
Proof. unfold skip_crlf. destruct (_ && _); lia. Qed.

Lemma loop_body_Next d bb pos parts pos' parts' :
  loop_body ul d bb pos parts = Next pos' parts' →
  (pos + length bb ≤ pos')%nat ∧ (pos' ≤ length d)%nat.
Proof.
  unfold loop_body, findBoundary.
  pose proof (skip_crlf_ge d pos).
  destruct (findSequence d bb (skip_crlf d pos)) as [next|] eqn:Hf; [|done].
  apply findSequence_Some in Hf as (Hle & Ho & _).
  apply occurs_at_length in Ho.
  destruct (is_terminal d (next + length bb)); [done|].
  intros [= <- _]. lia.
Qed.

Lemma loop_terminates fuel d bb pos parts :
  (0 < length bb)%nat → (length d - pos < fuel)%nat →
  is_Some (loop ul fuel d bb pos parts).
Proof.
  intros Hbb. revert pos parts.
  induction fuel as [|fuel IH]; intros pos parts Hfuel; [lia|]. simpl.
  destruct (pos <? length d)%nat eqn:Hlt; [|done].
  apply Nat.ltb_lt in Hlt.
  destruct (loop_body ul d bb pos parts) as [pos' parts'|parts'] eqn:Hb; [|done].
  apply loop_body_Next in Hb. apply IH. lia.
Qed.

Lemma loop_fuel_mono fuel fuel' d bb pos parts r :
  (fuel ≤ fuel')%nat →
  loop ul fuel d bb pos parts = Some r → loop ul fuel' d bb pos parts = Some r.
Proof.
  revert fuel' pos parts. induction fuel as [|fuel IH]; intros fuel' pos parts Hle; [done|].
  destruct fuel' as [|fuel']; [lia|]. simpl.
  destruct (pos <? length d)%nat; [|done].
  destruct (loop_body ul d bb pos parts); [|done].
  apply IH. lia.
Qed.

End Loop.

(** ** String functions and regular expressions *)

Lemma starts_with_spec p s : starts_with p s = true ↔ ∃ r, s = p ++ r.
Proof.
  revert s. induction p as [|a p IH]; intros s; simpl.
  - split; [by exists s | done].
  - destruct s as [|b s].
    + split; [done | by intros [r ?]].
    + rewrite andb_true_iff, Z.eqb_eq, IH. split.
      * intros [-> [r ->]]. by exists r.
      * intros [r [= -> ->]]. split; [done | by exists r].
Qed.

Lemma starts_with_app p r : starts_with p (p ++ r) = true.
Proof. apply starts_with_spec. by exists r. Qed.

Lemma includes_spec s sub :
  includes s sub = true ↔ ∃ pre post, s = pre ++ sub ++ post.
Proof.
  induction s as [|c s IH].
  - simpl. rewrite orb_false_r, starts_with_spec. split.
    + intros [r ->]. by exists [], r.
    + intros (pre & post & H). symmetry in H.
      apply app_eq_nil in H as [-> H]. exists post. done.
  - cbn [includes]. rewrite orb_true_iff, starts_with_spec, IH. split.
    + intros [[r ->] | (pre & post & ->)].
      * by exists [], r.
      * by exists (c :: pre), post.
    + intros (pre & post & H). destruct pre as [|c' pre].
      * left. by exists post.
      * right. injection H as -> ->. by exists pre, post.
Qed.

Lemma take_drop_while p s : take_while p s ++ drop_while p s = s.
Proof. induction s as [|c s IH]; simpl; [done|]. destruct (p c); simpl; by f_equal. Qed.

Lemma drop_length_take_while p s :
  drop (length (take_while p s)) s = drop_while p s.
Proof.
  rewrite <- (take_drop_while p s) at 2. by rewrite drop_app_length.
Qed.

Lemma take_while_Forall p s : Forall (λ c, p c = true) (take_while p s).
Proof.
  induction s as [|c s IH]; simpl; [constructor|].
  destruct (p c) eqn:Hc; by constructor.
Qed.

Lemma drop_while_head p s c r : drop_while p s = c :: r → p c = false.
Proof.
  induction s as [|d s IH]; simpl; [done|].
  destruct (p d) eqn:Hd; [done|]. by intros [= -> _].
Qed.

Lemma take_while_app p a b :
  Forall (λ c, p c = true) a → (∀ c r, b = c :: r → p c = false) →
  take_while p (a ++ b) = a.
Proof.
  intros Ha Hb. induction Ha as [|c a Hc Ha IH]; simpl.
  - destruct b as [|c r]; [done|]. simpl. by rewrite (Hb c r).
  - rewrite Hc. by f_equal.
Qed.

Lemma drop_while_app p a b :
  Forall (λ c, p c = true) a → (∀ c r, b = c :: r → p c = false) →
  drop_while p (a ++ b) = b.
Proof.
  intros Ha Hb. induction Ha as [|c a Hc Ha IH]; simpl.
  - destruct b as [|c r]; [done|]. simpl. by rewrite (Hb c r).
  - by rewrite Hc.
Qed.

Lemma indexOf_Some s c i :
  indexOf s c = Some i ↔
  ∃ pre post, s = pre ++ (c :: post) ∧ (c ∉ pre) ∧ length pre = i.
Proof.
  revert i. induction s as [|d s IH]; intros i; simpl.
  - split; [done|]. intros (pre & post & H & _). by destruct pre.
  - destruct (Z.eqb_spec d c) as [->|Hne].
    + split.
      * intros [= <-]. exists [], s. split; [done|]. split; [|done].
        apply not_elem_of_nil.
      * intros (pre & post & H & Hnot & <-). destruct pre as [|e pre]; [done|].
        injection H as -> _. exfalso. apply Hnot. left.
    + destruct (indexOf s c) as [k|] eqn:Hk; simpl.
      * split.
        -- intros [= <-]. destruct (proj1 (IH k) eq_refl) as (pre & post & -> & Hnot & <-).
           exists (d :: pre), post. split; [done|]. split; [|done].
           rewrite not_elem_of_cons. done.
        -- intros (pre & post & H & Hnot & <-). destruct pre as [|e pre].
           { injection H as -> _. done. }
           injection H as -> ->. f_equal. simpl. f_equal.
           apply not_elem_of_cons in Hnot as [_ Hnot].
           assert (Some k = Some (length pre)) as [= ->]; [|done].
           apply IH. by exists pre, post.
      * split; [done|]. intros (pre & post & H & Hnot & <-).
        destruct pre as [|e pre].
        { injection H as -> _. done. }
        injection H as -> ->. apply not_elem_of_cons in Hnot as [_ Hnot].
        assert (None = Some (length pre)) as [=]. apply IH. by exists pre, post.
Qed.

Lemma indexOf_None s c : indexOf s c = None ↔ c ∉ s.
Proof.
  induction s as [|d s IH]; simpl.
  - split; [intros _; apply not_elem_of_nil | done].
  - rewrite not_elem_of_cons. destruct (Z.eqb_spec d c) as [->|Hne].
    + split; [done | by intros [? _]].
    + destruct (indexOf s c); simpl.
      * split; [done|]. intros [_ H]. by apply IH in H.
      * split; [|done]. intros _. split; [done | by apply IH].
Qed.

(** [regex_search] finds the first index where the pattern succeeds. *)
Lemma regex_search_Some try_at s v :
  regex_search try_at s = Some v ↔
  ∃ k, (k ≤ length s)%nat ∧ try_at (drop k s) = Some v ∧
       ∀ j, (j < k)%nat → try_at (drop j s) = None.
Proof.
  induction s as [|c s IH]; simpl.
  - destruct (try_at []) as [w|] eqn:Hw.
    + split.
      * intros [= <-]. exists 0%nat. split; [done|]. split; [done | lia].
      * intros (k & Hk & Hv & _). rewrite drop_nil in Hv. congruence.
    + split; [done|]. intros (k & Hk & Hv & _). rewrite drop_nil in Hv. congruence.
  - destruct (try_at (c :: s)) as [w|] eqn:Hw.
    + split.
      * intros [= <-]. exists 0%nat. split; [lia|]. split; [done | lia].
      * intros (k & Hk & Hv & Hfirst). destruct k as [|k]; [simpl in Hv; congruence|].
        specialize (Hfirst 0%nat ltac:(lia)). simpl in Hfirst. congruence.
    + rewrite IH. split.
      * intros (k & Hk & Hv & Hfirst). exists (S k). split; [lia|]. split; [done|].
        intros [|j] Hj; [done|]. simpl. apply Hfirst. lia.
      * intros (k & Hk & Hv & Hfirst). destruct k as [|k]; [simpl in Hv; congruence|].
        exists k. split; [lia|]. split; [done|]. intros j Hj.
        apply (Hfirst (S j)). lia.
Qed.

Lemma regex_search_None try_at s :
  regex_search try_at s = None ↔ ∀ k, try_at (drop k s) = None.
Proof.
  induction s as [|c s IH]; simpl.
  - destruct (try_at []) as [w|] eqn:Hw.
    + split; [done|]. intros H. specialize (H 0%nat). simpl in H. congruence.
    + split; [|done]. intros _ k. by rewrite drop_nil.
  - destruct (try_at (c :: s)) as [w|] eqn:Hw.
    + split; [done|]. intros H. specialize (H 0%nat). simpl in H. congruence.
    + rewrite IH. split.
      * intros H [|k]; [done | apply H].
      * intros H k. apply (H (S k)).
Qed.

Lemma not_dquote_true c : not_dquote c = true ↔ c ≠ DQUOTE.
Proof. unfold not_dquote. rewrite negb_true_iff, Z.eqb_neq. done. Qed.

Lemma not_semicolon_true c : not_semicolon c = true ↔ c ≠ SEMICOLON.
Proof. unfold not_semicolon. rewrite negb_true_iff, Z.eqb_neq. done. Qed.

Lemma Forall_not_elem (x : Z) (l : list Z) : Forall (λ c, c ≠ x) l ↔ x ∉ l.
Proof.
  rewrite Forall_forall. split.
  - intros H Hin. by apply (H x).
  - intros H c Hc ->. done.
Qed.

(** The quoted-attribute pattern succeeds at the start of [s] exactly when
    [s] is [key], an equals sign, a quote, a non-empty run without quotes,
    and a quote. *)
Lemma quoted_regex_at_Some key s v :
  quoted_regex_at key s = Some v ↔
  ∃ rest, s = key ++ [61; DQUOTE] ++ v ++ (DQUOTE :: rest) ∧ v ≠ [] ∧ (DQUOTE ∉ v).
Proof.
  unfold quoted_regex_at.
  destruct (starts_with (key ++ [61; DQUOTE]) s) eqn:Hs.
  - apply starts_with_spec in Hs as [r ->].
    replace (length key + 2)%nat with (length (key ++ [61; DQUOTE]))
      by (rewrite length_app; simpl; lia).
    rewrite drop_app_length.
    pose proof (take_drop_while not_dquote r) as Htd.
    pose proof (take_while_Forall not_dquote r) as Hall.
    rewrite drop_length_take_while.
    destruct (take_while not_dquote r) as [|c w] eqn:Hw.
    + split; [done|]. intros (rest & H & Hne & Hnot).
      rewrite <- app_assoc in H. apply app_inv_head in H.
      simpl in H. injection H as H.
      rewrite H in Hw. destruct v as [|c v]; [done|].
      apply not_elem_of_cons in Hnot as [Hc _].
      simpl in Hw. assert (not_dquote c = true) as Hc' by (apply not_dquote_true; done).
      rewrite Hc' in Hw. done.
    + destruct (starts_with [DQUOTE] (drop_while not_dquote r)) eqn:Hq.
      * apply starts_with_spec in Hq as [rest Hrest].
        assert (DQUOTE ∉ c :: w) as Hnot.
        { apply Forall_not_elem. eapply Forall_impl; [exact Hall|].
          intros x. by rewrite not_dquote_true. }
        split.
        -- intros [= <-]. exists rest. split; [|done].
           rewrite <- Htd, Hrest. by rewrite <- !app_assoc.
        -- intros (rest' & H & Hne & Hnot').
           rewrite <- app_assoc in H. apply app_inv_head in H.
           simpl in H. injection H as H. f_equal.
           rewrite <- Hw. rewrite H. apply take_while_app.
           ++ apply Forall_not_elem in Hnot'. eapply Forall_impl; [exact Hnot'|].
              intros x. by rewrite not_dquote_true.
           ++ intros c' r' [= <- _]. done.
      * split; [done|]. intros (rest & H & Hne & Hnot).
        rewrite <- app_assoc in H. apply app_inv_head in H.
        simpl in H. injection H as H.
        assert (drop_while not_dquote r = DQUOTE :: rest) as Hd.
        { rewrite H. apply drop_while_app.
          - apply Forall_not_elem in Hnot. eapply Forall_impl; [exact Hnot|].
            intros x. by rewrite not_dquote_true.
          - intros c' r' [= <- _]. done. }
        rewrite Hd in Hq. simpl in Hq. done.
  - split; [done|]. intros (rest & -> & _).
    rewrite app_assoc in Hs. rewrite starts_with_app in Hs. done.
Qed.

(** ** The boundary parameter *)

Lemma ci_starts_with_spec p s :
  ci_starts_with p s = true ↔
  ∃ kw r, s = kw ++ r ∧ ascii_upper <$> kw = ascii_upper <$> p.
Proof.
  revert s. induction p as [|a p IH]; intros s; simpl.
  - split; [by exists [], s | done].
  - destruct s as [|b s].
    + split; [done|]. intros (kw & r & H & Hkw). by destruct kw.
    + unfold ci_eq at 1. rewrite andb_true_iff, Z.eqb_eq, IH. split.
      * intros [Hab (kw & r & -> & Hkw)]. exists (b :: kw), r.
        split; [done|]. rewrite !fmap_cons. by rewrite Hkw, Hab.
      * intros (kw & r & H & Hkw). destruct kw as [|c kw]; [done|].
        injection H as -> ->. rewrite !fmap_cons in Hkw.
        injection Hkw as Hc Hkw.
        split; [done|]. by exists kw, r.
Qed.

Lemma upper_boundary_eq : ascii_upper <$> str "boundary=" = BOUNDARY_EQ.
Proof. reflexivity. Qed.

(** The boundary pattern succeeds at the start of [s] exactly when [s] is
    the keyword in any letter case, then a non-empty run without semicolon
    that ends at a semicolon or at the end of the string. *)
Lemma boundary_regex_at_Some s v :
  boundary_regex_at s = Some v ↔
  ∃ kw rest, s = kw ++ v ++ rest ∧ ascii_upper <$> kw = BOUNDARY_EQ ∧
             v ≠ [] ∧ (SEMICOLON ∉ v) ∧ (∀ c r, rest = c :: r → c = SEMICOLON).
Proof.
  unfold boundary_regex_at.
  destruct (ci_starts_with (str "boundary=") s) eqn:Hs.
  - apply ci_starts_with_spec in Hs as (kw & r & -> & Hkw).
    rewrite upper_boundary_eq in Hkw.
    assert (length kw = 9%nat) as Hlen.
    { apply (f_equal length) in Hkw. by rewrite length_fmap in Hkw. }
    rewrite <- Hlen, drop_app_length.
    pose proof (take_drop_while not_semicolon r) as Htd.
    pose proof (take_while_Forall not_semicolon r) as Hall.
    assert (∀ c r', drop_while not_semicolon r = c :: r' → c = SEMICOLON) as Hhead.
    { intros c r' Hd. apply drop_while_head in Hd.
      unfold not_semicolon in Hd. apply negb_false_iff in Hd.
      by apply Z.eqb_eq in Hd. }
    assert (∀ kw' v' rest',
      kw ++ r = kw' ++ v' ++ rest' → ascii_upper <$> kw' = BOUNDARY_EQ →
      (SEMICOLON ∉ v') → (∀ c r, rest' = c :: r → c = SEMICOLON) →
      take_while not_semicolon r = v') as Huniq.
    { intros kw' v' rest' H Hkw' Hnot Hrest.
      assert (length kw' = 9%nat) as Hlen'.
      { apply (f_equal length) in Hkw'. by rewrite length_fmap in Hkw'. }
      apply app_inj_1 in H as [-> ->]; [|lia].
      apply take_while_app.
      - apply Forall_not_elem in Hnot. eapply Forall_impl; [exact Hnot|].
        intros x. by rewrite not_semicolon_true.
      - intros c r0 Hr0. apply Hrest in Hr0 as ->. done. }
    destruct (take_while not_semicolon r) as [|c w] eqn:Hw.
    + split; [done|]. intros (kw' & rest & H & Hkw' & Hne & Hnot & Hrest).
      symmetry in Hw. by rewrite (Huniq _ _ _ H Hkw' Hnot Hrest) in Hne.
    + split.
      * intros [= <-]. exists kw, (drop_while not_semicolon r).
        split; [by rewrite Htd|]. split; [done|]. split; [done|].
        split; [|done]. apply Forall_not_elem. eapply Forall_impl; [exact Hall|].
        intros x. by rewrite not_semicolon_true.
      * intros (kw' & rest & H & Hkw' & Hne & Hnot & Hrest).
        by rewrite (Huniq _ _ _ H Hkw' Hnot Hrest).
  - split; [done|]. intros (kw & rest & -> & Hkw & _).
    assert (ci_starts_with (str "boundary=") (kw ++ v ++ rest) = true) as Ht.
    { apply ci_starts_with_spec. exists kw, (v ++ rest). by rewrite upper_boundary_eq. }
    congruence.
Qed.

(** It fails exactly when [s] does not begin with the keyword followed by a
    code unit other than a semicolon. *)
Lemma boundary_regex_at_None s :
  boundary_regex_at s = None ↔
  ¬ ∃ kw c post, s = kw ++ c :: post ∧ ascii_upper <$> kw = BOUNDARY_EQ ∧
                 c ≠ SEMICOLON.
Proof.
  split.
  - intros Hnone (kw & c & post & -> & Hkw & Hc).
    assert (is_Some (boundary_regex_at (kw ++ c :: post))) as [v Hv];
      [|congruence].
    pose proof (take_drop_while not_semicolon (c :: post)) as Htd.
    exists (take_while not_semicolon (c :: post)).
    apply boundary_regex_at_Some.
    exists kw, (drop_while not_semicolon (c :: post)).
    split; [by rewrite Htd|]. split; [done|]. split.
    { simpl. apply not_semicolon_true in Hc. by rewrite Hc. }
    split.
    + apply Forall_not_elem.
      eapply Forall_impl; [apply take_while_Forall|].
      intros x. by rewrite not_semicolon_true.
    + intros d r Hd. apply drop_while_head in Hd.
      unfold not_semicolon in Hd. apply negb_false_iff in Hd.
      by apply Z.eqb_eq in Hd.
  - intros Hno. destruct (boundary_regex_at s) as [v|] eqn:Hv; [|done].
    exfalso. apply Hno.
    apply boundary_regex_at_Some in Hv as (kw & rest & -> & Hkw & Hne & Hnot & _).
    destruct v as [|c v]; [done|]. exists kw, c, (v ++ rest).
    split; [done|]. split; [done|].
    apply not_elem_of_cons in Hnot as [Hc _]. done.
Qed.

(** ** Trimming and quote removal *)

Lemma drop_while_white_head s c r :
  drop_while is_white_space s = c :: r → ¬ white c.
Proof. intros H%drop_while_head. unfold white. by rewrite H. Qed.

Lemma trim_trimmed s : trimmed s (trim s).
Proof.
  unfold trim, trim_end, trim_start.
  set (s1 := drop_while is_white_space s).
  set (t := drop_while is_white_space (reverse s1)).
  exists (take_while is_white_space s),
         (reverse (take_while is_white_space (reverse s1))).
  split.
  { rewrite <- reverse_app. unfold t. rewrite take_drop_while.
    rewrite reverse_involutive. unfold s1. by rewrite take_drop_while. }
  split; [apply take_while_Forall|].
  split; [apply Forall_reverse, take_while_Forall|].
  split.
  - intros c r Hm.
    assert (∃ r', s1 = c :: r') as [r' Hs1].
    { pose proof (take_drop_while is_white_space (reverse s1)) as Htd.
      fold t in Htd. apply (f_equal reverse) in Htd.
      rewrite reverse_app, reverse_involutive, Hm in Htd.
      exists (r ++ reverse (take_while is_white_space (reverse s1))).
      symmetry. exact Htd. }
    by apply drop_while_white_head in Hs1.
  - intros r c Hm. apply (f_equal reverse) in Hm.
    rewrite reverse_involutive, reverse_app in Hm. simpl in Hm.
    by apply drop_while_white_head in Hm.
Qed.

Lemma drop_while_all p s :
  Forall (λ c, p c = true) s → drop_while p s = [].
Proof. induction 1 as [|c s Hc _ IH]; simpl; [done|]. by rewrite Hc. Qed.

Lemma trimmed_unique s m : trimmed s m → trim s = m.
Proof.
  intros (a & b & -> & Ha & Hb & Hhead & Hlast).
  unfold trim, trim_end, trim_start.
  destruct m as [|c m].
  - simpl. rewrite (drop_while_all _ (a ++ b)); [done|].
    apply Forall_app. done.
  - rewrite (drop_while_app _ a); [|done|].
    2:{ intros c' r' [= <- _]. specialize (Hhead c m eq_refl).
        unfold white in Hhead. by destruct (is_white_space c). }
    rewrite reverse_app.
    rewrite (drop_while_app _ (reverse b)); [by rewrite reverse_involutive| |].
    + by apply Forall_reverse.
    + intros c' r' Hr. apply (f_equal reverse) in Hr.
      rewrite reverse_involutive, reverse_cons in Hr.
      specialize (Hlast _ _ Hr). unfold white in Hlast.
      by destruct (is_white_space c').
Qed.

Lemma strip_last_quote_cons c d r :
  strip_last_quote (c :: d :: r) = c :: strip_last_quote (d :: r).
Proof.
  unfold strip_last_quote. rewrite (reverse_cons _ c).
  destruct (reverse (d :: r)) as [|x y] eqn:Hr.
  - apply (f_equal length) in Hr. rewrite length_reverse in Hr. done.
  - simpl. destruct (is_quote x); [|done].
    by rewrite reverse_app.
Qed.

Lemma replace_edge_quotes_false s :
  replace_edge_quotes false s = strip_last_quote s.
Proof.
  induction s as [|c [|d r] IH]; [done| |].
  - simpl. unfold strip_last_quote. simpl. rewrite andb_true_r.
    by destruct (is_quote c).
  - rewrite strip_last_quote_cons, <- IH.
    change (replace_edge_quotes false (c :: d :: r))
      with (if is_quote c && (false || false)
            then replace_edge_quotes false (d :: r)
            else c :: replace_edge_quotes false (d :: r)).
    simpl. by rewrite andb_false_r.
Qed.

(** The global replacement removes one quote at the front and one at the
    back. *)
Lemma replace_edge_quotes_spec s :
  replace_edge_quotes true s = strip_last_quote (strip_first_quote s).
Proof.
  destruct s as [|c r]; [done|].
  cbn [replace_edge_quotes strip_first_quote]. rewrite orb_true_l, andb_true_r.
  destruct (is_quote c) eqn:Hc; [apply replace_edge_quotes_false|].
  destruct r as [|d r].
  - simpl. unfold strip_last_quote. simpl. by rewrite Hc.
  - rewrite strip_last_quote_cons. f_equal. apply replace_edge_quotes_false.
Qed.

(** ** The Content-Type header of the request *)

Lemma drop_eq_app (h x : list Z) k :
  (k ≤ length h)%nat →
  drop k h = x ↔ ∃ pre, h = pre ++ x ∧ length pre = k.
Proof.
  intros Hk. split.
  - intros <-. exists (take k h). split; [by rewrite take_drop|].
    rewrite length_take. lia.
  - intros (pre & -> & <-). by rewrite drop_app_length.
Qed.

Lemma boundary_regex_at_is_Some s :
  is_Some (boundary_regex_at s) ↔
  ∃ kw c post, s = kw ++ c :: post ∧ ascii_upper <$> kw = BOUNDARY_EQ ∧
               c ≠ SEMICOLON.
Proof.
  split.
  - intros [v Hv].
    apply boundary_regex_at_Some in Hv as (kw & rest & -> & Hkw & Hne & Hnot & _).
    destruct v as [|c v]; [done|]. exists kw, c, (v ++ rest).
    split; [done|]. split; [done|].
    apply not_elem_of_cons in Hnot as [Hc _]. done.
  - intros Hex. destruct (boundary_regex_at s) eqn:Hs; [done|].
    by apply boundary_regex_at_None in Hs.
Qed.

Lemma boundary_param_at_iff h i :
  boundary_param_at h i ↔ is_Some (boundary_regex_at (drop i h)).
Proof.
  rewrite boundary_regex_at_is_Some. split.
  - intros (pre & kw & c & post & -> & <- & Hkw & Hc).
    exists kw, c, post. by rewrite drop_app_length.
  - intros (kw & c & post & Hd & Hkw & Hc).
    destruct (decide (i ≤ length h)%nat) as [Hi|Hi].
    + apply drop_eq_app in Hd as (pre & -> & <-); [|done].
      by exists pre, kw, c, post.
    + rewrite drop_ge in Hd by lia. by destruct kw.
Qed.

(** The search for the boundary parameter fails exactly on a header without
    one. *)
Lemma match_boundary_None h :
  match_boundary h = None ↔ ¬ has_boundary_param h.
Proof.
  unfold match_boundary. rewrite regex_search_None. split.
  - intros Hnone [i Hi]. apply boundary_param_at_iff in Hi.
    rewrite Hnone in Hi. by destruct Hi.
  - intros Hno k. destruct (boundary_regex_at (drop k h)) eqn:Hk; [|done].
    exfalso. apply Hno. exists k. apply boundary_param_at_iff. by rewrite Hk.
Qed.

(** It returns the value of the first boundary parameter. *)
Lemma match_boundary_Some h v :
  match_boundary h = Some v ↔ boundary_param_value h v.
Proof.
  unfold match_boundary. rewrite regex_search_Some. split.
  - intros (k & Hk & Hv & Hfirst).
    apply boundary_regex_at_Some in Hv as (kw & rest & Hd & Hkw & Hne & Hnot & Hrest).
    apply drop_eq_app in Hd as (pre & -> & <-); [|done].
    exists pre, kw, rest. repeat (split; [done|]).
    intros j Hj Hat. apply boundary_param_at_iff in Hat.
    rewrite (Hfirst j Hj) in Hat. by destruct Hat.
  - intros (pre & kw & rest & -> & Hkw & Hne & Hnot & Hrest & Hfirst).
    exists (length pre). split; [rewrite length_app; lia|]. split.
    + rewrite drop_app_length. apply boundary_regex_at_Some.
      by exists kw, rest.
    + intros j Hj.
      destruct (boundary_regex_at (drop j (pre ++ kw ++ v ++ rest))) eqn:Hat; [|done].
      exfalso. apply (Hfirst j Hj). apply boundary_param_at_iff. by rewrite Hat.
Qed.

Lemma includes_contains s sub : includes s sub = true ↔ contains s sub.
Proof. apply includes_spec. Qed.

Section ContentType.
Variable ul : list Z → list Z.

Local Arguments match_boundary : simpl never.
Local Arguments includes : simpl never.

Lemma parseMultipartParts_is_Some d boundary :
  is_Some (parseMultipartParts ul d boundary).
Proof.
  unfold parseMultipartParts, parseMultipartParts_fuel.
  destruct (findBoundary d (boundary_pattern boundary) 0) as [p|]; [|done].
  apply loop_terminates.
  - pose proof (boundary_pattern_length boundary). lia.
  - lia.
Qed.

Lemma extract_boundary_content_type h :
  extract_boundary h = inl MSG_CONTENT_TYPE ↔
  h = None ∨ ∃ s, h = Some s ∧ ¬ contains s (str "multipart/form-data").
Proof.
  unfold extract_boundary. destruct h as [[|c s]|]; simpl.
  - split; [|done]. intros _. right. exists []. split; [done|].
    unfold contains. intros (pre & post & H). by destruct pre.
  - destruct (includes (c :: s) (str "multipart/form-data")) eqn:Hi; simpl.
    + apply includes_contains in Hi.
      destruct (match_boundary (c :: s)); (split; [intros ?; discriminate|]).
      * intros [|(s' & [= <-] & Hno)]; done.
      * intros [|(s' & [= <-] & Hno)]; done.
    + split; [|done]. intros _. right. exists (c :: s). split; [done|].
      rewrite <- includes_contains. by rewrite Hi.
  - split; [|done]. by left.
Qed.

Lemma extract_boundary_no_boundary h :
  extract_boundary h = inl MSG_BOUNDARY ↔
  ∃ s, h = Some s ∧ contains s (str "multipart/form-data") ∧
       ¬ has_boundary_param s.
Proof.
  unfold extract_boundary. destruct h as [[|c s]|]; simpl.
  - split; [done|]. intros (s & [= <-] & (pre & post & H) & _). by destruct pre.
  - destruct (includes (c :: s) (str "multipart/form-data")) eqn:Hi; simpl.
    + apply includes_contains in Hi.
      destruct (match_boundary (c :: s)) as [v|] eqn:Hm.
      * split; [done|]. intros (s' & [= <-] & _ & Hno).
        apply match_boundary_None in Hno. congruence.
      * split; [|done]. intros _. exists (c :: s).
        split; [done|]. split; [done|]. by apply match_boundary_None.
    + split; [done|]. intros (s' & [= <-] & Hc & _).
      apply includes_contains in Hc. congruence.
  - split; [done|]. by intros (s & [=] & _).
Qed.

Lemma extract_boundary_value h v :
  contains h (str "multipart/form-data") → boundary_param_value h v →
  extract_boundary (Some h) =
    inr (strip_last_quote (strip_first_quote (trim v))).
Proof.
  intros Hc Hv. unfold extract_boundary.
  assert (h ≠ []) as Hne.
  { intros ->. destruct Hc as (pre & post & H). by destruct pre. }
  destruct h as [|c s]; [done|]. simpl.
  apply includes_contains in Hc. rewrite Hc. simpl.
  apply match_boundary_Some in Hv. rewrite Hv.
  by rewrite replace_edge_quotes_spec.
Qed.

End ContentType.

(** ** Termination, missing boundary, and the two errors *)

(** C9.  [parseMultipartParts] terminates on every byte array and every
    boundary string: the run with one unit of fuel per byte (and one more)
    returns, more fuel returns the same parts, and an iteration of the loop
    that does not leave it moves the cursor forward by at least the length
    of the boundary pattern, which is at least two, without passing the end
    of the array. *)
Theorem parseMultipartParts_terminates (ul : list Z → list Z)
    (uint8Array boundary : list Z) :
  (∃ parts, parseMultipartParts ul uint8Array boundary = Some parts ∧
            ∀ fuel, (length uint8Array < fuel)%nat →
                    parseMultipartParts_fuel ul fuel uint8Array boundary = Some parts) ∧
  (∀ position parts position' parts',
     loop_body ul uint8Array (boundary_pattern boundary) position parts
       = Next position' parts' →
     (position + length (boundary_pattern boundary) ≤ position')%nat ∧
     (position' ≤ length uint8Array)%nat) ∧
  (2 ≤ length (boundary_pattern boundary))%nat.
Proof.
  split; [|split].
  - destruct (parseMultipartParts_is_Some ul uint8Array boundary) as [parts Hp].
    exists parts. split; [done|]. intros fuel Hfuel.
    unfold parseMultipartParts, parseMultipartParts_fuel in *.
    destruct (findBoundary uint8Array (boundary_pattern boundary) 0); [|done].
    eapply loop_fuel_mono; [|exact Hp]. lia.
  - intros position parts position' parts'. apply loop_body_Next.
  - apply boundary_pattern_length.
Qed.

(** C6.  If the pattern made of two dashes and the boundary occurs nowhere
    in the body, the parts are the empty sequence, and the form built from
    them is empty: nothing is thrown. *)
Theorem no_boundary_in_body (ul : list Z → list Z) (uint8Array boundary : list Z) :
  (∀ i, ¬ occurs_at uint8Array (boundary_pattern boundary) i) →
  parseMultipartParts ul uint8Array boundary = Some [] ∧
  ∀ header, extract_boundary header = inr boundary →
            parseMultipartFormData ul (mkRequest header uint8Array)
              = Some (Returns []).
Proof.
  intros Hno.
  assert (parseMultipartParts ul uint8Array boundary = Some []) as Hp.
  { unfold parseMultipartParts, parseMultipartParts_fuel, findBoundary.
    assert (findSequence uint8Array (boundary_pattern boundary) 0 = None) as ->; [|done].
    apply findSequence_None. intros j _. apply Hno. }
  split; [done|]. intros header Hh.
  unfold parseMultipartFormData. simpl. by rewrite Hh, Hp.
Qed.

(** C6 on the body [hello] with boundary [X]. *)
Lemma no_boundary_in_body_witness :
  parseMultipartParts (λ s, s) (str "hello") (str "X") = Some [] ∧
  ∀ header, extract_boundary header = inr (str "X") →
            parseMultipartFormData (λ s, s) (mkRequest header (str "hello"))
              = Some (Returns []).
Proof.
  apply (no_boundary_in_body (λ s, s) (str "hello") (str "X")).
  intros i. apply (proj1 (findSequence_None _ _ 0%nat)); [vm_compute; reflexivity | lia].
Defined.

Lemma parseMultipartFormData_Throws ul request message :
  parseMultipartFormData ul request = Some (Throws message) ↔
  extract_boundary (content_type_header request) = inl message.
Proof.
  unfold parseMultipartFormData.
  destruct (extract_boundary (content_type_header request)) as [m|b].
  - split; intros [= ->]; done.
  - destruct (parseMultipartParts_is_Some ul (body request) b) as [parts ->].
    split; intros [=].
Qed.

Lemma extract_boundary_messages header message :
  extract_boundary header = inl message →
  message = MSG_CONTENT_TYPE ∨ message = MSG_BOUNDARY.
Proof.
  unfold extract_boundary.
  destruct (truthy header) as [h|]; [|intros [= <-]; by left].
  destruct (negb _); [intros [= <-]; by left|].
  destruct (match_boundary h); [done|]. intros [= <-]. by right.
Qed.

(** C2.  [parseMultipartFormData] throws in two cases and in no other: with
    the first message when the Content-Type header is absent or does not
    contain multipart/form-data, with the second when the header contains it
    but has no boundary parameter (the keyword boundary=, in any letter
    case, followed by a value, that is by a code unit other than a
    semicolon).  Otherwise it returns the form of the parts parsed with the
    value of the first boundary parameter, trimmed and without one quote at
    the front and one at the back. *)
Theorem parseMultipartFormData_errors (ul : list Z → list Z) (request : Request) :
  (parseMultipartFormData ul request = Some (Throws MSG_CONTENT_TYPE) ↔
     content_type_header request = None ∨
     ∃ h, content_type_header request = Some h ∧
          ¬ contains h (str "multipart/form-data")) ∧
  (parseMultipartFormData ul request = Some (Throws MSG_BOUNDARY) ↔
     ∃ h, content_type_header request = Some h ∧
          contains h (str "multipart/form-data") ∧ ¬ has_boundary_param h) ∧
  (∀ message, parseMultipartFormData ul request = Some (Throws message) →
     message = MSG_CONTENT_TYPE ∨ message = MSG_BOUNDARY) ∧
  (∀ h, content_type_header request = Some h →
        contains h (str "multipart/form-data") → has_boundary_param h →
     ∃ v b parts,
       boundary_param_value h v ∧ trimmed v b ∧
       parseMultipartParts ul (body request)
         (strip_last_quote (strip_first_quote b)) = Some parts ∧
       parseMultipartFormData ul request
         = Some (Returns (foldl append_part [] parts))) ∧
  (∀ h v v', boundary_param_value h v → boundary_param_value h v' → v' = v) ∧
  is_Some (parseMultipartFormData ul request).
Proof.
  split; [|split; [|split; [|split; [|split]]]].
  - rewrite parseMultipartFormData_Throws. apply extract_boundary_content_type.
  - rewrite parseMultipartFormData_Throws. apply extract_boundary_no_boundary.
  - intros message Hm. apply parseMultipartFormData_Throws in Hm.
    by apply extract_boundary_messages in Hm.
  - intros h Hh Hc Hb.
    destruct (match_boundary h) as [v|] eqn:Hv.
    2:{ by apply match_boundary_None in Hv. }
    apply match_boundary_Some in Hv.
    destruct (parseMultipartParts_is_Some ul (body request)
                (strip_last_quote (strip_first_quote (trim v)))) as [parts Hp].
    exists v, (trim v), parts. split; [done|].
    split; [apply trim_trimmed|]. split; [done|].
    unfold parseMultipartFormData.
    rewrite Hh, (extract_boundary_value h v Hc Hv). by rewrite Hp.
  - intros h v v' Hv Hv'.
    apply match_boundary_Some in Hv, Hv'. congruence.
  - unfold parseMultipartFormData.
    destruct (extract_boundary (content_type_header request)) as [m|b]; [done|].
    by destruct (parseMultipartParts_is_Some ul (body request) b) as [parts ->].
Qed.

(** The two errors on the headers that the specification names, and a header
    whose boundary parameter has no value. *)
Example text_plain_is_rejected :
  parseMultipartFormData no_case_mapping (mkRequest (Some (str "text/plain")) [])
  = Some (Throws MSG_CONTENT_TYPE).
Proof. reflexivity. Qed.

Example missing_boundary_is_rejected :
  parseMultipartFormData no_case_mapping
    (mkRequest (Some (str "multipart/form-data")) [])
  = Some (Throws MSG_BOUNDARY).
Proof. reflexivity. Qed.

Example empty_boundary_is_rejected :
  parseMultipartFormData no_case_mapping
    (mkRequest (Some (str "multipart/form-data; boundary=")) [])
  = Some (Throws MSG_BOUNDARY).
Proof. reflexivity. Qed.

(** A boundary between double quotes, with the keyword in upper case and
    white space before the next parameter, is the boundary without them. *)
Example quoted_boundary_is_unquoted :
  extract_boundary
    (Some (str "multipart/form-data; BOUNDARY=" ++ quoted (str "B")
           ++ str " ; charset=utf-8"))
  = inr (str "B").
Proof. reflexivity. Qed.

(** ** Part blocks *)

Lemma findSequence_first d s i :
  findSequence d s 0 = Some i ↔ first_occurrence d s i.
Proof.
  rewrite findSequence_Some. unfold first_occurrence. split.
  - intros (_ & Ho & Hf). split; [done|]. intros j Hj. apply Hf. lia.
  - intros (Ho & Hf). split; [lia|]. split; [done|]. intros j Hj. apply Hf. lia.
Qed.

Lemma at_is_true d i v : at_is d i v = true ↔ d !! i = Some v.
Proof.
  unfold at_is. destruct (d !! i) as [b|]; [|done].
  rewrite Z.eqb_eq. split; [by intros -> | by intros [= ->]].
Qed.

Lemma slice_0 d n : slice d 0 n = take n d.
Proof. unfold slice. by rewrite Nat.sub_0_r. Qed.

(** The bytes kept by [parsePart] are the payload. *)
Lemma content_end_payload contentBytes :
  payload_of contentBytes (slice contentBytes 0 (content_end contentBytes)).
Proof.
  rewrite slice_0. unfold content_end, payload_of.
  destruct ((2 <=? length contentBytes)%nat
            && at_is contentBytes (length contentBytes - 2) CR
            && at_is contentBytes (length contentBytes - 1) LF) eqn:Hc.
  - left. apply andb_true_iff in Hc as [Hc H2]. apply andb_true_iff in Hc as [Hl H1].
    apply Nat.leb_le in Hl. apply at_is_true in H1, H2.
    exists (take (length contentBytes - 2) contentBytes). split; [|done].
    rewrite <- (take_drop (length contentBytes - 2) contentBytes) at 1. f_equal.
    apply list_eq. intros j. rewrite lookup_drop.
    destruct j as [|[|j]]; simpl.
    + by rewrite Nat.add_0_r.
    + by replace (length contentBytes - 2 + 1)%nat with (length contentBytes - 1)%nat by lia.
    + apply lookup_ge_None. lia.
  - right. split.
    + intros [q Hq]. rewrite Hq in Hc. rewrite length_app in Hc.
      change (length CRLF) with 2%nat in Hc.
      assert (at_is (q ++ CRLF) (length q + 2 - 2) CR = true) as H1.
      { apply at_is_true. rewrite lookup_app_r by lia.
        by replace (length q + 2 - 2 - length q)%nat with 0%nat by lia. }
      assert (at_is (q ++ CRLF) (length q + 2 - 1) LF = true) as H2.
      { apply at_is_true. rewrite lookup_app_r by lia.
        by replace (length q + 2 - 1 - length q)%nat with 1%nat by lia. }
      rewrite H1, H2 in Hc.
      assert ((2 <=? length q + 2)%nat = true) as Hl by (apply Nat.leb_le; lia).
      by rewrite Hl in Hc.
    + by rewrite take_ge.
Qed.

Lemma quoted_regex_at_is_Some key s :
  is_Some (quoted_regex_at key s) ↔
  ∃ v rest, s = key ++ [61; DQUOTE] ++ v ++ DQUOTE :: rest ∧ v ≠ [] ∧ (DQUOTE ∉ v).
Proof.
  split.
  - intros [v Hv]. apply quoted_regex_at_Some in Hv as (rest & ? & ? & ?).
    by exists v, rest.
  - intros (v & rest & ? & ? & ?). exists v. apply quoted_regex_at_Some.
    by exists rest.
Qed.

Lemma quoted_attr_at_iff key cd j v :
  quoted_attr_at key cd j v ↔
  (j ≤ length cd)%nat ∧ quoted_regex_at key (drop j cd) = Some v.
Proof.
  rewrite quoted_regex_at_Some. split.
  - intros (pre & post & -> & <- & Hne & Hnot). split.
    + rewrite length_app. lia.
    + exists post. by rewrite drop_app_length.
  - intros (Hj & rest & Hd & Hne & Hnot).
    apply drop_eq_app in Hd as (pre & -> & <-); [|done]. by exists pre, rest.
Qed.

Lemma quoted_regex_at_nil key : quoted_regex_at key [] = None.
Proof.
  destruct (quoted_regex_at key []) as [v|] eqn:Hv; [|done].
  apply quoted_regex_at_Some in Hv as (rest & H & _). by destruct key.
Qed.

(** The search for a quoted attribute fails exactly when the attribute is not
    there. *)
Lemma match_quoted_None key cd :
  match_quoted key cd = None ↔ ¬ has_quoted_attr key cd.
Proof.
  unfold match_quoted. rewrite regex_search_None. split.
  - intros Hnone (j & v & Hat). apply quoted_attr_at_iff in Hat as [_ Hat].
    congruence.
  - intros Hno k. destruct (quoted_regex_at key (drop k cd)) as [v|] eqn:Hk; [|done].
    exfalso. apply Hno. exists k, v. apply quoted_attr_at_iff. split; [|done].
    destruct (decide (k ≤ length cd)%nat) as [|Hgt]; [done|].
    rewrite drop_ge, quoted_regex_at_nil in Hk by lia. done.
Qed.

(** It returns the value of the leftmost occurrence of the attribute. *)
Lemma match_quoted_Some key cd v :
  match_quoted key cd = Some v ↔
  ∃ j, quoted_attr_at key cd j v ∧
       ∀ j' v', (j' < j)%nat → ¬ quoted_attr_at key cd j' v'.
Proof.
  unfold match_quoted. rewrite regex_search_Some. split.
  - intros (k & Hk & Hv & Hfirst). exists k. split.
    + by apply quoted_attr_at_iff.
    + intros j' v' Hj' Hat. apply quoted_attr_at_iff in Hat as [_ Hat].
      rewrite (Hfirst j' Hj') in Hat. done.
  - intros (j & Hat & Hfirst). apply quoted_attr_at_iff in Hat as [Hj Hat].
    exists j. split; [done|]. split; [done|]. intros j' Hj'.
    destruct (quoted_regex_at key (drop j' cd)) as [w|] eqn:Hw; [|done].
    exfalso. apply (Hfirst j' w Hj'). apply quoted_attr_at_iff. split; [lia | done].
Qed.

Section PartLemmas.
Variable ul : list Z → list Z.

Local Arguments match_quoted : simpl never.
Local Arguments parseHeaders : simpl never.
Local Arguments TextDecoder_decode : simpl never.
Local Arguments str : simpl never.

(** What [parsePart] returns, read off its definition. *)
Lemma parsePart_Some block p :
  parsePart ul block = Some p ↔
  ∃ i cd, first_occurrence block CRLFCRLF i ∧
    let headers := parseHeaders ul (TextDecoder_decode (take i block)) in
    headers !! str "content-disposition" = Some cd ∧ cd ≠ [] ∧
    p = {| name := default [] (match_quoted (str "name") cd);
           filename := match_quoted (str "filename") cd;
           contentType := truthy (headers !! str "content-type");
           data := slice (drop (i + 4) block) 0 (content_end (drop (i + 4) block)) |}.
Proof.
  unfold parsePart, slice_from.
  destruct (findSequence block CRLFCRLF 0) as [i|] eqn:Hf.
  - rewrite slice_0.
    destruct (parseHeaders ul (TextDecoder_decode (take i block)) !! str "content-disposition")
      as [[|c cd]|] eqn:Hcd; cbn [truthy].
    + split; [done|]. intros (i' & cd & Hi' & Hl & Hne & _).
      apply findSequence_first in Hi'. assert (i' = i) as -> by congruence.
      cbv zeta in Hl. congruence.
    + split.
      * intros [= <-]. exists i, (c :: cd). split; [by apply findSequence_first|].
        cbv zeta. done.
      * intros (i' & cd' & Hi' & Hl & Hne & ->).
        apply findSequence_first in Hi'. assert (i' = i) as -> by congruence.
        cbv zeta in Hl. assert (cd' = c :: cd) as -> by congruence. done.
    + split; [done|]. intros (i' & cd & Hi' & Hl & Hne & _).
      apply findSequence_first in Hi'. assert (i' = i) as -> by congruence.
      cbv zeta in Hl. congruence.
  - split; [done|]. intros (i & cd & Hi & _).
    apply findSequence_first in Hi. congruence.
Qed.



(** One iteration of the loop, given the next boundary. *)
Lemma loop_body_found d bb position parts next :
  findBoundary d bb (skip_crlf d position) = Some next →
  loop_body ul d bb position parts =
    let parts' :=
      match parsePart ul (slice d (skip_crlf d position) next) with
      | Some part => parts ++ [part]
      | None => parts
      end in
    if is_terminal d (next + length bb) then Break parts'
    else Next (next + length bb) parts'.
Proof. intros Hf. unfold loop_body. by rewrite Hf. Qed.

Lemma loop_step fuel d bb position parts next :
  (position < length d)%nat →
  findBoundary d bb (skip_crlf d position) = Some next →
  loop ul (S fuel) d bb position parts =
    let parts' :=
      match parsePart ul (slice d (skip_crlf d position) next) with
      | Some part => parts ++ [part]
      | None => parts
      end in
    if is_terminal d (next + length bb) then Some parts'
    else loop ul fuel d bb (next + length bb) parts'.
Proof.
  intros Hlt Hf. cbn [loop]. apply Nat.ltb_lt in Hlt. rewrite Hlt.
  rewrite (loop_body_found _ _ _ _ _ Hf). cbv zeta.
  by destruct (is_terminal d (next + length bb)).
Qed.

End PartLemmas.

(** ** Payloads, malformed blocks, missing names, empty file names *)












(** A part with an empty quoted file name through the whole function: the
    field [f] of the form is the string abc. *)
Example empty_filename_form :
  parseMultipartFormData no_case_mapping
    (mkRequest (Some (str "multipart/form-data; boundary=B")) empty_filename_body)
  = Some (Returns [(str "f", StringValue (str "abc"))]).
Proof. vm_compute. reflexivity. Qed.

(** ** Header blocks *)

Lemma starts_with_LF_false r :
  (∀ c r', r = c :: r' → c ≠ LF) → starts_with [LF] r = false.
Proof.
  intros H. destruct r as [|c r']; [done|]. cbn [starts_with].
  destruct (Z.eqb_spec LF c) as [<-|]; [by specialize (H LF r' eq_refl) | done].
Qed.

Lemma split_lines_acc_last cur l :
  LF ∉ l → split_lines_acc cur l = [reverse cur ++ l].
Proof.
  revert cur. induction l as [|c l IH]; intros cur Hno.
  - simpl. by rewrite app_nil_r.
  - apply not_elem_of_cons in Hno as [Hc Hl].
    cbn [split_lines_acc]. apply Z.eqb_neq in Hc. rewrite Z.eqb_sym in Hc.
    rewrite Hc.
    rewrite (starts_with_LF_false l), andb_false_r.
    + rewrite IH by done. rewrite reverse_cons, <- app_assoc. done.
    + intros d r' -> ->. apply Hl. left.
Qed.

Lemma split_lines_acc_crlf cur l rest :
  LF ∉ l →
  split_lines_acc cur (l ++ CR :: LF :: rest)
  = (reverse cur ++ l) :: split_lines rest.
Proof.
  revert cur. induction l as [|c l IH]; intros cur Hno.
  - simpl. by rewrite app_nil_r.
  - apply not_elem_of_cons in Hno as [Hc Hl].
    rewrite <- app_comm_cons. cbn [split_lines_acc].
    apply Z.eqb_neq in Hc. rewrite Z.eqb_sym in Hc. rewrite Hc.
    rewrite (starts_with_LF_false (l ++ _)), andb_false_r.
    + rewrite IH by done. rewrite reverse_cons, <- app_assoc. done.
    + intros d r' Hd ->. destruct l as [|e l]; [done|].
      injection Hd as -> _. apply Hl. left.
Qed.

Lemma split_lines_acc_lf cur l rest :
  LF ∉ l → (∀ l', l ≠ l' ++ [CR]) →
  split_lines_acc cur (l ++ LF :: rest)
  = (reverse cur ++ l) :: split_lines rest.
Proof.
  revert cur. induction l as [|c l IH]; intros cur Hno Hcr.
  - simpl. by rewrite app_nil_r.
  - apply not_elem_of_cons in Hno as [Hc Hl].
    rewrite <- app_comm_cons. cbn [split_lines_acc].
    apply Z.eqb_neq in Hc. rewrite Z.eqb_sym in Hc. rewrite Hc.
    destruct (Z.eqb_spec c CR) as [->|Hne]; cbn [andb].
    + destruct l as [|e l]; [by specialize (Hcr [])|].
      rewrite (starts_with_LF_false ((e :: l) ++ _)).
      * rewrite IH; [by rewrite reverse_cons, <- app_assoc | done |].
        intros l' Hl'. apply (Hcr (CR :: l')). by rewrite Hl'.
      * intros d r' [= <- _] ->. apply Hl. left.
    + rewrite IH; [by rewrite reverse_cons, <- app_assoc | done |].
      intros l' Hl'. apply (Hcr (c :: l')). by rewrite Hl'.
Qed.

(** The lines of a text: the three equations that determine [split_lines]. *)
Lemma split_lines_last l : LF ∉ l → split_lines l = [l].
Proof. apply split_lines_acc_last. Qed.

Lemma split_lines_crlf l rest :
  LF ∉ l → split_lines (l ++ CRLF ++ rest) = l :: split_lines rest.
Proof. apply split_lines_acc_crlf. Qed.

Lemma split_lines_lf l rest :
  LF ∉ l → (∀ l', l ≠ l' ++ [CR]) →
  split_lines (l ++ LF :: rest) = l :: split_lines rest.
Proof. apply split_lines_acc_lf. Qed.

Section Headers.
Variable ul : list Z → list Z.

Local Arguments str : simpl never.

Lemma parseHeaders_line_entry headers line k v :
  header_line_entry ul line k v →
  parseHeaders_line ul headers line = set_property headers k v.
Proof.
  intros (pre & post & -> & Hnot & Hne & -> & ->).
  unfold parseHeaders_line.
  assert (indexOf (pre ++ COLON :: post) COLON = Some (length pre)) as ->.
  { apply indexOf_Some. by exists pre, post. }
  assert ((0 <? length pre)%nat = true) as ->.
  { apply Nat.ltb_lt. destruct pre; [done | simpl; lia]. }
  rewrite slice_0, take_app_length. unfold slice_from.
  assert (drop (length pre + 1) (pre ++ COLON :: post) = post) as ->; [|done].
  rewrite drop_app_ge by lia.
  by replace (length pre + 1 - length pre)%nat with 1%nat by lia.
Qed.

Lemma parseHeaders_line_no_entry headers line :
  (∀ k v, ¬ header_line_entry ul line k v) →
  parseHeaders_line ul headers line = headers.
Proof.
  intros Hno. unfold parseHeaders_line.
  destruct (indexOf line COLON) as [i|] eqn:Hi; [|done].
  destruct (0 <? i)%nat eqn:Hpos; [|done]. exfalso.
  apply indexOf_Some in Hi as (pre & post & -> & Hnot & <-).
  apply Nat.ltb_lt in Hpos.
  apply (Hno (toLowerCase ul (trim pre)) (trim post)).
  exists pre, post. repeat (split; [done|]). split; [|done].
  intros ->. simpl in Hpos. lia.
Qed.

Lemma header_line_entry_fun line k v k' v' :
  header_line_entry ul line k v → header_line_entry ul line k' v' →
  k' = k ∧ v' = v.
Proof.
  intros (pre & post & -> & Hnot & Hne & -> & ->)
         (pre' & post' & H & Hnot' & Hne' & -> & ->).
  assert (Some (length pre) = Some (length pre')) as [= Hlen].
  { rewrite <- (proj2 (indexOf_Some (pre ++ COLON :: post) COLON (length pre)))
      by (by exists pre, post).
    apply indexOf_Some. by exists pre', post'. }
  apply app_inj_1 in H as [-> [= ->]]; done.
Qed.

Lemma set_property_lookup_ne headers k k' v :
  k ≠ k' → set_property headers k' v !! k = headers !! k.
Proof.
  intros Hne. unfold set_property. destruct (list_eqb _ _); [done|].
  by rewrite lookup_insert_ne.
Qed.

Lemma set_property_lookup headers k v :
  k ≠ str "__proto__" → set_property headers k v !! k = Some v.
Proof.
  intros Hne. unfold set_property, list_eqb.
  rewrite bool_decide_eq_false_2 by done. by rewrite lookup_insert_eq.
Qed.

Lemma set_property_proto headers v :
  set_property headers (str "__proto__") v = headers.
Proof. unfold set_property, list_eqb. by rewrite bool_decide_eq_true_2. Qed.

Lemma parseHeaders_fold_other lines headers k :
  (∀ l v, l ∈ lines → ¬ header_line_entry ul l k v) →
  foldl (parseHeaders_line ul) headers lines !! k = headers !! k.
Proof.
  revert headers. induction lines as [|l lines IH]; intros headers Hno; [done|].
  simpl. rewrite IH.
  2:{ intros l' v Hl'. apply Hno. by right. }
  destruct (indexOf l COLON) as [i|] eqn:Hi.
  2:{ unfold parseHeaders_line. by rewrite Hi. }
  destruct (0 <? i)%nat eqn:Hpos.
  2:{ unfold parseHeaders_line. by rewrite Hi, Hpos. }
  apply indexOf_Some in Hi as (pre & post & -> & Hnot & <-).
  apply Nat.ltb_lt in Hpos.
  assert (header_line_entry ul (pre ++ COLON :: post)
            (toLowerCase ul (trim pre)) (trim post)) as He.
  { exists pre, post. repeat (split; [done|]). split; [|done].
    intros ->. simpl in Hpos. lia. }
  rewrite (parseHeaders_line_entry _ _ _ _ He).
  apply set_property_lookup_ne. intros ->.
  apply (Hno _ _ ltac:(left) He).
Qed.

(** The header block as a map: a key other than [__proto__] is bound to the
    value of the last line that has it, and is not bound if no line has it. *)
Lemma parseHeaders_last_wins headerText k :
  k ≠ str "__proto__" →
  (∀ lines1 line lines2 v,
     split_lines headerText = lines1 ++ line :: lines2 →
     header_line_entry ul line k v →
     (∀ l v', l ∈ lines2 → ¬ header_line_entry ul l k v') →
     parseHeaders ul headerText !! k = Some v) ∧
  ((∀ l v, l ∈ split_lines headerText → ¬ header_line_entry ul l k v) →
   parseHeaders ul headerText !! k = None).
Proof.
  intros Hk. unfold parseHeaders. split.
  - intros lines1 line lines2 v -> He Hlast.
    rewrite foldl_app. cbn [foldl].
    rewrite parseHeaders_fold_other by done.
    rewrite (parseHeaders_line_entry _ _ _ _ He).
    by apply set_property_lookup.
  - intros Hno. by rewrite parseHeaders_fold_other.
Qed.

(** C8, at the header line [__proto__: x].  The line has its first colon at
    index 9, its key is [__proto__] and its value [x], but the object that
    [parseHeaders] returns has no entry for it: the assignment reaches the
    setter of [Object.prototype], which ignores a string. *)
Theorem proto_header_line_is_lost :
  indexOf (str "__proto__: x") COLON = Some 9%nat ∧
  header_line_entry ul (str "__proto__: x") (str "__proto__") (str "x") ∧
  parseHeaders ul (str "__proto__: x") !! str "__proto__" = None ∧
  parseHeaders ul (str "__proto__: x") = ∅.
Proof.
  split; [reflexivity|]. split.
  - exists (str "__proto__"), (str " x"). split; [reflexivity|].
    split; [|split; [done|split; reflexivity]].
    vm_compute. intros H. repeat (apply elem_of_cons in H as [H|H]; [discriminate H|]).
    by apply elem_of_nil in H.
  - split; vm_compute; reflexivity.
Qed.

End Headers.

(** ** UTF-16 and UTF-8 *)

Ltac zbool :=
  repeat match goal with
  | H : _ && _ = true |- _ => apply andb_true_iff in H as [? ?]
  | H : _ && _ = false |- _ => apply andb_false_iff in H
  | H : (_ <=? _) = true |- _ => apply Z.leb_le in H
  | H : (_ <=? _) = false |- _ => apply Z.leb_gt in H
  | H : (_ <? _) = true |- _ => apply Z.ltb_lt in H
  | H : (_ <? _) = false |- _ => apply Z.ltb_ge in H
  | H : (_ =? _) = true |- _ => apply Z.eqb_eq in H
  | H : (_ =? _) = false |- _ => apply Z.eqb_neq in H
  end.

Lemma surrogate_cases c :
  is_surrogate c = false →
  is_lead_surrogate c = false ∧ is_trail_surrogate c = false.
Proof.
  unfold is_surrogate, is_lead_surrogate, is_trail_surrogate. intros H.
  split; apply andb_false_iff; zbool; lia.
Qed.

Lemma to_scalar_values_app a b :
  well_formed_utf16 a →
  to_scalar_values (a ++ b) = to_scalar_values a ++ to_scalar_values b.
Proof.
  induction 1 as [|c s Hc Hs _ IH|c d s Hc Hd _ IH]; [done| |].
  - destruct (surrogate_cases c Hs) as [Hl Ht].
    rewrite <- app_comm_cons. cbn [to_scalar_values]. rewrite Hl, Ht.
    by rewrite IH.
  - rewrite <- !app_comm_cons. cbn [to_scalar_values]. rewrite Hc, Hd.
    by rewrite IH.
Qed.

Lemma to_scalar_values_scalar s :
  well_formed_utf16 s → Forall is_scalar_value (to_scalar_values s).
Proof.
  induction 1 as [|c s Hc Hs _ IH|c d s Hc Hd _ IH]; [constructor| |].
  - destruct (surrogate_cases c Hs) as [Hl Ht].
    cbn [to_scalar_values]. rewrite Hl, Ht. constructor; [|done].
    unfold is_surrogate in Hs. unfold is_scalar_value. zbool. lia.
  - cbn [to_scalar_values]. rewrite Hc, Hd. constructor; [|done].
    unfold is_lead_surrogate, is_trail_surrogate in *. unfold is_scalar_value.
    zbool. lia.
Qed.

Lemma from_to_scalar_values s :
  well_formed_utf16 s → concat (from_scalar_value <$> to_scalar_values s) = s.
Proof.
  induction 1 as [|c s Hc Hs _ IH|c d s Hc Hd _ IH]; [done| |].
  - destruct (surrogate_cases c Hs) as [Hl Ht].
    cbn [to_scalar_values]. rewrite Hl, Ht. rewrite fmap_cons. cbn [concat].
    rewrite IH. unfold from_scalar_value.
    assert ((c <? 65536) = true) as -> by (apply Z.ltb_lt; lia). done.
  - cbn [to_scalar_values]. rewrite Hc, Hd. rewrite fmap_cons. cbn [concat].
    rewrite IH. unfold from_scalar_value.
    unfold is_lead_surrogate, is_trail_surrogate in *. zbool.
    assert ((65536 + (c - 55296) * 1024 + (d - 56320) <? 65536) = false) as ->
      by (apply Z.ltb_ge; lia).
    cbn [app]. f_equal; [|f_equal].
    + replace (65536 + (c - 55296) * 1024 + (d - 56320) - 65536)
        with ((d - 56320) + (c - 55296) * 1024) by lia.
      rewrite Z.div_add by lia. rewrite Z.div_small by lia. lia.
    + replace (65536 + (c - 55296) * 1024 + (d - 56320) - 65536)
        with ((d - 56320) + (c - 55296) * 1024) by lia.
      rewrite Z.mod_add by lia. rewrite Z.mod_small by lia. lia.
Qed.

Ltac euclid := Z.to_euclidean_division_equations; lia.

Ltac decide_test :=
  match goal with
  | |- context [?a <=? ?b] =>
      first [ replace (a <=? b) with true by (symmetry; apply Z.leb_le; euclid)
            | replace (a <=? b) with false by (symmetry; apply Z.leb_gt; euclid) ]
  | |- context [?a <? ?b] =>
      first [ replace (a <? b) with true by (symmetry; apply Z.ltb_lt; euclid)
            | replace (a <? b) with false by (symmetry; apply Z.ltb_ge; euclid) ]
  | |- context [?a =? ?b] =>
      first [ replace (a =? b) with true by (symmetry; apply Z.eqb_eq; euclid)
            | replace (a =? b) with false by (symmetry; apply Z.eqb_neq; euclid) ]
  end.

Ltac decide_tests := repeat (decide_test; cbn [andb orb negb]).

(** The decoder reads back the bytes that the encoder writes for a scalar
    value, and is in its initial state again. *)
Lemma utf8_decode_encode_scalar c rest :
  is_scalar_value c →
  utf8_decode_from utf8_initial (utf8_encode_scalar c ++ rest)
  = c :: utf8_decode_from utf8_initial rest.
Proof.
  intros Hc. unfold is_scalar_value in Hc. unfold utf8_encode_scalar.
  destruct (Z.ltb_spec c 128) as [H1|H1];
    [|destruct (Z.ltb_spec c 2048) as [H2|H2];
      [|destruct (Z.ltb_spec c 65536) as [H3|H3]]].
  - cbn [app utf8_decode_from utf8_initial u_needed]. unfold utf8_lead.
    decide_tests. reflexivity.
  - cbn [app utf8_decode_from utf8_initial u_needed]. unfold utf8_lead.
    decide_tests.
    cbn [utf8_decode_from u_needed u_lower u_upper u_code_point app].
    decide_tests. f_equal. euclid.
  - cbn [app utf8_decode_from utf8_initial u_needed]. unfold utf8_lead.
    decide_tests.
    cbn [utf8_decode_from u_needed u_lower u_upper u_code_point app].
    destruct (Z.eqb_spec (224 + c / 4096) 224) as [E1|E1];
      destruct (Z.eqb_spec (224 + c / 4096) 237) as [E2|E2];
      decide_tests;
      cbn [utf8_decode_from u_needed u_lower u_upper u_code_point app];
      decide_tests; f_equal; euclid.
  - cbn [app utf8_decode_from utf8_initial u_needed]. unfold utf8_lead.
    decide_tests.
    cbn [utf8_decode_from u_needed u_lower u_upper u_code_point app].
    destruct (Z.eqb_spec (240 + c / 262144) 240) as [E1|E1];
      destruct (Z.eqb_spec (240 + c / 262144) 244) as [E2|E2];
      decide_tests;
      cbn [utf8_decode_from u_needed u_lower u_upper u_code_point app];
      decide_tests;
      cbn [utf8_decode_from u_needed u_lower u_upper u_code_point app];
      decide_tests; f_equal; euclid.
Qed.

(** ** UTF-8 on ASCII text *)

Lemma is_ascii_range c : is_ascii c = true ↔ 0 ≤ c < 128.
Proof. unfold is_ascii. rewrite andb_true_iff, Z.leb_le, Z.ltb_lt. done. Qed.

Lemma to_scalar_values_ascii s : ascii_text s → to_scalar_values s = s.
Proof.
  induction 1 as [|c s Hc _ IH]; [done|]. apply is_ascii_range in Hc.
  cbn [to_scalar_values]. unfold is_lead_surrogate, is_trail_surrogate.
  assert ((55296 <=? c) = false) as -> by (apply Z.leb_gt; lia).
  assert ((56320 <=? c) = false) as -> by (apply Z.leb_gt; lia).
  cbn [andb]. by rewrite IH.
Qed.

Lemma utf8_encode_scalars_ascii s :
  ascii_text s → concat (utf8_encode_scalar <$> s) = s.
Proof.
  induction 1 as [|c s Hc _ IH]; [done|]. apply is_ascii_range in Hc.
  rewrite fmap_cons. cbn [concat]. rewrite IH. unfold utf8_encode_scalar.
  assert ((c <? 128) = true) as -> by (apply Z.ltb_lt; lia). done.
Qed.

Lemma TextEncoder_encode_ascii s : ascii_text s → TextEncoder_encode s = s.
Proof.
  intros H. unfold TextEncoder_encode.
  rewrite to_scalar_values_ascii by done. by apply utf8_encode_scalars_ascii.
Qed.

Lemma utf8_decode_ascii bs :
  ascii_text bs → utf8_decode_from utf8_initial bs = bs.
Proof.
  induction 1 as [|c s Hc _ IH]; [done|]. apply is_ascii_range in Hc.
  cbn [utf8_decode_from utf8_initial u_needed]. unfold utf8_lead.
  assert ((0 <=? c) = true) as -> by (apply Z.leb_le; lia).
  assert ((c <=? 127) = true) as -> by (apply Z.leb_le; lia).
  cbn [andb]. fold utf8_initial. by rewrite IH.
Qed.

Lemma from_scalar_values_ascii s :
  ascii_text s → concat (from_scalar_value <$> s) = s.
Proof.
  induction 1 as [|c s Hc _ IH]; [done|]. apply is_ascii_range in Hc.
  rewrite fmap_cons. cbn [concat]. rewrite IH. unfold from_scalar_value.
  assert ((c <? 65536) = true) as -> by (apply Z.ltb_lt; lia). done.
Qed.

Lemma TextDecoder_decode_ascii bs : ascii_text bs → TextDecoder_decode bs = bs.
Proof.
  intros H. unfold TextDecoder_decode. rewrite utf8_decode_ascii by done.
  assert (strip_bom bs = bs) as ->.
  { destruct H as [|c s Hc _]; [done|]. apply is_ascii_range in Hc.
    cbn [strip_bom]. assert ((c =? 65279) = false) as -> by (apply Z.eqb_neq; lia).
    done. }
  by apply from_scalar_values_ascii.
Qed.

Lemma ascii_text_app a b : ascii_text (a ++ b) ↔ ascii_text a ∧ ascii_text b.
Proof. apply Forall_app. Qed.

Lemma ascii_text_str_dec s :
  forallb is_ascii s = true → ascii_text s.
Proof. intros H. apply Forall_forall. intros c Hc. rewrite forallb_forall in H. apply H. by apply list_elem_of_In. Qed.

(** ** The regular expressions on an encoded Content-Disposition *)

Lemma regex_search_skip try_at pre rest :
  (∀ j, (j < length pre)%nat → try_at (drop j (pre ++ rest)) = None) →
  regex_search try_at (pre ++ rest) = regex_search try_at rest.
Proof.
  induction pre as [|c pre IH]; intros Hno; [done|].
  pose proof (Hno 0%nat ltac:(simpl; lia)) as H0. simpl in H0.
  simpl. rewrite H0.
  apply IH. intros j Hj. apply (Hno (S j)). simpl. lia.
Qed.

Lemma regex_search_here try_at s v :
  try_at s = Some v → regex_search try_at s = Some v.
Proof. intros H. destruct s; simpl; by rewrite H. Qed.

Lemma first_quote_split (a b x y : list Z) :
  DQUOTE ∉ a → DQUOTE ∉ b → a ++ DQUOTE :: x = b ++ DQUOTE :: y →
  a = b ∧ x = y.
Proof.
  revert b. induction a as [|c a IH]; intros b Ha Hb H.
  - destruct b as [|d b]; [by injection H as ->|].
    injection H as <- _. exfalso. apply Hb. left.
  - destruct b as [|d b].
    + injection H as -> _. exfalso. apply Ha. left.
    + injection H as -> H. apply not_elem_of_cons in Ha as [_ Ha].
      apply not_elem_of_cons in Hb as [_ Hb].
      destruct (IH b Ha Hb H) as [-> ->]. done.
Qed.

(** A match that begins inside a value without quotes begins at [key=], at
    the very end of the value. *)
Lemma quoted_regex_in_value key n x k v :
  DQUOTE ∉ n → DQUOTE ∉ key → (k ≤ length n)%nat →
  quoted_regex_at key (drop k (n ++ DQUOTE :: x)) = Some v →
  drop k n = key ++ [61] ∧ ∃ rest, x = v ++ DQUOTE :: rest ∧ v ≠ [].
Proof.
  intros Hn Hkey Hk Hv. rewrite drop_app_le in Hv by done.
  apply quoted_regex_at_Some in Hv as (rest & H & Hne & Hnot).
  replace (key ++ [61; DQUOTE] ++ v ++ DQUOTE :: rest)
    with ((key ++ [61]) ++ DQUOTE :: v ++ DQUOTE :: rest) in H
    by (by rewrite <- app_assoc).
  apply first_quote_split in H as [H1 H2].
  - split; [done|]. by exists rest.
  - intros Hin. apply Hn. rewrite <- (take_drop k n).
    apply elem_of_app. by right.
  - intros Hin. apply elem_of_app in Hin as [Hin|Hin]; [done|].
    apply list_elem_of_singleton in Hin. done.
Qed.

Lemma disposition_value_shape p :
  disposition_value p = NAME_OPEN ++ name p ++ DQUOTE :: filename_tail p.
Proof.
  unfold disposition_value, NAME_OPEN, quoted, filename_tail.
  rewrite <- !app_assoc. done.
Qed.

Lemma no_quote_in_name_key : DQUOTE ∉ str "name".
Proof. vm_compute. intros H. repeat (apply elem_of_cons in H as [H|H]; [discriminate H|]). by apply elem_of_nil in H. Qed.

Lemma no_quote_in_filename_key : DQUOTE ∉ str "filename".
Proof. vm_compute. intros H. repeat (apply elem_of_cons in H as [H|H]; [discriminate H|]). by apply elem_of_nil in H. Qed.

Lemma match_name_encoded p :
  DQUOTE ∉ name p → (name p = [] → filename p = None) →
  default [] (match_quoted (str "name") (disposition_value p)) = name p.
Proof.
  intros Hq Hempty. destruct (name p) as [|c n] eqn:Hn.
  - unfold disposition_value. rewrite Hn, (Hempty eq_refl). reflexivity.
  - rewrite disposition_value_shape, Hn. unfold match_quoted.
    change NAME_OPEN with (str "form-data; " ++ str "name=" ++ [DQUOTE]).
    rewrite <- app_assoc. rewrite regex_search_skip.
    + rewrite (regex_search_here _ _ (c :: n)); [done|].
      apply quoted_regex_at_Some. exists (filename_tail p).
      split; [|done]. rewrite <- !app_assoc. reflexivity.
    + intros j Hj. change (length (str "form-data; ")) with 11%nat in Hj.
      do 11 (destruct j as [|j]; [reflexivity|]). lia.
Qed.

Lemma match_filename_encoded p :
  DQUOTE ∉ name p →
  match filename p with
  | Some f => f ≠ [] ∧ (DQUOTE ∉ f) ∧ ¬ (∃ n, name p = n ++ str "filename=")
  | None => True
  end →
  match_quoted (str "filename") (disposition_value p) = filename p.
Proof.
  intros Hq Hf. rewrite disposition_value_shape. unfold match_quoted.
  rewrite regex_search_skip.
  2:{ intros j Hj. change (length NAME_OPEN) with 17%nat in Hj.
      do 17 (destruct j as [|j]; [reflexivity|]). lia. }
  assert (∀ j, (j < length (name p))%nat →
            quoted_regex_at (str "filename")
              (drop j (name p ++ DQUOTE :: filename_tail p)) = None) as Hvalue.
  { intros j Hj.
    destruct (quoted_regex_at (str "filename")
                (drop j (name p ++ DQUOTE :: filename_tail p))) as [v|] eqn:Hv; [|done].
    exfalso.
    apply quoted_regex_in_value in Hv as (Hd & rest & Hx & Hne);
      [|done|apply no_quote_in_filename_key|lia].
    unfold filename_tail in Hx. destruct (filename p) as [f|].
    - destruct Hf as (_ & _ & Hsuffix). apply Hsuffix.
      exists (take j (name p)). rewrite <- (take_drop j (name p)) at 1.
      by rewrite Hd.
    - by destruct v. }
  rewrite regex_search_skip by done.
  unfold filename_tail. destruct (filename p) as [f|].
  - destruct Hf as (Hne & Hnot & _).
    change (DQUOTE :: str "; filename=" ++ quoted f)
      with ([DQUOTE; 59; 32] ++ str "filename" ++ [61; DQUOTE] ++ f ++ DQUOTE :: []).
    rewrite regex_search_skip.
    + apply regex_search_here. apply quoted_regex_at_Some. by exists [].
    + intros j Hj. change (length [DQUOTE; 59; 32]) with 3%nat in Hj.
      do 3 (destruct j as [|j]; [reflexivity|]). lia.
  - reflexivity.
Qed.

(** ** Encoding and decoding back *)

Lemma utf8_decode_encode cs rest :
  Forall is_scalar_value cs →
  utf8_decode_from utf8_initial (concat (utf8_encode_scalar <$> cs) ++ rest)
  = cs ++ utf8_decode_from utf8_initial rest.
Proof.
  induction 1 as [|c cs Hc _ IH]; [done|].
  rewrite fmap_cons. cbn [concat]. rewrite <- app_assoc.
  rewrite utf8_decode_encode_scalar by done. by rewrite IH.
Qed.

Lemma to_scalar_values_head c r :
  well_formed_utf16 (c :: r) → c ≠ 65279 →
  strip_bom (to_scalar_values (c :: r)) = to_scalar_values (c :: r).
Proof.
  intros Hwf Hc. inversion Hwf as [|c' s Hr Hs Hwf'|c' d s Hl Ht Hwf']; subst.
  - destruct (surrogate_cases c Hs) as [Hl Ht].
    cbn [to_scalar_values]. rewrite Hl, Ht. cbn [strip_bom].
    by rewrite (proj2 (Z.eqb_neq c 65279) Hc).
  - cbn [to_scalar_values]. rewrite Hl, Ht. cbn [strip_bom].
    unfold is_lead_surrogate, is_trail_surrogate in *. zbool.
    assert ((65536 + (c - 55296) * 1024 + (d - 56320) =? 65279) = false) as ->
      by (apply Z.eqb_neq; lia).
    done.
Qed.

(** Decoding the UTF-8 encoding of a string without lone surrogate gives
    the string back, unless it begins with U+FEFF, which is removed. *)
Lemma TextDecoder_TextEncoder s :
  well_formed_utf16 s → (∀ r, s ≠ 65279 :: r) →
  TextDecoder_decode (TextEncoder_encode s) = s.
Proof.
  intros Hwf Hbom. unfold TextDecoder_decode, TextEncoder_encode.
  pose proof (utf8_decode_encode (to_scalar_values s) []
                (to_scalar_values_scalar s Hwf)) as H.
  rewrite !app_nil_r in H. rewrite H.
  destruct s as [|c r]; [done|].
  rewrite to_scalar_values_head; [by apply from_to_scalar_values | done |].
  intros ->. by apply (Hbom r).
Qed.

Lemma TextEncoder_encode_app a b :
  well_formed_utf16 a →
  TextEncoder_encode (a ++ b) = TextEncoder_encode a ++ TextEncoder_encode b.
Proof.
  intros Hwf. unfold TextEncoder_encode.
  by rewrite to_scalar_values_app, fmap_app, concat_app.
Qed.

Lemma well_formed_ascii s : ascii_text s → well_formed_utf16 s.
Proof.
  induction 1 as [|c s Hc _ IH]; [constructor|].
  apply is_ascii_range in Hc. apply wf_unit; [lia| |done].
  unfold is_surrogate. apply andb_false_iff. left. apply Z.leb_gt. lia.
Qed.

Lemma well_formed_app a b :
  well_formed_utf16 a → well_formed_utf16 b → well_formed_utf16 (a ++ b).
Proof.
  induction 1 as [|c s Hc Hs _ IH|c d s Hc Hd _ IH]; intros Hb; [done| |].
  - rewrite <- app_comm_cons. apply wf_unit; [done..|by apply IH].
  - rewrite <- !app_comm_cons. apply wf_pair; [done..|by apply IH].
Qed.

Lemma utf8_encode_scalar_small x c :
  x < 128 → x ∈ utf8_encode_scalar c → x = c.
Proof.
  intros Hx. unfold utf8_encode_scalar.
  destruct (Z.ltb_spec c 128) as [H1|H1];
    [|destruct (Z.ltb_spec c 2048) as [H2|H2];
      [|destruct (Z.ltb_spec c 65536) as [H3|H3]]];
    intros Hin;
    repeat (apply elem_of_cons in Hin as [Hin|Hin]; [try done; exfalso; euclid|]);
    by apply elem_of_nil in Hin.
Qed.

Lemma to_scalar_values_small x s :
  x < 128 → x ∈ to_scalar_values s → x ∈ s.
Proof.
  intros Hx. remember (length s) as n eqn:Hn. revert s Hn.
  induction n as [n IH] using lt_wf_ind. intros s -> Hin.
  destruct s as [|c r]; [done|]. cbn [to_scalar_values] in Hin.
  destruct (is_lead_surrogate c) eqn:Hl.
  - destruct r as [|d r'].
    + apply list_elem_of_singleton in Hin. unfold REPLACEMENT in Hin. lia.
    + destruct (is_trail_surrogate d) eqn:Ht.
      * apply elem_of_cons in Hin as [Hin|Hin].
        { unfold is_lead_surrogate, is_trail_surrogate in *. zbool. lia. }
        right. right. apply (IH (length r')); [simpl; lia | done | done].
      * apply elem_of_cons in Hin as [Hin|Hin].
        { unfold REPLACEMENT in Hin. lia. }
        right. apply (IH (length (d :: r'))); [simpl; lia | done | done].
  - destruct (is_trail_surrogate c) eqn:Ht.
    + apply elem_of_cons in Hin as [Hin|Hin].
      { unfold REPLACEMENT in Hin. lia. }
      right. apply (IH (length r)); [simpl; lia | done | done].
    + apply elem_of_cons in Hin as [->|Hin]; [left|].
      right. apply (IH (length r)); [simpl; lia | done | done].
Qed.

Lemma utf8_encode_scalars_small x cs :
  x < 128 → x ∈ concat (utf8_encode_scalar <$> cs) → x ∈ cs.
Proof.
  intros Hx. induction cs as [|c cs IH]; [done|].
  rewrite fmap_cons. cbn [concat]. intros [Hin|Hin]%elem_of_app.
  - apply utf8_encode_scalar_small in Hin as ->; [left | done].
  - right. by apply IH.
Qed.

(** A byte below 128 in the encoding of a string is a code unit of the
    string. *)
Lemma TextEncoder_encode_small x s :
  x < 128 → x ∈ TextEncoder_encode s → x ∈ s.
Proof.
  intros Hx Hin. unfold TextEncoder_encode in Hin.
  apply utf8_encode_scalars_small in Hin; [|done].
  by apply to_scalar_values_small.
Qed.

(** ** The header block that the encoder writes *)

Ltac not_in_literal :=
  vm_compute; let H := fresh in intros H;
  repeat (apply elem_of_cons in H as [H|H]; [discriminate H|]);
  by apply elem_of_nil in H.

Lemma not_elem_of_app_2 (x : Z) (a b : list Z) : x ∉ a → x ∉ b → x ∉ a ++ b.
Proof. intros Ha Hb Hin. apply elem_of_app in Hin as [|]; done. Qed.

Ltac wf_literal := apply well_formed_ascii, ascii_text_str_dec; reflexivity.

Section Encoded.
Variable ul : list Z → list Z.

Lemma filename_tail_props p :
  encodable_headers p →
  (LF ∉ filename_tail p) ∧ well_formed_utf16 (filename_tail p).
Proof.
  intros (_ & _ & _ & Hfile & _).
  unfold filename_tail. destruct (filename p) as [f|].
  - destruct Hfile as (Ha & _ & _ & Hlf & _). split.
    + unfold quoted. apply not_elem_of_app_2; [not_in_literal|].
      apply not_elem_of_app_2; [not_in_literal|].
      apply not_elem_of_app_2; [done | not_in_literal].
    + unfold quoted. apply well_formed_app; [wf_literal|].
      apply well_formed_app; [wf_literal|].
      apply well_formed_app; [done | wf_literal].
  - split; [apply not_elem_of_nil | constructor].
Qed.

Lemma disposition_value_props p :
  encodable_headers p →
  (LF ∉ disposition_value p) ∧ well_formed_utf16 (disposition_value p) ∧
  disposition_value p ≠ [] ∧
  (∃ r, disposition_value p = 102 :: r) ∧
  (∃ r, disposition_value p = r ++ [DQUOTE]).
Proof.
  intros Henc. destruct (filename_tail_props p Henc) as [Hlf Hascii].
  destruct Henc as (Hname_ascii & Hname_q & Hname_lf & _).
  rewrite disposition_value_shape. split; [|split; [|split; [|split]]].
  - apply not_elem_of_app_2; [not_in_literal|].
    apply not_elem_of_app_2; [done|].
    apply not_elem_of_cons. split; [done | exact Hlf].
  - apply well_formed_app; [wf_literal|].
    apply well_formed_app; [done|].
    apply (well_formed_app [DQUOTE]); [wf_literal | done].
  - done.
  - eexists. reflexivity.
  - unfold filename_tail. destruct (filename p) as [f|].
    + exists (NAME_OPEN ++ name p ++ DQUOTE :: str "; filename=" ++ [DQUOTE] ++ f).
      unfold quoted.
      repeat (rewrite <- app_assoc || rewrite <- app_comm_cons). reflexivity.
    + exists (NAME_OPEN ++ name p). by rewrite <- app_assoc.
Qed.

Lemma disposition_line_entry p :
  encodable_headers p →
  header_line_entry ul (DISPOSITION_LINE p) (str "content-disposition")
    (disposition_value p).
Proof.
  intros Henc.
  destruct (disposition_value_props p Henc) as (_ & _ & _ & [r Hhead] & [r' Hlast]).
  exists (str "Content-Disposition"), (32 :: disposition_value p).
  split; [reflexivity|]. split; [not_in_literal|]. split; [done|].
  split; [reflexivity|]. symmetry. apply trimmed_unique.
  exists [32], []. split; [by rewrite app_nil_r|].
  split; [by repeat constructor|]. split; [constructor|]. split.
  - intros c r0 H. rewrite Hhead in H. by injection H as <- _.
  - intros r0 c H. rewrite Hlast in H. apply app_inj_tail in H as [_ <-]. done.
Qed.

Lemma type_line_entry p t :
  encodable_headers p → contentType p = Some t →
  header_line_entry ul (str "Content-Type: " ++ t) (str "content-type") t.
Proof.
  intros (_ & _ & _ & _ & Htype) Ht. rewrite Ht in Htype.
  destruct Htype as (_ & Hne & _ & Hhead & Hlast).
  exists (str "Content-Type"), (32 :: t).
  split; [reflexivity|]. split; [not_in_literal|]. split; [done|].
  split; [reflexivity|]. symmetry. apply trimmed_unique.
  exists [32], []. split; [by rewrite app_nil_r|].
  split; [by repeat constructor|]. split; [constructor|]. done.
Qed.

Lemma header_text_lines p :
  encodable_headers p →
  split_lines (header_text p) =
    DISPOSITION_LINE p ::
    match contentType p with
    | Some t => [str "Content-Type: " ++ t]
    | None => []
    end.
Proof.
  intros Henc. destruct (disposition_value_props p Henc) as (Hlf & _).
  destruct Henc as (_ & _ & _ & _ & Htype).
  assert (LF ∉ DISPOSITION_LINE p) as Hl1.
  { unfold DISPOSITION_LINE. apply not_elem_of_app_2; [not_in_literal | done]. }
  unfold header_text. rewrite app_assoc. fold (DISPOSITION_LINE p).
  destruct (contentType p) as [t|].
  - destruct Htype as (_ & _ & Hlft & _).
    rewrite split_lines_crlf by done. f_equal. apply split_lines_last.
    apply not_elem_of_app_2; [not_in_literal | done].
  - rewrite app_nil_r. by apply split_lines_last.
Qed.

Lemma header_text_disposition p :
  encodable_headers p →
  parseHeaders ul (header_text p) !! str "content-disposition"
  = Some (disposition_value p).
Proof.
  intros Henc.
  eapply (proj1 (parseHeaders_last_wins ul (header_text p)
                   (str "content-disposition") ltac:(discriminate)) []).
  - rewrite header_text_lines by done. reflexivity.
  - by apply disposition_line_entry.
  - intros l v' Hl Hentry. destruct (contentType p) as [t|] eqn:Ht.
    + apply list_elem_of_singleton in Hl as ->.
      destruct (header_line_entry_fun ul _ _ _ _ _ (type_line_entry p t Henc Ht) Hentry)
        as [Hk _]. discriminate Hk.
    + by apply elem_of_nil in Hl.
Qed.

Lemma header_text_type p :
  encodable_headers p →
  parseHeaders ul (header_text p) !! str "content-type" = contentType p.
Proof.
  intros Henc. destruct (contentType p) as [t|] eqn:Ht.
  - eapply (proj1 (parseHeaders_last_wins ul (header_text p)
                     (str "content-type") ltac:(discriminate)) [DISPOSITION_LINE p]).
    + rewrite header_text_lines, Ht by done. reflexivity.
    + by apply (type_line_entry p).
    + intros l v' Hl. by apply elem_of_nil in Hl.
  - apply (proj2 (parseHeaders_last_wins ul (header_text p)
                    (str "content-type") ltac:(discriminate))).
    intros l v Hl Hentry. rewrite header_text_lines, Ht in Hl by done.
    apply list_elem_of_singleton in Hl as ->.
    destruct (header_line_entry_fun ul _ _ _ _ _ (disposition_line_entry p Henc) Hentry)
      as [Hk _]. discriminate Hk.
Qed.

Lemma lf_not_before_cr_free h : LF ∉ h → lf_not_before_cr h.
Proof.
  intros Hno k Hk. exfalso. apply Hno. by apply list_elem_of_lookup_2 in Hk.
Qed.

Lemma lf_not_before_cr_cons c h :
  c ≠ LF → lf_not_before_cr h → lf_not_before_cr (c :: h).
Proof.
  intros Hc Hh [|k] Hk; [by injection Hk|]. simpl in Hk. apply (Hh k Hk).
Qed.

Lemma lf_not_before_cr_lf d h :
  d ≠ CR → lf_not_before_cr (d :: h) → lf_not_before_cr (LF :: d :: h).
Proof.
  intros Hd Hh [|k] Hk; [by exists d|]. simpl in Hk. apply (Hh k Hk).
Qed.

Lemma lf_not_before_cr_app a b :
  LF ∉ a → lf_not_before_cr b → lf_not_before_cr (a ++ b).
Proof.
  induction a as [|c a IH]; intros Ha Hb; [done|].
  apply not_elem_of_cons in Ha as [Hc Ha].
  apply lf_not_before_cr_cons; [done | by apply IH].
Qed.

Lemma occurs_at_lookup d s k j x :
  occurs_at d s k → s !! j = Some x → d !! (k + j)%nat = Some x.
Proof.
  intros (pre & post & -> & <-) Hj.
  rewrite lookup_app_r by lia.
  replace (length pre + j - length pre)%nat with j by lia.
  by apply lookup_app_l_Some.
Qed.

(** The header block ends at the first CR LF CR LF when none of its line
    feeds stands before a carriage return. *)
Lemma header_end h rest :
  lf_not_before_cr h →
  first_occurrence (h ++ CRLFCRLF ++ rest) CRLFCRLF (length h).
Proof.
  intros Hh. split; [by exists h, rest|].
  intros j Hj Ho.
  pose proof (occurs_at_lookup _ _ _ 1 LF Ho eq_refl) as H1.
  pose proof (occurs_at_lookup _ _ _ 2 CR Ho eq_refl) as H2.
  destruct (decide (j + 1 < length h)%nat) as [Hlt|Hge].
  - rewrite lookup_app_l in H1 by done.
    replace (j + 1)%nat with (S j) in H1 by lia.
    destruct (Hh _ H1) as (c & Hc & Hne).
    replace (j + 2)%nat with (S (S j)) in H2 by lia.
    rewrite (lookup_app_l_Some _ _ _ _ Hc) in H2. congruence.
  - assert (j + 1 = length h)%nat as Heq by lia.
    rewrite Heq, lookup_app_r in H1 by lia.
    rewrite Nat.sub_diag in H1. discriminate H1.
Qed.

Lemma header_text_props p :
  encodable_headers p →
  well_formed_utf16 (header_text p) ∧
  (∀ r, header_text p ≠ 65279 :: r) ∧
  lf_not_before_cr (TextEncoder_encode (header_text p)).
Proof.
  intros Henc. destruct (disposition_value_props p Henc) as (Hlf & Hwf & _).
  destruct Henc as (_ & _ & _ & _ & Htype).
  assert (LF ∉ str "Content-Disposition: " ++ disposition_value p) as Hl1.
  { apply not_elem_of_app_2; [not_in_literal | done]. }
  assert (well_formed_utf16 (str "Content-Disposition: " ++ disposition_value p))
    as Hwf1 by (apply well_formed_app; [wf_literal | done]).
  unfold header_text. rewrite app_assoc. split; [|split].
  - apply well_formed_app; [done|].
    destruct (contentType p) as [t|]; [|constructor].
    destruct Htype as (Ht & _).
    apply well_formed_app; [wf_literal|].
    apply well_formed_app; [wf_literal | done].
  - intros r H. discriminate H.
  - rewrite TextEncoder_encode_app by done.
    apply lf_not_before_cr_app.
    { intros Hin. by apply TextEncoder_encode_small in Hin. }
    destruct (contentType p) as [t|]; [|by apply lf_not_before_cr_free, not_elem_of_nil].
    destruct Htype as (_ & _ & Hlft & _).
    rewrite app_assoc.
    rewrite TextEncoder_encode_app by wf_literal.
    rewrite TextEncoder_encode_ascii by (apply ascii_text_str_dec; reflexivity).
    change (CRLF ++ str "Content-Type: ")
      with (CR :: LF :: 67 :: str "ontent-Type: ").
    rewrite <- !app_comm_cons.
    apply lf_not_before_cr_cons; [done|].
    apply lf_not_before_cr_lf; [done|].
    apply lf_not_before_cr_free.
    apply not_elem_of_cons. split; [done|].
    apply not_elem_of_app_2; [not_in_literal|].
    intros Hin. by apply TextEncoder_encode_small in Hin.
Qed.

(** [parsePart] reads back the block that the encoder writes for a part. *)
Lemma parsePart_encoded p :
  encodable_headers p → parsePart ul (part_block p) = Some p.
Proof.
  intros Henc. destruct (header_text_props p Henc) as (Hwf & Hbom & Hlf).
  destruct (disposition_value_props p Henc) as (_ & _ & Hne & _).
  pose proof Henc as (_ & Hq & _ & Hfile & _).
  apply parsePart_Some. unfold part_block.
  exists (length (TextEncoder_encode (header_text p))), (disposition_value p).
  split; [by apply header_end|]. cbv zeta.
  rewrite take_app_length, (TextDecoder_TextEncoder _ Hwf Hbom).
  split; [by apply header_text_disposition|]. split; [done|].
  rewrite header_text_type by done.
  rewrite match_name_encoded; [|done|].
  2:{ intros Hn. destruct (filename p); [|done]. by destruct Hfile as (_ & _ & _ & _ & ? & _). }
  rewrite match_filename_encoded; [|done|].
  2:{ destruct (filename p); [|done]. by destruct Hfile as (_ & ? & ? & _ & _ & ?). }
  assert (drop (length (TextEncoder_encode (header_text p)) + 4)
            (TextEncoder_encode (header_text p) ++ CRLFCRLF ++ data p ++ CRLF)
          = data p ++ CRLF) as ->.
  { rewrite drop_app_ge by lia.
    by replace (length (TextEncoder_encode (header_text p)) + 4
                - length (TextEncoder_encode (header_text p)))%nat with 4%nat by lia. }
  assert (slice (data p ++ CRLF) 0 (content_end (data p ++ CRLF)) = data p) as ->.
  { destruct (content_end_payload (data p ++ CRLF)) as [(q & Hq1 & Hq2)|[Hno _]].
    - apply app_inv_tail in Hq1. congruence.
    - exfalso. apply Hno. by exists (data p). }
  assert (truthy (contentType p) = contentType p) as ->.
  { destruct Henc as (_ & _ & _ & _ & Htype).
    destruct (contentType p) as [[|c t]|]; [|done..]. by destruct Htype as (_ & ? & _). }
  by destruct p.
Qed.

End Encoded.

(** ** The round trip *)

Lemma encode_multipart_tail boundary parts :
  encode_multipart boundary parts
  = boundary_pattern boundary ++ encoded_tail boundary parts.
Proof.
  unfold encode_multipart. induction parts as [|p parts IH]; [done|].
  rewrite fmap_cons. cbn [concat encoded_tail]. unfold encode_part at 1.
  rewrite <- !app_assoc. by rewrite IH.
Qed.

Lemma encoded_tail_length boundary parts :
  (length parts ≤ length (encoded_tail boundary parts))%nat.
Proof.
  induction parts as [|p parts IH]; [simpl; lia|].
  cbn [encoded_tail length]. rewrite !length_app.
  change (length CRLF) with 2%nat. lia.
Qed.

Lemma at_is_app_r pre d i v :
  at_is (pre ++ d) (length pre + i) v = at_is d i v.
Proof.
  unfold at_is. rewrite lookup_app_r by lia.
  by replace (length pre + i - length pre)%nat with i by lia.
Qed.

Lemma occurs_at_inside a b c s j :
  (length a ≤ j)%nat → (j + length s ≤ length a + length b)%nat →
  occurs_at (a ++ b ++ c) s j → occurs_at b s (j - length a).
Proof.
  intros Hle Hlen. rewrite !occurs_at_alt. intros [_ H]. split; [lia|].
  rewrite drop_app_ge in H by done.
  rewrite drop_app_le in H by lia.
  rewrite take_app_le in H; [done|]. rewrite length_drop. lia.
Qed.

Section RoundTrip.
Variable ul : list Z → list Z.

Lemma findBoundary_encoded pre blk pat rest :
  boundary_free pat blk →
  findBoundary (pre ++ CRLF ++ blk ++ pat ++ rest) pat (length pre + 2)
  = Some (length pre + 2 + length blk)%nat.
Proof.
  intros Hfree. apply findSequence_Some. split; [lia|]. split.
  - exists (pre ++ CRLF ++ blk), rest. split; [by rewrite <- !app_assoc|].
    rewrite !length_app. simpl. lia.
  - intros j Hj Ho.
    apply (Hfree (j - (length pre + 2))%nat); [lia|].
    replace (pre ++ CRLF ++ blk ++ pat ++ rest)
      with ((pre ++ CRLF) ++ (blk ++ pat) ++ rest) in Ho
      by (by rewrite <- !app_assoc).
    apply occurs_at_inside in Ho.
    + by replace (length (pre ++ CRLF)) with (length pre + 2)%nat in Ho
        by (rewrite length_app; simpl; lia).
    + rewrite length_app. simpl. lia.
    + rewrite !length_app. simpl. lia.
Qed.

Lemma skip_crlf_encoded pre rest :
  skip_crlf (pre ++ CRLF ++ rest) (length pre) = (length pre + 2)%nat.
Proof.
  unfold skip_crlf.
  rewrite <- (Nat.add_0_r (length pre)) at 1.
  rewrite !at_is_app_r. reflexivity.
Qed.

Lemma slice_encoded pre blk rest :
  slice (pre ++ CRLF ++ blk ++ rest) (length pre + 2)
        (length pre + 2 + length blk) = blk.
Proof.
  unfold slice.
  replace (length pre + 2 + length blk - (length pre + 2))%nat
    with (length blk) by lia.
  rewrite drop_app_ge by lia.
  replace (length pre + 2 - length pre)%nat with 2%nat by lia.
  change (drop 2 (CRLF ++ blk ++ rest)) with (blk ++ rest).
  by rewrite take_app_length.
Qed.

Lemma is_terminal_encoded pre boundary parts :
  is_terminal (pre ++ encoded_tail boundary parts) (length pre)
  = match parts with [] => true | _ => false end.
Proof.
  unfold is_terminal.
  rewrite <- (Nat.add_0_r (length pre)) at 1.
  rewrite !at_is_app_r. by destruct parts.
Qed.

Lemma loop_encoded boundary parts :
  Forall (encodable boundary) parts → parts ≠ [] →
  ∀ pre acc fuel, (length parts ≤ fuel)%nat →
    loop ul fuel (pre ++ encoded_tail boundary parts)
         (boundary_pattern boundary) (length pre) acc
    = Some (acc ++ parts).
Proof.
  induction 1 as [|p parts [Hhdr Hfree] Hall IH]; [done|].
  intros _ pre acc fuel Hfuel. destruct fuel as [|fuel]; [simpl in Hfuel; lia|].
  cbn [encoded_tail].
  set (pat := boundary_pattern boundary) in *.
  set (rest := encoded_tail boundary parts).
  assert (length pre < length (pre ++ CRLF ++ part_block p ++ pat ++ rest))%nat as Hlt.
  { rewrite !length_app. simpl. lia. }
  rewrite (loop_step ul fuel _ pat (length pre) acc
             (length pre + 2 + length (part_block p)) Hlt).
  2:{ rewrite skip_crlf_encoded. by apply findBoundary_encoded. }
  cbv zeta. rewrite skip_crlf_encoded, slice_encoded.
  rewrite (parsePart_encoded ul p Hhdr).
  replace (length pre + 2 + length (part_block p) + length pat)%nat
    with (length (pre ++ CRLF ++ part_block p ++ pat))
    by (rewrite !length_app; simpl; lia).
  replace (pre ++ CRLF ++ part_block p ++ pat ++ rest)
    with ((pre ++ CRLF ++ part_block p ++ pat) ++ rest)
    by (by rewrite <- !app_assoc).
  subst rest. rewrite is_terminal_encoded.
  destruct parts as [|p' parts]; [done|].
  rewrite IH; [|done|simpl in *; lia].
  by rewrite <- app_assoc.
Qed.

Lemma findBoundary_at_start pat rest :
  findBoundary (pat ++ rest) pat 0 = Some 0%nat.
Proof.
  apply findSequence_Some. split; [done|]. split; [by exists [], rest | lia].
Qed.

Lemma parsePart_nil : parsePart ul [] = None.
Proof. reflexivity. Qed.

Lemma loop_no_parts boundary fuel :
  loop ul (S (S fuel))
       (boundary_pattern boundary ++ [DASH; DASH]) (boundary_pattern boundary)
       (length (boundary_pattern boundary)) []
  = Some [].
Proof.
  set (pat := boundary_pattern boundary).
  pose proof (boundary_pattern_length boundary) as Hlen. fold pat in Hlen.
  cbn [loop].
  assert ((length pat <? length (pat ++ [DASH; DASH]))%nat = true) as ->.
  { apply Nat.ltb_lt. rewrite length_app. simpl. lia. }
  unfold loop_body.
  assert (skip_crlf (pat ++ [DASH; DASH]) (length pat) = length pat) as ->.
  { unfold skip_crlf. rewrite <- (Nat.add_0_r (length pat)) at 1.
    by rewrite at_is_app_r. }
  destruct (findBoundary (pat ++ [DASH; DASH]) pat (length pat)) as [next|] eqn:Hf;
    [|done].
  apply findSequence_Some in Hf as (Hle & Ho & _).
  apply occurs_at_length in Ho. rewrite length_app in Ho. simpl in Ho.
  assert (next = length pat) as -> by lia.
  unfold slice. rewrite Nat.sub_diag, take_0, parsePart_nil.
  assert (is_terminal (pat ++ [DASH; DASH]) (length pat + length pat) = false) as ->.
  { unfold is_terminal, at_is. rewrite lookup_ge_None_2; [done|].
    rewrite length_app. simpl. lia. }
  assert ((length pat + length pat <? length (pat ++ [DASH; DASH]))%nat = false) as ->.
  { apply Nat.ltb_ge. rewrite length_app. simpl. lia. }
  done.
Qed.

End RoundTrip.

(** C1, as the code has it.  A sequence of parts that the encoder can write
    ([encodable]) is read back from the encoded body, with the same
    boundary, in the same order and with the same payloads. *)
Theorem round_trip (ul : list Z → list Z) (boundary : list Z)
    (parts : list Part) :
  Forall (encodable boundary) parts →
  parseMultipartParts ul (encode_multipart boundary parts) boundary
  = Some parts.
Proof.
  intros Hall. unfold parseMultipartParts, parseMultipartParts_fuel.
  rewrite encode_multipart_tail, findBoundary_at_start. cbn [Nat.add].
  destruct parts as [|p parts].
  - cbn [encoded_tail]. rewrite length_app. simpl length.
    replace (S (length (boundary_pattern boundary) + 2))
      with (S (S (S (length (boundary_pattern boundary))))) by lia.
    apply loop_no_parts.
  - apply (loop_encoded ul boundary (p :: parts) Hall ltac:(done)
             (boundary_pattern boundary) []).
    pose proof (encoded_tail_length boundary (p :: parts)).
    rewrite length_app. lia.
Qed.

(** ** Deciding [encodable]; the terminal boundary *)

Lemma memb_false x l : memb x l = false → x ∉ l.
Proof.
  unfold memb. intros H Hin.
  assert (existsb (Z.eqb x) l = true); [|congruence].
  apply existsb_exists. exists x. split; [by apply list_elem_of_In | apply Z.eqb_refl].
Qed.

Lemma ends_with_false s suffix :
  ends_with s suffix = false → ¬ ∃ n, s = n ++ suffix.
Proof.
  unfold ends_with. intros H [n ->].
  rewrite reverse_app, starts_with_app in H. done.
Qed.

Lemma is_nil_false s : is_nil s = false → s ≠ [].
Proof. by destruct s. Qed.

Lemma no_outer_spaceb_sound s : no_outer_spaceb s = true → no_outer_space s.
Proof.
  unfold no_outer_spaceb, no_outer_space, white.
  intros [H1 H2]%andb_true_iff. split.
  - intros c r ->. by destruct (is_white_space c).
  - intros r c ->. rewrite reverse_app in H2. simpl in H2.
    by destruct (is_white_space c).
Qed.

Lemma well_formedb_sound s : well_formedb s = true → well_formed_utf16 s.
Proof.
  remember (length s) as n eqn:Hn. revert s Hn.
  induction n as [n IH] using lt_wf_ind. intros s -> H.
  destruct s as [|c r]; [constructor|]. cbn [well_formedb] in H.
  destruct (is_lead_surrogate c) eqn:Hl.
  - destruct r as [|d r']; [done|]. apply andb_true_iff in H as [Ht H].
    apply wf_pair; [done..|]. apply (IH (length r')); [simpl; lia | done | done].
  - apply andb_true_iff in H as [H Hr]. apply andb_true_iff in H as [H Hs].
    apply andb_true_iff in H as [H0 H1]. apply negb_true_iff in Hs.
    apply Z.leb_le in H0. apply Z.ltb_lt in H1.
    apply wf_unit; [lia | done |]. apply (IH (length r)); [simpl; lia | done | done].
Qed.

Lemma encodable_headersb_sound p :
  encodable_headersb p = true → encodable_headers p.
Proof.
  unfold encodable_headersb, encodable_headers.
  intros [[[[Ha Hq]%andb_true_iff Hlf]%andb_true_iff Hf]%andb_true_iff Ht]%andb_true_iff.
  apply negb_true_iff in Hq, Hlf.
  split; [by apply well_formedb_sound|].
  split; [by apply memb_false|]. split; [by apply memb_false|]. split.
  - destruct (filename p) as [f|]; [|done].
    apply andb_true_iff in Hf as [Hf H6]. apply andb_true_iff in Hf as [Hf H5].
    apply andb_true_iff in Hf as [Hf H4]. apply andb_true_iff in Hf as [Hf H3].
    apply andb_true_iff in Hf as [H1 H2].
    apply negb_true_iff in H2, H3, H4, H5, H6.
    split; [by apply well_formedb_sound|]. split; [by apply is_nil_false|].
    split; [by apply memb_false|]. split; [by apply memb_false|].
    split; [by apply is_nil_false | by apply ends_with_false].
  - destruct (contentType p) as [t|]; [|done].
    apply andb_true_iff in Ht as [Ht H4]. apply andb_true_iff in Ht as [Ht H3].
    apply andb_true_iff in Ht as [H1 H2]. apply negb_true_iff in H2, H3.
    split; [by apply well_formedb_sound|]. split; [by apply is_nil_false|].
    split; [by apply memb_false | by apply no_outer_spaceb_sound].
Qed.

Lemma encodableb_sound boundary p :
  encodableb boundary p = true → encodable boundary p.
Proof.
  unfold encodableb, encodable. intros [Hh Hf]%andb_true_iff.
  split; [by apply encodable_headersb_sound|].
  apply bool_decide_eq_true in Hf. apply findSequence_Some in Hf as (_ & _ & Hf).
  intros k Hk. apply Hf. lia.
Qed.

(** C1 on a field, a file with binary content and a part with names that
    are not ASCII. *)
Lemma round_trip_witness :
  parseMultipartParts no_case_mapping
    (encode_multipart (str "B") [field_part; file_part; unicode_part]) (str "B")
  = Some [field_part; file_part; unicode_part].
Proof.
  apply (round_trip no_case_mapping (str "B") [field_part; file_part; unicode_part]).
  apply Forall_cons_2; [apply encodableb_sound; vm_compute; reflexivity|].
  apply Forall_cons_2; [apply encodableb_sound; vm_compute; reflexivity|].
  apply Forall_cons_2; [apply encodableb_sound; vm_compute; reflexivity|].
  apply Forall_nil_2.
Defined.

(** C1, as the specification words it, fails at three sequences of one tuple each:
    a file part whose file name is the empty string comes back without file
    name; a payload that holds the boundary pattern comes back cut short; a
    name that holds a double quote comes back cut short. *)
Lemma round_trip_counterexample :
  (parseMultipartParts no_case_mapping
     (encode_multipart (str "B") [empty_filename_part]) (str "B")
   = Some [{| name := str "f"; filename := None;
              contentType := Some (str "application/octet-stream");
              data := [] |}] ∧
   parseMultipartParts no_case_mapping
     (encode_multipart (str "B") [empty_filename_part]) (str "B")
   ≠ Some [empty_filename_part]) ∧
  (parseMultipartParts no_case_mapping
     (encode_multipart (str "B") [boundary_in_payload_part]) (str "B")
   = Some [{| name := str "f"; filename := None; contentType := None;
              data := str "a" |}] ∧
   parseMultipartParts no_case_mapping
     (encode_multipart (str "B") [boundary_in_payload_part]) (str "B")
   ≠ Some [boundary_in_payload_part]) ∧
  (parseMultipartParts no_case_mapping
     (encode_multipart (str "B") [quote_in_name_part]) (str "B")
   = Some [{| name := str "a"; filename := None; contentType := None;
              data := str "x" |}] ∧
   parseMultipartParts no_case_mapping
     (encode_multipart (str "B") [quote_in_name_part]) (str "B")
   ≠ Some [quote_in_name_part]).
Proof.
  repeat split; try (vm_compute; reflexivity); vm_compute; discriminate.
Qed.

Section Terminal.
Variable ul : list Z → list Z.

(** The check after a boundary found by the search of the loop: two dashes
    there end the loop with the parts gathered so far. *)
Lemma terminal_boundary_in_loop d bb position parts next :
  findBoundary d bb (skip_crlf d position) = Some next →
  is_terminal d (next + length bb) = true →
  ∃ parts', loop_body ul d bb position parts = Break parts' ∧
            (parts' = parts ∨ ∃ p, parts' = parts ++ [p]) ∧
            ∀ fuel, (position < length d)%nat →
                    loop ul (S fuel) d bb position parts = Some parts'.
Proof.
  intros Hf Ht. eexists. split; [|split].
  - rewrite (loop_body_found ul _ _ _ _ _ Hf). cbv zeta. rewrite Ht. reflexivity.
  - destruct (parsePart ul _) as [p|]; [right; by exists p | by left].
  - intros fuel Hlt. rewrite (loop_step ul _ _ _ _ _ _ Hlt Hf). cbv zeta.
    by rewrite Ht.
Qed.

(** When the body ends with the pattern and two dashes, the two bytes read
    by that check are the last two of the body. *)
Lemma terminal_reads_in_bounds pre bb :
  is_terminal (pre ++ bb ++ [DASH; DASH]) (length pre + length bb) = true ∧
  (length pre + length bb + 1 < length (pre ++ bb ++ [DASH; DASH]))%nat.
Proof.
  split.
  - rewrite app_assoc, <- length_app. unfold is_terminal.
    rewrite <- (Nat.add_0_r (length (pre ++ bb))) at 1.
    by rewrite !at_is_app_r.
  - rewrite !length_app. simpl. lia.
Qed.

End Terminal.

Section Emitted.
Variable ul : list Z → list Z.

(** Every part that the loop adds is what [parsePart] makes of a slice of
    the body. *)
Lemma loop_parts_from_blocks fuel d bb position acc parts :
  loop ul fuel d bb position acc = Some parts →
  ∀ p, p ∈ parts →
       p ∈ acc ∨ ∃ start stop, parsePart ul (slice d start stop) = Some p.
Proof.
  revert position acc. induction fuel as [|fuel IH]; intros position acc; [done|].
  cbn [loop]. destruct (position <? length d)%nat.
  2:{ intros [= <-] p Hp. by left. }
  unfold loop_body.
  destruct (findBoundary d bb (skip_crlf d position)) as [next|].
  2:{ intros [= <-] p Hp. by left. }
  assert (∀ p,
    p ∈ match parsePart ul (slice d (skip_crlf d position) next) with
        | Some part => acc ++ [part]
        | None => acc
        end →
    p ∈ acc ∨ ∃ start stop, parsePart ul (slice d start stop) = Some p) as Hstep.
  { intros p Hp.
    destruct (parsePart ul (slice d (skip_crlf d position) next)) as [q|] eqn:Hq;
      [|by left].
    apply elem_of_app in Hp as [Hp|Hp]; [by left|].
    apply list_elem_of_singleton in Hp as ->. right. eauto. }
  destruct (is_terminal d (next + length bb)).
  - intros [= <-]. exact Hstep.
  - intros Hl p Hp. destruct (IH _ _ Hl p Hp) as [Hin|Hex]; [by apply Hstep | by right].
Qed.

(** The payload of every part in the result of [parseMultipartParts] is the
    payload of a slice of the body. *)
Lemma emitted_part_payload uint8Array boundary parts p :
  parseMultipartParts ul uint8Array boundary = Some parts → p ∈ parts →
  ∃ start stop i,
    first_occurrence (slice uint8Array start stop) CRLFCRLF i ∧
    payload_of (drop (i + 4) (slice uint8Array start stop)) (data p).
Proof.
  unfold parseMultipartParts, parseMultipartParts_fuel.
  destruct (findBoundary uint8Array (boundary_pattern boundary) 0) as [first|].
  2:{ intros [= <-] Hp. by apply elem_of_nil in Hp. }
  intros Hl Hp.
  destruct (loop_parts_from_blocks _ _ _ _ _ _ Hl p Hp) as [Hin|(start & stop & Hq)].
  { by apply elem_of_nil in Hin. }
  apply parsePart_Some in Hq as (i & cd & Hi & _ & _ & ->).
  exists start, stop, i. split; [done|]. apply content_end_payload.
Qed.

End Emitted.

(** The first boundary of a body is followed by no such check (lines 60 to
    65): in [body_terminal_first] it stands at index 0 with two dashes after
    it, and the loop is entered all the same. *)
Remark first_boundary_is_not_checked :
  findBoundary body_terminal_first (boundary_pattern (str "B")) 0 = Some 0%nat ∧
  is_terminal body_terminal_first (0 + length (boundary_pattern (str "B"))) = true ∧
  parseMultipartParts no_case_mapping body_terminal_first (str "B")
  = Some [part_a].
Proof. repeat split; vm_compute; reflexivity. Qed.

(** * Further properties of the parser *)

(** ** The search *)

(** X1.  [findSequence] returns the least index, not below [startPos], at
    which [sequence] occurs in [data], and it returns -1 exactly when there
    is no such index; [findBoundary] is the same search. *)
Theorem findSequence_least_occurrence (data sequence : list Z) (startPos : nat) :
  (∀ i, findSequence data sequence startPos = Some i ↔
        (startPos ≤ i)%nat ∧ occurs_at data sequence i ∧
        ∀ j, (startPos ≤ j < i)%nat → ¬ occurs_at data sequence j) ∧
  (findSequence data sequence startPos = None ↔
     ∀ j, (startPos ≤ j)%nat → ¬ occurs_at data sequence j) ∧
  findBoundary data sequence startPos = findSequence data sequence startPos.
Proof.
  split; [|split; [|reflexivity]].
  - intros i. apply findSequence_Some.
  - apply findSequence_None.
Qed.

(** X2.  A match lies inside the array: the bytes from the index returned,
    as many as the sequence has, are the sequence.  When fewer bytes than
    the sequence has are left at [startPos] the result is -1, and the empty
    sequence is found at [startPos] itself as long as [startPos] is not
    beyond the end. *)
Theorem findSequence_in_bounds (data sequence : list Z) (startPos : nat) :
  (∀ i, findSequence data sequence startPos = Some i →
        (i + length sequence ≤ length data)%nat ∧
        slice data i (i + length sequence) = sequence) ∧
  ((length data < startPos + length sequence)%nat →
   findSequence data sequence startPos = None) ∧
  ((startPos ≤ length data)%nat → findSequence data [] startPos = Some startPos).
Proof.
  split; [|split].
  - intros i Hi. apply findSequence_Some in Hi as (_ & Ho & _).
    apply occurs_at_alt in Ho as [Hlen Heq]. split; [done|].
    unfold slice. by replace (i + length sequence - i)%nat with (length sequence) by lia.
  - intros Hshort. apply findSequence_None. intros j Hj Ho.
    apply occurs_at_length in Ho. lia.
  - intros Hle. apply findSequence_Some. split; [done|]. split; [|lia].
    exists (take startPos data), (drop startPos data). split.
    + by rewrite app_nil_l, take_drop.
    + rewrite length_take. lia.
Qed.

(** ** Header blocks *)

Section HeaderLookup.
Variable ul : list Z → list Z.

Local Arguments str : simpl never.

(** A line either stands for an entry or leaves the headers as they are. *)
Lemma header_line_cases line :
  (∃ k v, header_line_entry ul line k v) ∨
  (∀ k v, ¬ header_line_entry ul line k v).
Proof.
  destruct (indexOf line COLON) as [i|] eqn:Hi.
  - destruct (0 <? i)%nat eqn:Hpos.
    + left. apply indexOf_Some in Hi as (pre & post & -> & Hnot & <-).
      apply Nat.ltb_lt in Hpos.
      exists (toLowerCase ul (trim pre)), (trim post), pre, post.
      repeat (split; [done|]). split; [|done]. intros ->. simpl in Hpos. lia.
    + right. intros k v (pre & post & -> & Hnot & Hne & _).
      assert (indexOf (pre ++ COLON :: post) COLON = Some (length pre)) as Hi'.
      { apply indexOf_Some. by exists pre, post. }
      rewrite Hi' in Hi. injection Hi as <-. apply Nat.ltb_ge in Hpos.
      destruct pre; [done | simpl in Hpos; lia].
  - right. intros k v (pre & post & -> & _).
    apply indexOf_None in Hi. apply Hi, elem_of_app. right. by left.
Qed.

Lemma header_fold_lookup lines k v :
  foldl (parseHeaders_line ul) ∅ lines !! k = Some v →
  k ≠ str "__proto__" ∧
  ∃ lines1 line lines2,
    lines = lines1 ++ line :: lines2 ∧ header_line_entry ul line k v ∧
    ∀ l v', l ∈ lines2 → ¬ header_line_entry ul l k v'.
Proof.
  induction lines as [|last init IH] using rev_ind.
  { cbn [foldl]. intros H. by rewrite lookup_empty in H. }
  rewrite foldl_app. cbn [foldl]. intros Hlook.
  destruct (header_line_cases last) as [(k' & v' & He) | Hno].
  - rewrite (parseHeaders_line_entry ul _ _ _ _ He) in Hlook.
    destruct (decide (k = k')) as [<- | Hne].
    + destruct (decide (k = str "__proto__")) as [-> | Hk].
      * rewrite set_property_proto in Hlook.
        by destruct (IH Hlook) as [? _].
      * rewrite set_property_lookup in Hlook by done. injection Hlook as ->.
        split; [done|]. exists init, last, []. split; [done|]. split; [done|].
        intros l v'' Hl. by apply elem_of_nil in Hl.
    + rewrite set_property_lookup_ne in Hlook by done.
      destruct (IH Hlook) as (Hk & lines1 & line & lines2 & -> & Hline & Hlast).
      split; [done|]. exists lines1, line, (lines2 ++ [last]).
      split; [by rewrite <- app_assoc|]. split; [done|].
      intros l v'' Hl He'. apply elem_of_app in Hl as [Hl | Hl].
      * by apply (Hlast l v'').
      * apply list_elem_of_singleton in Hl as ->.
        destruct (header_line_entry_fun ul _ _ _ _ _ He He') as [-> _]. done.
  - rewrite (parseHeaders_line_no_entry ul _ _ Hno) in Hlook.
    destruct (IH Hlook) as (Hk & lines1 & line & lines2 & -> & Hline & Hlast).
    split; [done|]. exists lines1, line, (lines2 ++ [last]).
    split; [by rewrite <- app_assoc|]. split; [done|].
    intros l v'' Hl He'. apply elem_of_app in Hl as [Hl | Hl].
    + by apply (Hlast l v'').
    + apply list_elem_of_singleton in Hl as ->. by apply (Hno k v'').
Qed.

(** X3.  The object that [parseHeaders] returns binds [k] to [v] exactly
    when [k] is not [__proto__] and [v] is the value of the last line of the
    block whose key is [k]: the part of a line before its first colon (which
    is not at index 0), trimmed and in lower case, is its key, and the part
    after that colon, trimmed, is its value. *)
Theorem parseHeaders_lookup (headerText k v : list Z) :
  parseHeaders ul headerText !! k = Some v ↔
  k ≠ str "__proto__" ∧
  ∃ lines1 line lines2,
    split_lines headerText = lines1 ++ line :: lines2 ∧
    header_line_entry ul line k v ∧
    ∀ l v', l ∈ lines2 → ¬ header_line_entry ul l k v'.
Proof.
  split.
  - apply header_fold_lookup.
  - intros (Hk & lines1 & line & lines2 & Hsplit & He & Hlast).
    by apply (proj1 (parseHeaders_last_wins ul headerText k Hk) lines1 line lines2 v).
Qed.

(** Every value of the object is trimmed. *)
Lemma parseHeaders_value_trimmed headerText k v :
  parseHeaders ul headerText !! k = Some v → no_outer_space v.
Proof.
  intros (_ & _ & line & _ & _ & (pre & post & _ & _ & _ & _ & ->) & _)%header_fold_lookup.
  destruct (trim_trimmed post) as (a & b & _ & _ & _ & Hhead & Hlast).
  by split.
Qed.

End HeaderLookup.

(** ** The fields of a part *)

Section PartFields.
Variable ul : list Z → list Z.

Local Arguments match_quoted : simpl never.
Local Arguments parseHeaders : simpl never.
Local Arguments TextDecoder_decode : simpl never.
Local Arguments str : simpl never.

Lemma match_quoted_value key cd v :
  match_quoted key cd = Some v → v ≠ [] ∧ (DQUOTE ∉ v).
Proof.
  intros (j & (pre & post & _ & _ & Hne & Hq) & _)%match_quoted_Some. done.
Qed.

Lemma truthy_Some o t : truthy o = Some t → o = Some t ∧ t ≠ [].
Proof. destruct o as [[|c r]|]; [done| |done]. by intros [= <-]. Qed.

Lemma length_slice_le d a b : (length (slice d a b) ≤ length d - a)%nat.
Proof. unfold slice. rewrite length_take, length_drop. lia. Qed.

Lemma parsePart_data_length block p :
  parsePart ul block = Some p → (length (data p) + 4 ≤ length block)%nat.
Proof.
  intros (i & cd & [Ho _] & _ & _ & ->)%parsePart_Some. cbn [data].
  apply occurs_at_length in Ho. change (length CRLFCRLF) with 4%nat in Ho.
  pose proof (length_slice_le (drop (i + 4) block) 0
                (content_end (drop (i + 4) block))) as Hl.
  rewrite length_drop in Hl. lia.
Qed.

(** The payload stands in the block, after the header separator. *)
Lemma parsePart_data_occurs block p :
  parsePart ul block = Some p →
  ∃ i, (4 ≤ i)%nat ∧ occurs_at block (data p) i.
Proof.
  intros (i & cd & [Ho _] & _ & _ & ->)%parsePart_Some. cbn [data].
  exists (i + 4)%nat. split; [lia|].
  apply occurs_at_length in Ho. change (length CRLFCRLF) with 4%nat in Ho.
  rewrite slice_0.
  exists (take (i + 4) block),
         (drop (content_end (drop (i + 4) block)) (drop (i + 4) block)).
  split.
  - by rewrite take_drop, take_drop.
  - rewrite length_take. lia.
Qed.

Lemma parsePart_fields_hold block p :
  parsePart ul block = Some p →
  (DQUOTE ∉ name p) ∧
  (∀ f, filename p = Some f → f ≠ [] ∧ (DQUOTE ∉ f)) ∧
  (∀ t, contentType p = Some t → t ≠ [] ∧ no_outer_space t) ∧
  (length (data p) + 4 ≤ length block)%nat.
Proof.
  intros Hp. split; [|split; [|split]].
  - apply parsePart_Some in Hp as (i & cd & _ & _ & _ & ->). cbn [name].
    destruct (match_quoted (str "name") cd) as [v|] eqn:Hv; cbn [default].
    + by apply match_quoted_value in Hv as [_ ?].
    + apply not_elem_of_nil.
  - apply parsePart_Some in Hp as (i & cd & _ & _ & _ & ->). cbn [filename].
    intros f Hf. by apply match_quoted_value in Hf.
  - apply parsePart_Some in Hp as (i & cd & _ & _ & _ & ->). cbn [contentType].
    intros t [Ht Hne]%truthy_Some. split; [done|].
    by apply (parseHeaders_value_trimmed ul) in Ht.
  - by apply parsePart_data_length.
Qed.

End PartFields.

(** X4.  What a part returned by [parsePart] never has: a double quote in
    its name or its file name, an empty file name, an empty content type or
    one with white space at its ends; and its payload is shorter than the
    block by the four bytes of the header separator at least. *)
Theorem parsePart_fields (ul : list Z → list Z) (block : list Z) (p : Part) :
  parsePart ul block = Some p →
  (DQUOTE ∉ name p) ∧
  (∀ f, filename p = Some f → f ≠ [] ∧ (DQUOTE ∉ f)) ∧
  (∀ t, contentType p = Some t → t ≠ [] ∧ no_outer_space t) ∧
  (length (data p) + 4 ≤ length block)%nat.
Proof. apply parsePart_fields_hold. Qed.

(** X4 on [empty_file_block], which gives [empty_file_part]. *)
Lemma parsePart_fields_witness :
  (DQUOTE ∉ name empty_file_part) ∧
  (∀ f, filename empty_file_part = Some f → f ≠ [] ∧ (DQUOTE ∉ f)) ∧
  (∀ t, contentType empty_file_part = Some t → t ≠ [] ∧ no_outer_space t) ∧
  (length (data empty_file_part) + 4 ≤ length empty_file_block)%nat.
Proof.
  apply (parsePart_fields no_case_mapping empty_file_block empty_file_part).
  vm_compute. reflexivity.
Defined.

(** ** What the scan emits *)

Section Scan.
Variable ul : list Z → list Z.

Lemma emitted_from_mono d bb position position' parts :
  (position ≤ position')%nat →
  emitted_from ul d bb position' parts → emitted_from ul d bb position parts.
Proof.
  intros Hle. destruct parts as [|p rest]; [done|].
  intros (start & stop & Hs & Hrest). exists start, stop. split; [lia | done].
Qed.

Lemma loop_emitted fuel d bb position acc parts :
  loop ul fuel d bb position acc = Some parts →
  ∃ new, parts = acc ++ new ∧ emitted_from ul d bb position new.
Proof.
  revert position acc. induction fuel as [|fuel IH]; intros position acc; [done|].
  cbn [loop]. destruct (position <? length d)%nat.
  2:{ intros [= <-]. exists []. by rewrite app_nil_r. }
  unfold loop_body.
  destruct (findBoundary d bb (skip_crlf d position)) as [next|] eqn:Hf.
  2:{ intros [= <-]. exists []. by rewrite app_nil_r. }
  pose proof (skip_crlf_ge d position) as Hskip.
  destruct (parsePart ul (slice d (skip_crlf d position) next)) as [q|] eqn:Hq.
  - destruct (is_terminal d (next + length bb)).
    + intros [= <-]. exists [q]. split; [done|].
      exists (skip_crlf d position), next. done.
    + intros (new & -> & Hnew)%IH. exists (q :: new).
      split; [by rewrite <- app_assoc|].
      exists (skip_crlf d position), next. done.
  - destruct (is_terminal d (next + length bb)).
    + intros [= <-]. exists []. by rewrite app_nil_r.
    + intros (new & -> & Hnew)%IH. exists new. split; [done|].
      apply (emitted_from_mono _ _ _ (next + length bb)); [|done].
      apply findSequence_Some in Hf as (Hle & _). lia.
Qed.

Lemma parseMultipartParts_emitted d boundary parts :
  parseMultipartParts ul d boundary = Some parts →
  emitted_from ul d (boundary_pattern boundary)
    (length (boundary_pattern boundary)) parts.
Proof.
  unfold parseMultipartParts, parseMultipartParts_fuel.
  destruct (findBoundary d (boundary_pattern boundary) 0) as [first|].
  2:{ by intros [= <-]. }
  intros (new & -> & Hnew)%loop_emitted.
  apply (emitted_from_mono _ _ _ (first + length (boundary_pattern boundary)));
    [lia | done].
Qed.

Lemma emitted_from_elem d bb position parts p :
  emitted_from ul d bb position parts → p ∈ parts →
  ∃ start stop, findBoundary d bb start = Some stop ∧
                parsePart ul (slice d start stop) = Some p.
Proof.
  revert position. induction parts as [|q rest IH]; intros position.
  { intros _ Hp. by apply elem_of_nil in Hp. }
  intros (start & stop & _ & Hf & Hq & Hrest) Hp.
  apply elem_of_cons in Hp as [-> | Hp]; [by exists start, stop|].
  by apply (IH _ Hrest).
Qed.

Lemma occurs_at_slice d start stop s i :
  (start ≤ stop ≤ length d)%nat → occurs_at (slice d start stop) s i →
  occurs_at d s (start + i) ∧ (start + i + length s ≤ stop)%nat.
Proof.
  intros [Hle Hstop] Ho. pose proof (occurs_at_length _ _ _ Ho) as Hlen.
  assert (length (slice d start stop) = (stop - start)%nat) as Hsl.
  { unfold slice. rewrite length_take, length_drop. lia. }
  rewrite Hsl in Hlen.
  destruct Ho as (pre & post & Heq & Hpre).
  split; [|lia].
  exists (take start d ++ pre), (post ++ drop stop d). split.
  - rewrite <- app_assoc, (app_assoc s), (app_assoc pre), <- Heq.
    unfold slice.
    rewrite <- (take_drop start d) at 1. f_equal.
    rewrite <- (take_drop (stop - start) (drop start d)) at 1. f_equal.
    rewrite drop_drop. f_equal. lia.
  - rewrite length_app, length_take. lia.
Qed.

Lemma occurs_at_trans d s t i k :
  occurs_at d s i → occurs_at s t k → occurs_at d t (i + k).
Proof.
  intros (pre & post & -> & <-) (pre' & post' & -> & <-).
  exists (pre ++ pre'), (post' ++ post). split.
  - by rewrite <- !app_assoc.
  - by rewrite length_app.
Qed.

Lemma emitted_payload_boundary_free d bb start stop p :
  (0 < length bb)%nat →
  findBoundary d bb start = Some stop →
  parsePart ul (slice d start stop) = Some p →
  (∃ i, occurs_at d (data p) i) ∧ ∀ k, ¬ occurs_at (data p) bb k.
Proof.
  intros Hbb Hf Hp.
  apply findSequence_Some in Hf as (Hle & Hstop & Hfirst).
  apply occurs_at_length in Hstop.
  destruct (parsePart_data_occurs ul _ _ Hp) as (i & _ & Hi).
  split.
  - exists (start + i)%nat. apply (occurs_at_slice d start stop); [lia | done].
  - intros k Hk.
    pose proof (occurs_at_trans _ _ _ _ _ Hi Hk) as Hin.
    apply occurs_at_slice in Hin as [Hin Hend]; [|lia].
    apply (Hfirst (start + (i + k))%nat); [lia | done].
Qed.

Lemma emitted_from_size d bb position parts :
  emitted_from ul d bb position parts →
  (position + sum_list_with (λ p, length (data p) + 4 + length bb)%nat parts
   ≤ length d ∨ parts = [])%nat.
Proof.
  revert position. induction parts as [|p rest IH]; intros position; [by right|].
  intros (start & stop & Hpos & Hf & Hp & Hrest). left.
  apply findSequence_Some in Hf as (Hle & Hstop & _).
  apply occurs_at_length in Hstop.
  apply parsePart_data_length in Hp.
  assert (length (slice d start stop) = (stop - start)%nat) as Hsl.
  { unfold slice. rewrite length_take, length_drop. lia. }
  rewrite Hsl in Hp. cbn [sum_list_with].
  destruct (IH _ Hrest) as [Hsum | ->]; [lia|].
  cbn [sum_list_with]. lia.
Qed.

End Scan.

(** X5.  The payload of every part that [parseMultipartParts] returns is a
    run of consecutive bytes of the body, and the boundary pattern does not
    occur in it. *)
Theorem payload_has_no_boundary (ul : list Z → list Z)
    (uint8Array boundary : list Z) (parts : list Part) (p : Part) :
  parseMultipartParts ul uint8Array boundary = Some parts → p ∈ parts →
  (∃ i, occurs_at uint8Array (data p) i) ∧
  ∀ k, ¬ occurs_at (data p) (boundary_pattern boundary) k.
Proof.
  intros Hparts Hp.
  apply parseMultipartParts_emitted in Hparts.
  destruct (emitted_from_elem ul _ _ _ _ _ Hparts Hp) as (start & stop & Hf & Hq).
  apply (emitted_payload_boundary_free ul _ _ start stop); [|done..].
  pose proof (boundary_pattern_length boundary). lia.
Qed.

(** X5 on the body with a field, a file and a file with names that are not
    ASCII, at the file. *)
Lemma payload_has_no_boundary_witness :
  (∃ i, occurs_at (encode_multipart (str "B") [field_part; file_part; unicode_part])
          (data file_part) i) ∧
  ∀ k, ¬ occurs_at (data file_part) (boundary_pattern (str "B")) k.
Proof.
  apply (payload_has_no_boundary no_case_mapping
           (encode_multipart (str "B") [field_part; file_part; unicode_part])
           (str "B") [field_part; file_part; unicode_part] file_part).
  - vm_compute. reflexivity.
  - apply elem_of_cons. right. apply elem_of_cons. by left.
Defined.

(** X6.  The parts returned fit in the body: the payloads, with four bytes
    of header separator and one boundary pattern for each part and one more
    boundary pattern before the first, are not longer than the body; so there
    is at most one part for every six bytes of the body. *)
Theorem parts_fit_in_body (ul : list Z → list Z)
    (uint8Array boundary : list Z) (parts : list Part) :
  parseMultipartParts ul uint8Array boundary = Some parts →
  (parts ≠ [] →
   length (boundary_pattern boundary)
   + sum_list_with
       (λ p, length (data p) + 4 + length (boundary_pattern boundary))%nat parts
   ≤ length uint8Array)%nat ∧
  (6 * length parts ≤ length uint8Array)%nat.
Proof.
  intros Hparts. apply parseMultipartParts_emitted in Hparts.
  apply emitted_from_size in Hparts.
  pose proof (boundary_pattern_length boundary) as Hlen.
  assert (∀ l : list Part,
    (6 * length l ≤ sum_list_with
       (λ p, length (data p) + 4 + length (boundary_pattern boundary)) l)%nat)
    as Hcount.
  { induction l as [|q l IHl]; cbn [sum_list_with length]; lia. }
  specialize (Hcount parts).
  destruct Hparts as [Hsum | ->].
  - split; [intros _; done | lia].
  - split; [done | simpl; lia].
Qed.

(** X6 on the body with three parts. *)
Lemma parts_fit_in_body_witness :
  ([field_part; file_part; unicode_part] ≠ [] →
   length (boundary_pattern (str "B"))
   + sum_list_with
       (λ p, length (data p) + 4 + length (boundary_pattern (str "B")))%nat
       [field_part; file_part; unicode_part]
   ≤ length (encode_multipart (str "B") [field_part; file_part; unicode_part]))%nat ∧
  (6 * length [field_part; file_part; unicode_part]
   ≤ length (encode_multipart (str "B") [field_part; file_part; unicode_part]))%nat.
Proof.
  apply (parts_fit_in_body no_case_mapping).
  vm_compute. reflexivity.
Defined.

(** ** Bodies that are cut off, and bodies with a preamble and an epilogue *)

Section Lenient.
Variable ul : list Z → list Z.

Lemma loop_no_further_boundary fuel d bb position acc :
  (∀ j, (position ≤ j)%nat → ¬ occurs_at d bb j) →
  loop ul (S fuel) d bb position acc = Some acc.
Proof.
  intros Hno. cbn [loop]. destruct (position <? length d)%nat; [|done].
  unfold loop_body.
  assert (findBoundary d bb (skip_crlf d position) = None) as ->; [|done].
  apply findSequence_None. intros j Hj. apply Hno.
  pose proof (skip_crlf_ge d position). lia.
Qed.

(** X7.  A body in which the boundary pattern occurs once only gives no part:
    what follows the last boundary of a body is never returned, so a part
    that no boundary closes is lost. *)
Theorem unclosed_part_is_lost (d boundary : list Z) (i : nat) :
  first_occurrence d (boundary_pattern boundary) i →
  (∀ j, (i < j)%nat → ¬ occurs_at d (boundary_pattern boundary) j) →
  parseMultipartParts ul d boundary = Some [].
Proof.
  intros Hfirst Hlast. unfold parseMultipartParts, parseMultipartParts_fuel.
  apply findSequence_first in Hfirst. unfold findBoundary. rewrite Hfirst.
  apply loop_no_further_boundary. intros j Hj. apply Hlast.
  pose proof (boundary_pattern_length boundary). lia.
Qed.

Lemma findBoundary_block pre blk pat rest :
  boundary_free pat blk →
  findBoundary (pre ++ blk ++ pat ++ rest) pat (length pre)
  = Some (length pre + length blk)%nat.
Proof.
  intros Hfree. apply findSequence_Some. split; [lia|]. split.
  - exists (pre ++ blk), rest. split; [by rewrite <- !app_assoc|].
    by rewrite length_app.
  - intros j Hj Ho.
    apply (Hfree (j - length pre)%nat); [lia|].
    replace (pre ++ blk ++ pat ++ rest) with (pre ++ (blk ++ pat) ++ rest) in Ho
      by (by rewrite <- !app_assoc).
    apply occurs_at_inside in Ho; [done | lia|].
    rewrite length_app. lia.
Qed.

Lemma slice_block pre blk rest :
  slice (pre ++ blk ++ rest) (length pre) (length pre + length blk) = blk.
Proof.
  unfold slice.
  replace (length pre + length blk - length pre)%nat with (length blk) by lia.
  by rewrite drop_app_length, take_app_length.
Qed.

Lemma part_block_head p : ∃ r, part_block p = 67 :: r.
Proof.
  unfold part_block, header_text.
  rewrite TextEncoder_encode_app by wf_literal.
  rewrite TextEncoder_encode_ascii by (apply ascii_text_str_dec; reflexivity).
  change (str "Content-Disposition: ") with (67 :: str "ontent-Disposition: ").
  rewrite <- !app_assoc, <- app_comm_cons. by eexists.
Qed.

Lemma skip_crlf_block pre p rest :
  skip_crlf (pre ++ part_block p ++ rest) (length pre) = length pre.
Proof.
  destruct (part_block_head p) as [r ->]. unfold skip_crlf.
  rewrite <- (Nat.add_0_r (length pre)) at 1.
  by rewrite at_is_app_r.
Qed.

(** The position after the separator that may follow a boundary. *)
Lemma skip_crlf_lenient pre (crlf : bool) p rest :
  skip_crlf (pre ++ (if crlf then CRLF else []) ++ part_block p ++ rest)
            (length pre)
  = length (pre ++ (if crlf then CRLF else [])).
Proof.
  destruct crlf.
  - rewrite skip_crlf_encoded, length_app. reflexivity.
  - rewrite app_nil_l, app_nil_r. apply skip_crlf_block.
Qed.

Lemma is_terminal_lenient pre boundary cp parts close :
  is_terminal (pre ++ lenient_tail boundary (cp :: parts) close) (length pre)
  = false.
Proof.
  destruct cp as [crlf p]. cbn [lenient_tail]. unfold is_terminal.
  rewrite <- (Nat.add_0_r (length pre)) at 1. rewrite at_is_app_r.
  destruct crlf; [reflexivity|].
  destruct (part_block_head p) as [r ->]. reflexivity.
Qed.

Lemma is_terminal_dashes pre epilogue :
  is_terminal (pre ++ DASH :: DASH :: epilogue) (length pre) = true.
Proof.
  unfold is_terminal. rewrite <- (Nat.add_0_r (length pre)) at 1.
  by rewrite !at_is_app_r.
Qed.

Lemma occurs_at_suffix pre d s j :
  (length pre ≤ j)%nat → occurs_at (pre ++ d) s j → occurs_at d s (j - length pre).
Proof.
  intros Hle Ho. rewrite <- (app_nil_r d) in Ho.
  apply occurs_at_inside in Ho; [done..|].
  apply occurs_at_length in Ho. rewrite !length_app in Ho. simpl in Ho. lia.
Qed.

Lemma loop_lenient boundary parts close :
  Forall (λ cp, encodable boundary cp.2) parts → parts ≠ [] →
  (∃ epilogue, close = DASH :: DASH :: epilogue) ∨
  (∀ j, ¬ occurs_at close (boundary_pattern boundary) j) →
  ∀ pre acc fuel, (length parts < fuel)%nat →
    loop ul fuel (pre ++ lenient_tail boundary parts close)
         (boundary_pattern boundary) (length pre) acc
    = Some (acc ++ parts.*2).
Proof.
  intros Hall Hne Hclose. revert Hne.
  induction Hall as [|[crlf p] parts [Hhdr Hfree] Hall IH]; [done|].
  intros _ pre acc fuel Hfuel. destruct fuel as [|fuel]; [simpl in Hfuel; lia|].
  cbn [lenient_tail].
  set (pat := boundary_pattern boundary) in *.
  set (sep := if crlf then CRLF else []).
  set (rest := lenient_tail boundary parts close).
  cbn [snd] in Hhdr, Hfree.
  assert (length pre < length (pre ++ sep ++ part_block p ++ pat ++ rest))%nat as Hlt.
  { rewrite !length_app. destruct (part_block_head p) as [r ->]. simpl. lia. }
  assert (skip_crlf (pre ++ sep ++ part_block p ++ pat ++ rest) (length pre)
          = length (pre ++ sep)) as Hskip by apply skip_crlf_lenient.
  assert (pre ++ sep ++ part_block p ++ pat ++ rest
          = (pre ++ sep) ++ part_block p ++ pat ++ rest) as Hbody
    by (by rewrite <- app_assoc).
  rewrite (loop_step ul fuel _ pat (length pre) acc
             (length (pre ++ sep) + length (part_block p)) Hlt).
  2:{ rewrite Hskip, Hbody. by apply findBoundary_block. }
  cbv zeta. rewrite Hskip, Hbody, slice_block.
  rewrite (parsePart_encoded ul p Hhdr).
  replace (length (pre ++ sep) + length (part_block p) + length pat)%nat
    with (length ((pre ++ sep) ++ part_block p ++ pat))
    by (rewrite !length_app; lia).
  replace ((pre ++ sep) ++ part_block p ++ pat ++ rest)
    with (((pre ++ sep) ++ part_block p ++ pat) ++ rest)
    by (by rewrite <- !app_assoc).
  subst rest. rewrite fmap_cons. cbn [snd].
  destruct parts as [|cp parts].
  - cbn [lenient_tail fmap list_fmap].
    destruct Hclose as [[epilogue ->] | Hno].
    + by rewrite is_terminal_dashes.
    + destruct (is_terminal _ _); [done|].
      destruct fuel as [|fuel]; [simpl in Hfuel; lia|].
      apply loop_no_further_boundary. intros j Hj Ho.
      apply occurs_at_suffix in Ho; [|done]. by apply (Hno _ Ho).
  - rewrite is_terminal_lenient.
    rewrite IH; [|done|simpl in *; lia].
    by rewrite <- app_assoc.
Qed.

Lemma lenient_tail_length boundary parts close :
  (length parts ≤ length (lenient_tail boundary parts close))%nat.
Proof.
  induction parts as [|[crlf p] parts IH]; [simpl; lia|].
  cbn [lenient_tail length]. rewrite !length_app.
  destruct (part_block_head p) as [r ->]. simpl. lia.
Qed.

(** X8.  The round trip holds for the bodies that producers write with more
    freedom: bytes before the first boundary (in which, followed by the
    pattern, the pattern occurs at the end only), the CR LF after a boundary
    left out or not, part by part, and after the last boundary either two
    dashes followed by any bytes at all (when there is a part) or bytes in
    which the pattern does not occur.  The parts come back in order. *)
Theorem lenient_round_trip (preamble boundary : list Z)
    (parts : list (bool * Part)) (close : list Z) :
  boundary_free (boundary_pattern boundary) preamble →
  Forall (λ cp, encodable boundary cp.2) parts →
  (parts ≠ [] ∧ ∃ epilogue, close = DASH :: DASH :: epilogue) ∨
  (∀ j, ¬ occurs_at close (boundary_pattern boundary) j) →
  parseMultipartParts ul (lenient_body preamble boundary parts close) boundary
  = Some parts.*2.
Proof.
  intros Hpre Hall Hclose. unfold parseMultipartParts, parseMultipartParts_fuel.
  unfold lenient_body.
  set (pat := boundary_pattern boundary) in *.
  pose proof (findBoundary_block [] preamble pat
                (lenient_tail boundary parts close) Hpre) as Hf.
  cbn [app length Nat.add] in Hf. rewrite Hf.
  replace (length preamble + length pat)%nat with (length (preamble ++ pat))
    by (by rewrite length_app).
  rewrite (app_assoc preamble pat).
  destruct parts as [|cp parts].
  - cbn [lenient_tail fmap list_fmap].
    destruct Hclose as [[Hne _] | Hno]; [done|].
    apply loop_no_further_boundary. intros j Hj Ho.
    apply occurs_at_suffix in Ho; [|done]. by apply (Hno _ Ho).
  - apply (loop_lenient boundary (cp :: parts) close Hall ltac:(done)).
    + destruct Hclose as [[_ ?] | ?]; [by left | by right].
    + pose proof (lenient_tail_length boundary (cp :: parts) close).
      rewrite !length_app. pose proof (boundary_pattern_length boundary).
      fold pat in H0. lia.
Qed.

End Lenient.

(** X7 on [body_unclosed], where the pattern stands at index 0 only. *)
Lemma unclosed_part_is_lost_witness :
  parseMultipartParts no_case_mapping body_unclosed (str "B") = Some [].
Proof.
  apply (unclosed_part_is_lost no_case_mapping body_unclosed (str "B") 0).
  - apply findSequence_first. vm_compute. reflexivity.
  - intros j Hj. apply (proj1 (findSequence_None _ _ 1%nat)); [|lia].
    vm_compute. reflexivity.
Defined.

Lemma boundary_free_dec pat blk :
  findSequence (blk ++ pat) pat 0 = Some (length blk) → boundary_free pat blk.
Proof.
  intros (_ & _ & Hfirst)%findSequence_Some k Hk. apply Hfirst. lia.
Qed.

(** X8 on [lenient_example]. *)
Lemma lenient_round_trip_witness :
  parseMultipartParts no_case_mapping lenient_example (str "B")
  = Some [field_part; file_part].
Proof.
  apply (lenient_round_trip no_case_mapping (str "preamble" ++ CRLF) (str "B")
           [(true, field_part); (false, file_part)]
           (str "--" ++ CRLF ++ str "epilogue --B" ++ CRLF ++ str "more")).
  - apply boundary_free_dec. vm_compute. reflexivity.
  - apply Forall_cons_2; [|apply Forall_cons_2; [|apply Forall_nil_2]];
      apply encodableb_sound; vm_compute; reflexivity.
  - left. split; [done|]. eexists. reflexivity.
Defined.

(** ** The terminal boundary *)

Section TerminalBoundary.
Variable ul : list Z → list Z.

(** The bytes of a body below index [n] are those of any body that begins
    with its first [n] bytes. *)
Lemma at_is_front d n e k v :
  (k < n ≤ length d)%nat → at_is (take n d ++ e) k v = at_is d k v.
Proof.
  intros Hk. unfold at_is.
  rewrite lookup_app_l by (rewrite length_take; lia).
  by rewrite lookup_take_lt by lia.
Qed.

Lemma drop_take_front (d : list Z) n j :
  (j ≤ n)%nat → drop j (take n d) = take (n - j) (drop j d).
Proof.
  intros Hj. rewrite take_drop_commute. do 2 f_equal. lia.
Qed.

Lemma occurs_at_front d n e s j :
  (j + length s ≤ n ≤ length d)%nat →
  occurs_at (take n d ++ e) s j ↔ occurs_at d s j.
Proof.
  intros Hj. rewrite !occurs_at_alt.
  assert (take (length s) (drop j (take n d ++ e)) = take (length s) (drop j d))
    as ->.
  { rewrite drop_app_le by (rewrite length_take; lia).
    rewrite take_app_le by (rewrite length_drop, length_take; lia).
    rewrite drop_take_front, take_take by lia.
    f_equal. lia. }
  rewrite length_app, length_take. split; intros [? ?]; split; (lia || done).
Qed.

Lemma slice_front d n e start stop :
  (start ≤ stop ≤ n)%nat → (n ≤ length d)%nat →
  slice (take n d ++ e) start stop = slice d start stop.
Proof.
  intros Hs Hn. unfold slice.
  rewrite drop_app_le by (rewrite length_take; lia).
  rewrite take_app_le by (rewrite length_drop, length_take; lia).
  rewrite drop_take_front, take_take by lia. f_equal. lia.
Qed.

Lemma is_terminal_in_bounds d position :
  is_terminal d position = true → (position + 1 < length d)%nat.
Proof.
  unfold is_terminal, at_is. intros H. apply andb_true_iff in H as [_ H].
  destruct (d !! (position + 1)%nat) as [b|] eqn:Hb; [|done].
  by apply lookup_lt_Some in Hb.
Qed.

Lemma skip_crlf_bounds d position :
  (position ≤ skip_crlf d position ≤ position + 2)%nat.
Proof. unfold skip_crlf. destruct (_ && _); lia. Qed.

(** C7.  The test for the terminal boundary is the one that the loop makes
    after a boundary that its search has matched (lines 74 and 87 to 92).
    Whenever the search of an iteration matches a boundary and the two bytes
    after it are dashes, the iteration ends the loop, and with it the parse:
    the result is the parts gathered so far, and the part of the block that
    this boundary closes when the block gives one.  The two bytes tested are
    inside the buffer.  Nothing after them is read: a body with any other
    bytes after the two dashes, or with none, gives the same parts, so the
    epilogue gives no part. *)
Theorem terminal_boundary_stops_the_parse
    (uint8Array boundaryBytes : list Z) (position : nat) (parts : list Part)
    (nextBoundaryPos : nat) :
  (position < length uint8Array)%nat →
  findBoundary uint8Array boundaryBytes (skip_crlf uint8Array position)
    = Some nextBoundaryPos →
  is_terminal uint8Array (nextBoundaryPos + length boundaryBytes) = true →
  (nextBoundaryPos + length boundaryBytes + 1 < length uint8Array)%nat ∧
  ∃ parts',
    parts' = match parsePart ul (block_of uint8Array position nextBoundaryPos) with
             | Some part => parts ++ [part]
             | None => parts
             end ∧
    loop_body ul uint8Array boundaryBytes position parts = Break parts' ∧
    (∀ fuel, loop ul (S fuel) uint8Array boundaryBytes position parts
             = Some parts') ∧
    ∀ epilogue fuel,
      loop ul (S fuel)
           (take (nextBoundaryPos + length boundaryBytes + 2) uint8Array
            ++ epilogue)
           boundaryBytes position parts
      = Some parts'.
Proof.
  intros Hlt Hf Ht.
  pose proof (is_terminal_in_bounds _ _ Ht) as Hin.
  split; [done|]. eexists. split; [reflexivity|].
  split; [|split].
  - rewrite (loop_body_found ul _ _ _ _ _ Hf). cbv zeta. by rewrite Ht.
  - intros fuel. rewrite (loop_step ul _ _ _ _ _ _ Hlt Hf). cbv zeta.
    by rewrite Ht.
  - intros epilogue fuel.
    set (n := (nextBoundaryPos + length boundaryBytes + 2)%nat).
    pose proof (skip_crlf_bounds uint8Array position) as Hskip.
    apply findSequence_Some in Hf as Hf'. destruct Hf' as (Hle & Ho & Hfirst).
    assert (skip_crlf (take n uint8Array ++ epilogue) position
            = skip_crlf uint8Array position) as Hsk.
    { unfold skip_crlf. rewrite !at_is_front by (unfold n; lia). done. }
    assert (findBoundary (take n uint8Array ++ epilogue) boundaryBytes
              (skip_crlf (take n uint8Array ++ epilogue) position)
            = Some nextBoundaryPos) as Hf2.
    { rewrite Hsk. apply findSequence_Some. split; [done|]. split.
      - apply occurs_at_front; [unfold n; lia | done].
      - intros j Hj Hoj. apply (Hfirst j Hj).
        apply occurs_at_front in Hoj; [done | unfold n; lia]. }
    assert (position < length (take n uint8Array ++ epilogue))%nat as Hlt2.
    { rewrite length_app, length_take. unfold n. lia. }
    rewrite (loop_step ul _ _ _ _ _ _ Hlt2 Hf2). cbv zeta.
    unfold is_terminal. rewrite !at_is_front by (unfold n; lia).
    fold (is_terminal uint8Array (nextBoundaryPos + length boundaryBytes)).
    rewrite Ht, Hsk. unfold block_of.
    rewrite slice_front; [done | unfold n; lia | unfold n; lia].
Qed.

End TerminalBoundary.

(** C7 on [empty_filename_body]: the iteration that starts after the first
    boundary, at index 3, finds the next boundary at index 107, with two
    dashes after it. *)
Lemma terminal_boundary_stops_the_parse_witness :
  (107 + length (str "--B") + 1 < length empty_filename_body)%nat ∧
  ∃ parts',
    parts' = match parsePart no_case_mapping (block_of empty_filename_body 3 107) with
             | Some part => [] ++ [part]
             | None => []
             end ∧
    loop_body no_case_mapping empty_filename_body (str "--B") 3 [] = Break parts' ∧
    (∀ fuel, loop no_case_mapping (S fuel) empty_filename_body (str "--B") 3 []
             = Some parts') ∧
    ∀ epilogue fuel,
      loop no_case_mapping (S fuel)
           (take (107 + length (str "--B") + 2) empty_filename_body ++ epilogue)
           (str "--B") 3 []
      = Some parts'.
Proof.
  apply (terminal_boundary_stops_the_parse no_case_mapping
           empty_filename_body (str "--B") 3 [] 107).
  - vm_compute. lia.
  - vm_compute. reflexivity.
  - vm_compute. reflexivity.
Defined.

(** ** Parts with an empty file name *)

Section EmptyFilename.
Variable ul : list Z → list Z.

(** The form of a body that has one block between its boundary and the
    terminal boundary. *)
Lemma form_of_one_block header boundary block epilogue p :
  extract_boundary header = inr boundary →
  boundary_free (boundary_pattern boundary) block →
  parsePart ul block = Some p →
  parseMultipartFormData ul
    (mkRequest header
       (boundary_pattern boundary ++ CRLF ++ block
        ++ boundary_pattern boundary ++ DASH :: DASH :: epilogue))
  = Some (Returns (append_part [] p)).
Proof.
  intros Hb Hfree Hp. unfold parseMultipartFormData. cbn [content_type_header body].
  rewrite Hb. unfold parseMultipartParts, parseMultipartParts_fuel. cbv zeta.
  set (pat := boundary_pattern boundary).
  rewrite findBoundary_at_start. rewrite Nat.add_0_l.
  assert (findBoundary (pat ++ CRLF ++ block ++ pat ++ DASH :: DASH :: epilogue)
            pat (skip_crlf (pat ++ CRLF ++ block ++ pat ++ DASH :: DASH :: epilogue)
                   (length pat))
          = Some (length pat + 2 + length block)%nat) as Hf.
  { rewrite skip_crlf_encoded. by apply findBoundary_encoded. }
  assert (length pat
          < length (pat ++ CRLF ++ block ++ pat ++ DASH :: DASH :: epilogue))%nat
    as Hlt by (rewrite !length_app; simpl; lia).
  rewrite (loop_step ul _ _ _ _ _ _ Hlt Hf).
  cbv zeta. rewrite skip_crlf_encoded, slice_encoded, Hp.
  assert (is_terminal (pat ++ CRLF ++ block ++ pat ++ DASH :: DASH :: epilogue)
            (length pat + 2 + length block + length pat) = true) as ->.
  { replace (pat ++ CRLF ++ block ++ pat ++ DASH :: DASH :: epilogue)
      with ((pat ++ CRLF ++ block ++ pat) ++ DASH :: DASH :: epilogue)
      by (by rewrite <- !app_assoc).
    replace (length pat + 2 + length block + length pat)%nat
      with (length (pat ++ CRLF ++ block ++ pat))
      by (rewrite !length_app; simpl; lia).
    apply is_terminal_dashes. }
  reflexivity.
Qed.

(** C10.  When the Content-Disposition of a part block has the attribute
    filename with an empty quoted value, and has the text filename= with a
    quoted value that is not empty nowhere, the block gives a part with
    filename [null]: its name is the value of the first quoted name of the
    header (the empty string without one), its payload the bytes after the
    separator less one final CR LF, and the form receives that payload as a
    string, decoded from UTF-8, under that name, not as a File.  So it is
    for the form of a request whose body has this block only. *)
Theorem empty_filename_is_a_field (block : list Z)
    (i : nat) (cd pre post : list Z) :
  first_occurrence block CRLFCRLF i →
  parseHeaders ul (TextDecoder_decode (take i block))
    !! str "content-disposition" = Some cd →
  cd = pre ++ attr_open (str "filename") ++ DQUOTE :: post →
  ¬ has_quoted_attr (str "filename") cd →
  ∃ p, parsePart ul block = Some p ∧ filename p = None ∧
       (¬ has_quoted_attr (str "name") cd → name p = []) ∧
       (∀ j v, quoted_attr_at (str "name") cd j v →
               (∀ j' v', (j' < j)%nat → ¬ quoted_attr_at (str "name") cd j' v') →
               name p = v) ∧
       payload_of (drop (i + 4) block) (data p) ∧
       (∀ formData,
          append_part formData p =
            formData ++ [(name p, StringValue (TextDecoder_decode (data p)))]) ∧
       ∀ header boundary epilogue,
         extract_boundary header = inr boundary →
         boundary_free (boundary_pattern boundary) block →
         parseMultipartFormData ul
           (mkRequest header
              (boundary_pattern boundary ++ CRLF ++ block
               ++ boundary_pattern boundary ++ DASH :: DASH :: epilogue))
         = Some (Returns [(name p, StringValue (TextDecoder_decode (data p)))]).
Proof.
  intros Hi Hcd Hshape Hno.
  apply match_quoted_None in Hno.
  assert (cd ≠ []) as Hne by (intros ->; by destruct pre).
  destruct (parsePart ul block) as [p|] eqn:Hp.
  2:{ exfalso. assert (is_Some (parsePart ul block)) as [p Hp']; [|congruence].
      eexists. apply parsePart_Some. exists i, cd. cbv zeta. done. }
  exists p. split; [done|].
  pose proof Hp as Hp'.
  apply parsePart_Some in Hp' as (i' & cd' & Hi' & Hcd' & _ & Hpe).
  apply findSequence_first in Hi, Hi'. assert (i' = i) as -> by congruence.
  cbv zeta in Hcd', Hpe. assert (cd' = cd) as -> by congruence.
  assert (filename p = None) as Hfile by (rewrite Hpe; cbn [filename]; done).
  assert (∀ formData,
            append_part formData p =
              formData ++ [(name p, StringValue (TextDecoder_decode (data p)))])
    as Happend.
  { intros formData. unfold append_part. by rewrite Hfile. }
  split; [done|]. split.
  { intros Hnn. apply match_quoted_None in Hnn.
    rewrite Hpe. cbn [name]. by rewrite Hnn. }
  split.
  { intros j v Hat Hfirst.
    assert (match_quoted (str "name") cd = Some v) as Hm
      by (apply match_quoted_Some; by exists j).
    rewrite Hpe. cbn [name]. by rewrite Hm. }
  split; [rewrite Hpe; cbn [data]; apply content_end_payload|].
  split; [done|].
  intros header boundary epilogue Hb Hfree.
  rewrite (form_of_one_block _ _ _ _ _ Hb Hfree Hp). by rewrite Happend.
Qed.

End EmptyFilename.

Lemma B_is_the_boundary :
  extract_boundary (Some (str "multipart/form-data; boundary=B")) = inr (str "B").
Proof. vm_compute. reflexivity. Qed.

(** Whether a pattern occurs in a block before its end can be computed. *)
Lemma boundary_free_by_search pat blk :
  findSequence (blk ++ pat) pat 0 = Some (length blk) → boundary_free pat blk.
Proof.
  intros H. apply findSequence_Some in H as (_ & _ & Hfirst).
  intros k Hk. apply Hfirst. lia.
Qed.

(** C10 on [empty_filename_block], whose header block ends at index 93: the
    part has the name f and the payload abc, and the form of
    [empty_filename_body] is the field f with the string abc. *)
Lemma empty_filename_is_a_field_witness :
  ∃ p, parsePart no_case_mapping empty_filename_block = Some p ∧
       filename p = None ∧ name p = str "f" ∧ data p = str "abc" ∧
       (∀ formData,
          append_part formData p =
            formData ++ [(name p, StringValue (TextDecoder_decode (data p)))]) ∧
       parseMultipartFormData no_case_mapping
         (mkRequest (Some (str "multipart/form-data; boundary=B"))
            (boundary_pattern (str "B") ++ CRLF ++ empty_filename_block
             ++ boundary_pattern (str "B") ++ DASH :: DASH :: CRLF))
       = Some (Returns [(name p, StringValue (TextDecoder_decode (data p)))]).
Proof.
  destruct (empty_filename_is_a_field no_case_mapping empty_filename_block 93
              (str "form-data; name=" ++ quoted (str "f") ++ str "; filename=" ++ quoted [])
              (str "form-data; name=" ++ quoted (str "f") ++ str "; ") [])
    as (p & Hp & Hfile & _ & Hname & Hdata & Happend & Hform).
  - apply findSequence_first. vm_compute. reflexivity.
  - vm_compute. reflexivity.
  - vm_compute. reflexivity.
  - apply match_quoted_None. vm_compute. reflexivity.
  - exists p. split; [exact Hp|]. split; [exact Hfile|].
    assert (parsePart no_case_mapping empty_filename_block
            = Some {| name := str "f"; filename := None;
                      contentType := Some (str "application/octet-stream");
                      data := str "abc" |}) as Hq by (vm_compute; reflexivity).
    rewrite Hq in Hp. injection Hp as <-. cbn [name data] in *.
    split; [reflexivity|]. split; [reflexivity|]. split; [exact Happend|].
    apply Hform; [apply B_is_the_boundary|].
    apply boundary_free_by_search. vm_compute. reflexivity.
Defined.

Lemma empty_filename_in_two_filenames :
  two_filenames_header
  = (str "form-data; name=" ++ quoted (str "f") ++ str "; ")
    ++ attr_open (str "filename") ++ DQUOTE
    :: (str "; filename=" ++ quoted (str "x.bin")).
Proof. vm_compute. reflexivity. Qed.

(** C10, as the specification words it, fails: the Content-Disposition of
    [two_filenames_block] has the attribute filename with an empty quoted
    value, and then once more with the value x.bin; the part has that file
    name, and the form receives a File, not a string. *)
Lemma empty_filename_counterexample :
  first_occurrence two_filenames_block CRLFCRLF 71 ∧
  parseHeaders no_case_mapping (TextDecoder_decode (take 71 two_filenames_block))
    !! str "content-disposition" = Some two_filenames_header ∧
  (∃ pre post, two_filenames_header
               = pre ++ attr_open (str "filename") ++ DQUOTE :: post) ∧
  parsePart no_case_mapping two_filenames_block = Some two_filenames_part ∧
  filename two_filenames_part ≠ None ∧
  append_part [] two_filenames_part
  = [(str "f", FileValue (str "abc") (str "x.bin") (str "application/octet-stream"))] ∧
  parseMultipartFormData no_case_mapping
    (mkRequest (Some (str "multipart/form-data; boundary=B")) two_filenames_body)
  = Some (Returns [(str "f", FileValue (str "abc") (str "x.bin")
                               (str "application/octet-stream"))]) ∧
  parseMultipartFormData no_case_mapping
    (mkRequest (Some (str "multipart/form-data; boundary=B")) two_filenames_body)
  ≠ Some (Returns [(str "f", StringValue (str "abc"))]).
Proof.
  split; [apply findSequence_first; vm_compute; reflexivity|].
  split; [vm_compute; reflexivity|].
  split; [eexists _, _; apply empty_filename_in_two_filenames|].
  split; [vm_compute; reflexivity|].
  split; [discriminate|].
  split; [vm_compute; reflexivity|].
  assert (parseMultipartFormData no_case_mapping
            (mkRequest (Some (str "multipart/form-data; boundary=B")) two_filenames_body)
          = Some (Returns [(str "f", FileValue (str "abc") (str "x.bin")
                                       (str "application/octet-stream"))])) as H
    by (vm_compute; reflexivity).
  split; [exact H|]. rewrite H. discriminate.
Qed.

(** ** Parts with a file name and no name *)

(** The Content-Disposition of [filename_only_block] has a file name and no
    name attribute: the pattern for the name matches the end of the
    attribute filename, and the part, like its entry in the form, has the
    file name as its name. *)
Example filename_only_part :
  parseHeaders no_case_mapping (TextDecoder_decode (take 48 filename_only_block))
    !! str "content-disposition"
  = Some (str "form-data; filename=" ++ quoted (str "x.png")) ∧
  name_only_in_filename (str "form-data; filename=" ++ quoted (str "x.png")) ∧
  parsePart no_case_mapping filename_only_block
  = Some {| name := str "x.png"; filename := Some (str "x.png");
            contentType := None; data := str "abc" |} ∧
  parseMultipartFormData no_case_mapping
    (mkRequest (Some (str "multipart/form-data; boundary=B")) filename_only_body)
  = Some (Returns [(str "x.png", FileValue (str "abc") (str "x.png")
                                   (str "application/octet-stream"))]).
Proof.
  split; [vm_compute; reflexivity|].
  split; [|split; vm_compute; reflexivity].
  intros j v Hat. apply quoted_attr_at_iff in Hat as [Hj Hat].
  change (length _) with 27%nat in Hj.
  assert (j = 15%nat) as ->.
  { do 28 (destruct j as [|j]; [first [reflexivity | vm_compute in Hat; discriminate]|]).
    lia. }
  exists (str "form-data; "). vm_compute. reflexivity.
Qed.

(** ** Bytes before the first boundary *)

Section Preamble.
Variable ul : list Z → list Z.

Lemma occurs_at_app_l pre d s k :
  occurs_at d s k → occurs_at (pre ++ d) s (length pre + k).
Proof.
  intros (a & b & -> & <-). exists (pre ++ a), b. split.
  - by rewrite <- app_assoc.
  - by rewrite length_app.
Qed.

Lemma findSequence_shift pre d s p :
  findSequence (pre ++ d) s (length pre + p)
  = (λ k, length pre + k)%nat <$> findSequence d s p.
Proof.
  destruct (findSequence d s p) as [k|] eqn:Hf; cbn [fmap option_fmap option_map].
  - apply findSequence_Some in Hf as (Hle & Ho & Hfirst).
    apply findSequence_Some. split; [lia|]. split; [by apply occurs_at_app_l|].
    intros j Hj Hoj. apply occurs_at_suffix in Hoj; [|lia].
    apply (Hfirst (j - length pre)%nat); [lia | done].
  - apply findSequence_None. intros j Hj Hoj.
    apply occurs_at_suffix in Hoj; [|lia].
    apply (proj1 (findSequence_None d s p) Hf (j - length pre)%nat); [lia | done].
Qed.

Lemma skip_crlf_shift pre d position :
  skip_crlf (pre ++ d) (length pre + position)
  = (length pre + skip_crlf d position)%nat.
Proof.
  unfold skip_crlf. rewrite <- Nat.add_assoc, !at_is_app_r.
  destruct (_ && _); lia.
Qed.

Lemma is_terminal_shift pre d position :
  is_terminal (pre ++ d) (length pre + position) = is_terminal d position.
Proof. unfold is_terminal. by rewrite <- Nat.add_assoc, !at_is_app_r. Qed.

Lemma slice_shift pre d a b :
  slice (pre ++ d) (length pre + a) (length pre + b) = slice d a b.
Proof.
  unfold slice. rewrite drop_app_ge by lia.
  replace (length pre + a - length pre)%nat with a by lia.
  by replace (length pre + b - (length pre + a))%nat with (b - a)%nat by lia.
Qed.

Lemma loop_shift pre fuel d bb position acc :
  loop ul fuel (pre ++ d) bb (length pre + position) acc
  = loop ul fuel d bb position acc.
Proof.
  revert position acc. induction fuel as [|fuel IH]; intros position acc; [done|].
  cbn [loop].
  assert ((length pre + position <? length (pre ++ d))%nat
          = (position <? length d)%nat) as ->.
  { rewrite length_app. destruct (position <? length d)%nat eqn:Hlt.
    - apply Nat.ltb_lt in Hlt. apply Nat.ltb_lt. lia.
    - apply Nat.ltb_ge in Hlt. apply Nat.ltb_ge. lia. }
  destruct (position <? length d)%nat; [|done].
  unfold loop_body, findBoundary.
  rewrite skip_crlf_shift, findSequence_shift.
  destruct (findSequence d bb (skip_crlf d position)) as [next|];
    cbn [fmap option_fmap option_map]; [|done].
  rewrite slice_shift, <- Nat.add_assoc, is_terminal_shift.
  destruct (is_terminal d (next + length bb)); [done|]. apply IH.
Qed.

Lemma loop_more_fuel fuel fuel' d bb position acc :
  (0 < length bb)%nat → (length d - position < fuel)%nat → (fuel ≤ fuel')%nat →
  loop ul fuel' d bb position acc = loop ul fuel d bb position acc.
Proof.
  intros Hbb Hfuel Hle.
  destruct (loop_terminates ul fuel d bb position acc Hbb Hfuel) as [r Hr].
  rewrite Hr. by apply (loop_fuel_mono ul fuel).
Qed.

(** X9.  Bytes before the first boundary do not change the result, whatever
    follows that boundary, as long as they do not make the boundary pattern
    occur earlier. *)
Theorem preamble_is_ignored (preamble rest boundary : list Z) :
  boundary_free (boundary_pattern boundary) preamble →
  parseMultipartParts ul (preamble ++ boundary_pattern boundary ++ rest) boundary
  = parseMultipartParts ul (boundary_pattern boundary ++ rest) boundary.
Proof.
  intros Hfree. unfold parseMultipartParts, parseMultipartParts_fuel.
  set (pat := boundary_pattern boundary) in *.
  pose proof (findBoundary_block [] preamble pat rest Hfree) as Hf.
  cbn [app length Nat.add] in Hf. rewrite Hf, findBoundary_at_start.
  rewrite loop_shift. cbn [Nat.add].
  pose proof (boundary_pattern_length boundary) as Hlen. fold pat in Hlen.
  apply loop_more_fuel; [lia.. |].
  rewrite !length_app. lia.
Qed.

End Preamble.

(** X9 with a preamble before [body_with_malformed_block]. *)
Lemma preamble_is_ignored_witness :
  parseMultipartParts no_case_mapping
    ((str "This is a preamble." ++ CRLF)
     ++ boundary_pattern (str "B") ++ drop 3 body_with_malformed_block) (str "B")
  = parseMultipartParts no_case_mapping
      (boundary_pattern (str "B") ++ drop 3 body_with_malformed_block) (str "B").
Proof.
  apply (preamble_is_ignored no_case_mapping (str "This is a preamble." ++ CRLF)).
  apply boundary_free_dec. vm_compute. reflexivity.
Defined.

(** ** The form *)

Section Form.
Variable ul : list Z → list Z.

Local Arguments str : simpl never.

Lemma append_part_entry formData p :
  filename p ≠ Some [] → contentType p ≠ Some [] →
  append_part formData p = formData ++ [form_entry p].
Proof.
  unfold append_part, form_entry.
  destruct (filename p) as [[|c f]|]; [done| |done].
  destruct (contentType p) as [[|d t]|]; done.
Qed.

Lemma foldl_append_part formData parts :
  Forall (λ p, filename p ≠ Some [] ∧ contentType p ≠ Some []) parts →
  foldl append_part formData parts = formData ++ (form_entry <$> parts).
Proof.
  intros Hall. revert formData.
  induction Hall as [|p parts [Hf Ht] _ IH]; intros formData.
  - by rewrite app_nil_r.
  - cbn [foldl]. rewrite IH, append_part_entry by done.
    by rewrite <- app_assoc.
Qed.

Lemma parsed_parts_fields d boundary parts :
  parseMultipartParts ul d boundary = Some parts →
  Forall (λ p, filename p ≠ Some [] ∧ contentType p ≠ Some []) parts.
Proof.
  intros Hparts. apply Forall_forall. intros p Hp.
  apply parseMultipartParts_emitted in Hparts.
  destruct (emitted_from_elem ul _ _ _ _ _ Hparts Hp) as (start & stop & _ & Hq).
  destruct (parsePart_fields_hold ul _ _ Hq) as (_ & Hf & Ht & _).
  split; intros H.
  - by destruct (Hf _ H).
  - by destruct (Ht _ H).
Qed.

Lemma forallb_false_elem (f : Z → bool) (l : list Z) :
  forallb f l = false → ∃ c, c ∈ l ∧ f c = false.
Proof.
  induction l as [|c l IH]; [done|]. cbn [forallb].
  destruct (f c) eqn:Hc; cbn [andb].
  - intros (c' & Hin & Hc')%IH. exists c'. split; [by right | done].
  - intros _. exists c. split; [by left | done].
Qed.

(** The [type] attribute of a [File] made with a [type] option that is not
    empty is empty exactly when the option has a character outside U+0020
    to U+007E. *)
Lemma File_type_empty t :
  t ≠ [] → File_type t = [] ↔ ∃ c, c ∈ t ∧ ¬ (32 ≤ c ≤ 126).
Proof.
  intros Hne. unfold File_type.
  destruct (forallb _ t) eqn:Hall.
  - split.
    + intros H. by destruct t.
    + intros (c & Hin & Hout). exfalso. apply Hout.
      rewrite forallb_forall in Hall.
      specialize (Hall c (proj1 (list_elem_of_In _ _) Hin)). cbn beta in Hall. lia.
  - split; [|done]. intros _.
    apply forallb_false_elem in Hall as (c & Hin & Hc).
    exists c. split; [done|]. lia.
Qed.

(** X10.  The form that [parseMultipartFormData] returns has one entry for
    every part that [parseMultipartParts] returns for the boundary of the
    header, in the same order and under the name of the part: a [File] for a
    part with a file name, a string for a part without.  A [File] of the
    form never has an empty name, and is never made with an empty [type]
    option; its [type] attribute, which is that option in lower case, is
    empty exactly when the option has a character outside U+0020 to U+007E.
    Its bytes are a run of consecutive bytes of the body. *)
Theorem form_has_the_parts (request : Request) (formData : FormData) :
  parseMultipartFormData ul request = Some (Returns formData) →
  ∃ boundary parts,
    extract_boundary (content_type_header request) = inr boundary ∧
    parseMultipartParts ul (body request) boundary = Some parts ∧
    formData = form_entry <$> parts ∧
    ∀ n bits f t, (n, FileValue bits f t) ∈ formData →
      f ≠ [] ∧ t ≠ [] ∧
      (File_type t = [] ↔ ∃ c, c ∈ t ∧ ¬ (32 ≤ c ≤ 126)) ∧
      ∃ i, occurs_at (body request) bits i.
Proof.
  unfold parseMultipartFormData.
  destruct (extract_boundary (content_type_header request)) as [m|boundary];
    [done|].
  destruct (parseMultipartParts ul (body request) boundary) as [parts|] eqn:Hparts;
    [|done].
  intros [= <-]. exists boundary, parts. split; [done|]. split; [done|].
  pose proof (parsed_parts_fields _ _ _ Hparts) as Hall.
  rewrite foldl_append_part by done. cbn [app]. split; [done|].
  intros n bits f t Hin.
  apply list_elem_of_fmap in Hin as (p & Hentry & Hp).
  unfold form_entry in Hentry.
  destruct (filename p) as [f'|] eqn:Hf; [|done].
  injection Hentry as -> -> -> ->.
  pose proof Hparts as Hem. apply parseMultipartParts_emitted in Hem.
  destruct (emitted_from_elem ul _ _ _ _ _ Hem Hp) as (start & stop & Hfind & Hq).
  destruct (parsePart_fields_hold ul _ _ Hq) as (_ & Hfn & Ht & _).
  split; [by destruct (Hfn _ Hf)|].
  assert (default (str "application/octet-stream") (contentType p) ≠ [])
    as Htype.
  { destruct (contentType p) as [t|] eqn:Hct; cbn [default].
    - by destruct (Ht _ eq_refl).
    - done. }
  split; [done|]. split; [by apply File_type_empty|].
  - assert (0 < length (boundary_pattern boundary))%nat as Hlen.
    { pose proof (boundary_pattern_length boundary). lia. }
    by destruct (emitted_payload_boundary_free ul _ _ start stop p Hlen Hfind Hq)
      as [Hocc _].
Qed.

End Form.

(** X10 on [example_request], which gives [example_form]. *)
Lemma form_has_the_parts_witness :
  ∃ boundary parts,
    extract_boundary (content_type_header example_request) = inr boundary ∧
    parseMultipartParts no_case_mapping (body example_request) boundary
      = Some parts ∧
    example_form = form_entry <$> parts ∧
    ∀ n bits f t, (n, FileValue bits f t) ∈ example_form →
      f ≠ [] ∧ t ≠ [] ∧
      (File_type t = [] ↔ ∃ c, c ∈ t ∧ ¬ (32 ≤ c ≤ 126)) ∧
      ∃ i, occurs_at (body example_request) bits i.
Proof.
  apply (form_has_the_parts no_case_mapping example_request example_form).
  vm_compute. reflexivity.
Defined.

(** A declared type with a character outside that range (here U+00E9): the
    [File] is made with it, and its [type] attribute is empty. *)
Example File_type_of_non_ascii :
  File_type (str "image/caf" ++ [233]) = [] ∧
  File_type (str "Image/PNG") = str "image/png".
Proof. split; reflexivity. Qed.

(** ** From the request to the form *)

Section FormRoundTrip.
Variable ul : list Z → list Z.

Lemma trim_plain b : no_outer_space b → trim b = b.
Proof.
  intros [Hhead Hlast]. apply trimmed_unique.
  exists [], []. rewrite app_nil_r. split; [done|].
  split; [apply Forall_nil_2|]. split; [apply Forall_nil_2 | done].
Qed.

Lemma strip_quotes_plain b :
  (∀ c r, b = c :: r → is_quote c = false) →
  (∀ r c, b = r ++ [c] → is_quote c = false) →
  strip_last_quote (strip_first_quote b) = b.
Proof.
  intros Hhead Hlast.
  assert (strip_first_quote b = b) as ->.
  { destruct b as [|c r]; [done|]. cbn [strip_first_quote].
    by rewrite (Hhead c r eq_refl). }
  unfold strip_last_quote. destruct (reverse b) as [|c r] eqn:Hrev.
  - apply (f_equal reverse) in Hrev. by rewrite reverse_involutive in Hrev.
  - apply (f_equal reverse) in Hrev.
    rewrite reverse_involutive, reverse_cons in Hrev.
    by rewrite (Hlast (reverse r) c Hrev).
Qed.

Lemma no_boundary_param_before b j :
  (j < 21)%nat →
  ¬ boundary_param_at (str "multipart/form-data; boundary=" ++ b) j.
Proof.
  intros Hj [v Hv]%boundary_param_at_iff. revert Hv.
  do 21 (destruct j as [|j]; [discriminate|]). lia.
Qed.

Lemma extract_plain_boundary b :
  plain_boundary b →
  extract_boundary (Some (str "multipart/form-data; boundary=" ++ b)) = inr b.
Proof.
  intros (Hne & Hsemi & Hspace & Hhead & Hlast).
  rewrite (extract_boundary_value _ b).
  - by rewrite trim_plain, strip_quotes_plain.
  - exists [], (str "; boundary=" ++ b). reflexivity.
  - exists (str "multipart/form-data; "), (str "boundary="), [].
    split; [by rewrite app_nil_r|]. split; [reflexivity|].
    split; [done|]. split; [done|]. split; [done|].
    intros j Hj. by apply no_boundary_param_before.
Qed.

Lemma parse_encoded boundary parts :
  Forall (encodable boundary) parts →
  parseMultipartParts ul (encode_multipart boundary parts) boundary = Some parts.
Proof.
  intros Hall. unfold parseMultipartParts, parseMultipartParts_fuel.
  rewrite encode_multipart_tail, findBoundary_at_start. cbn [Nat.add].
  destruct parts as [|p parts].
  - cbn [encoded_tail]. rewrite length_app. simpl length.
    replace (S (length (boundary_pattern boundary) + 2))
      with (S (S (S (length (boundary_pattern boundary))))) by lia.
    apply loop_no_parts.
  - apply (loop_encoded ul boundary (p :: parts) Hall ltac:(done)
             (boundary_pattern boundary) []).
    pose proof (encoded_tail_length boundary (p :: parts)).
    rewrite length_app. lia.
Qed.

Lemma encodable_fields boundary parts :
  Forall (encodable boundary) parts →
  Forall (λ p, filename p ≠ Some [] ∧ contentType p ≠ Some []) parts.
Proof.
  intros Hall. eapply Forall_impl; [exact Hall|].
  intros p [(_ & _ & _ & Hf & Ht) _]. split.
  - intros H. rewrite H in Hf. by destruct Hf as (_ & ? & _).
  - intros H. rewrite H in Ht. by destruct Ht as (_ & ? & _).
Qed.

Lemma form_of_encoded boundary parts :
  plain_boundary boundary → Forall (encodable boundary) parts →
  parseMultipartFormData ul
    (mkRequest (Some (str "multipart/form-data; boundary=" ++ boundary))
               (encode_multipart boundary parts))
  = Some (Returns (form_entry <$> parts)).
Proof.
  intros Hb Hall. unfold parseMultipartFormData.
  cbn [content_type_header body].
  rewrite (extract_plain_boundary _ Hb), (parse_encoded _ _ Hall).
  by rewrite (foldl_append_part _ _ (encodable_fields _ _ Hall)).
Qed.

End FormRoundTrip.

(** X11.  From the request to the form: for a boundary that the header
    carries unchanged and parts that the encoder can write, the request with
    the header multipart/form-data; boundary=B and the encoded body gives
    the form with one entry for each part, in order: the bytes, the file name
    and the type (application/octet-stream when none is declared) of a part
    with a file name, the decoded payload of a part without. *)
Theorem form_round_trip (ul : list Z → list Z) (boundary : list Z)
    (parts : list Part) :
  plain_boundary boundary → Forall (encodable boundary) parts →
  parseMultipartFormData ul
    (mkRequest (Some (str "multipart/form-data; boundary=" ++ boundary))
               (encode_multipart boundary parts))
  = Some (Returns (form_entry <$> parts)).
Proof. apply form_of_encoded. Qed.

Lemma plain_boundary_B : plain_boundary (str "B").
Proof.
  split; [done|]. split; [not_in_literal|].
  split; [by apply no_outer_spaceb_sound|]. split.
  - intros c r [= <- _]. reflexivity.
  - intros r c H. destruct r as [|a r].
    + injection H as <-. reflexivity.
    + by destruct r.
Qed.

(** X11 on [example_request] and [example_form]. *)
Lemma form_round_trip_witness :
  parseMultipartFormData no_case_mapping
    (mkRequest (Some (str "multipart/form-data; boundary=" ++ str "B"))
               (encode_multipart (str "B") [field_part; file_part; unicode_part]))
  = Some (Returns (form_entry <$> [field_part; file_part; unicode_part])).
Proof.
  apply (form_round_trip no_case_mapping (str "B")
           [field_part; file_part; unicode_part] plain_boundary_B).
  apply Forall_cons_2; [|apply Forall_cons_2; [|apply Forall_cons_2;
    [|apply Forall_nil_2]]]; apply encodableb_sound; vm_compute; reflexivity.
Defined.

(** * Properties of the upload handler *)

(** ** The file identifier *)

Section FileId.
Variable greater : option json → option json → bool.

Local Arguments str : simpl never.

Lemma get_throws v key : get v key = TypeError ↔ v = JNull.
Proof. by destruct v. Qed.

Lemma null_or_not (v : json) : v = JNull ∨ v ≠ JNull.
Proof. destruct v; auto. Qed.

Lemma get_returns v key : v ≠ JNull → ∃ r, get v key = Normal r.
Proof. destruct v; try done; eauto. Qed.

Lemma truthy_not_null v : truthy_value (Some v) = true → v ≠ JNull.
Proof. by intros H ->. Qed.

Lemma get_opt_truthy v key :
  truthy_value v = true → ∃ r, get_opt v key = Normal r.
Proof.
  destruct v as [v|]; [|done]. intros H%truthy_not_null.
  by apply get_returns.
Qed.

(** Induction on a value read from JSON, with the hypothesis for every item
    of an array. *)
Lemma json_nested_ind (P : json → Prop) :
  P JNull → (∀ b, P (JBool b)) → (∀ n, P (JNumber n)) → (∀ s, P (JString s)) →
  (∀ items, Forall P items → P (JArray items)) →
  (∀ members, P (JObject members)) →
  ∀ v, P v.
Proof.
  intros HN HB HNum HS HA HO. fix IH 1.
  intros [| b | n | s | items | members];
    [exact HN | apply HB | apply HNum | apply HS | | apply HO].
  apply HA. induction items as [|item items IHitems]; constructor;
    [apply IH | exact IHitems].
Qed.

Lemma completion_all_throws {A B : Type} (f : A → completion B) items :
  completion_all f items = TypeError ↔ ∃ item, item ∈ items ∧ f item = TypeError.
Proof.
  induction items as [|item rest IH]; cbn.
  - split; [done|]. intros (item & Hin & _). by apply elem_of_nil in Hin.
  - destruct (f item) as [b|] eqn:Hf; cbn.
    + destruct (completion_all f rest) as [bs|]; cbn.
      * split; [done|]. intros (item' & Hin & Hthrows).
        apply elem_of_cons in Hin as [->|Hin]; [congruence|].
        assert (@Normal (list B) bs = TypeError) as Habs; [|done].
        apply IH. by exists item'.
      * split; [|done]. intros _.
        destruct (proj1 IH eq_refl) as (item' & Hin & Hthrows).
        exists item'. split; [by right | done].
    + split; [|done]. intros _. exists item. split; [by left | done].
Qed.

(** The conversion to a string throws exactly on the values that hold an
    object with a member toString. *)
Lemma ToString_throws v : ToString v = TypeError ↔ unprintable v.
Proof.
  induction v as [| b | n | s | items IH | members] using json_nested_ind.
  - split; [done | inversion 1].
  - destruct b; (split; [done | inversion 1]).
  - split; [done | inversion 1].
  - split; [done | inversion 1].
  - cbn [ToString].
    destruct (completion_all _ items) as [strings|] eqn:Hall; cbn.
    + split; [done|]. intros Hun. inversion Hun as [|items' item Hin Hitem]; subst.
      assert (@Normal (list (list Z)) strings = TypeError) as Habs; [|done].
      rewrite <- Hall. apply completion_all_throws. exists item. split; [done|].
      rewrite Forall_forall in IH. destruct item; try (by apply IH).
      inversion Hitem.
    + split; [|done]. intros _.
      apply completion_all_throws in Hall as (item & Hin & Hthrows).
      apply (unprintable_array _ item); [done|].
      rewrite Forall_forall in IH. apply IH; [done|]. by destruct item.
  - cbn [ToString]. destruct (member (str "toString") members) as [m|] eqn:Hm.
    + split; [|done]. intros _. constructor. by rewrite Hm.
    + split; [done|]. inversion 1 as [members' [m Hm']|]; subst. congruence.
Qed.

Lemma ToPrimitive_throws v :
  ToPrimitive v = TypeError ↔ ∃ w, v = Some w ∧ unprintable w.
Proof.
  destruct v as [w|]; [|split; [done | by intros (w & ? & _)]].
  assert (ToPrimitive (Some w) = TypeError ↔ ToString w = TypeError) as ->.
  { destruct w as [| [] | | | |]; try done;
      unfold ToPrimitive; destruct (ToString _); done. }
  rewrite ToString_throws. split; [by exists w|]. by intros (? & [= <-] & ?).
Qed.

Lemma unprintable_size_get item size :
  get item (str "file_size") = Normal size →
  unprintable_size item ↔ ToPrimitive size = TypeError.
Proof.
  intros Hget. rewrite ToPrimitive_throws. unfold unprintable_size. split.
  - intros (w & Hw & Hun). exists w. split; [congruence | done].
  - intros (w & -> & Hun). by exists w.
Qed.

Lemma larger_throws prev current :
  larger greater prev current = TypeError ↔
  prev = JNull ∨ current = JNull ∨
  unprintable_size prev ∨ unprintable_size current.
Proof.
  unfold larger.
  destruct (null_or_not prev) as [->|Hp]; [split; auto|].
  destruct (get_returns prev (str "file_size") Hp) as [a Ha]. rewrite Ha. cbn.
  destruct (null_or_not current) as [->|Hc]; [split; auto|].
  destruct (get_returns current (str "file_size") Hc) as [b Hb]. rewrite Hb. cbn.
  rewrite (unprintable_size_get _ _ Ha), (unprintable_size_get _ _ Hb).
  destruct (ToPrimitive a) as [x|]; cbn; [|split; auto].
  destruct (ToPrimitive b) as [y|]; cbn; [|split; auto].
  split; [done|]. intros [?|[?|[?|?]]]; done.
Qed.

Lemma larger_returns prev current chosen :
  larger greater prev current = Normal chosen →
  (chosen = prev ∨ chosen = current) ∧ prev ≠ JNull ∧ current ≠ JNull ∧
  ¬ unprintable_size prev ∧ ¬ unprintable_size current.
Proof.
  intros Hl.
  assert (¬ (prev = JNull ∨ current = JNull ∨
             unprintable_size prev ∨ unprintable_size current)) as Hno.
  { intros H%larger_throws. congruence. }
  split; [|tauto].
  unfold larger in Hl.
  destruct (get prev (str "file_size")) as [a|]; [|done].
  destruct (get current (str "file_size")) as [b|]; [|done]. cbn in Hl.
  destruct (ToPrimitive a) as [x|]; [|done].
  destruct (ToPrimitive b) as [y|]; [|done]. cbn in Hl.
  injection Hl as <-. destruct (greater x y); auto.
Qed.

Lemma reduce_from_throws prev items key :
  (chosen ←? reduce_from greater prev items; get chosen key) = TypeError ↔
  prev = JNull ∨ JNull ∈ items ∨
  (items ≠ [] ∧ ∃ item, item ∈ prev :: items ∧ unprintable_size item).
Proof.
  revert prev. induction items as [|current rest IH]; intros prev.
  - cbn. rewrite get_throws. split; [auto|]. intros [?|[H|[? _]]]; [done| |done].
    by apply elem_of_nil in H.
  - cbn [reduce_from].
    destruct (larger greater prev current) as [chosen|] eqn:Hl; cbn.
    + apply larger_returns in Hl as (Hchosen & Hp & Hc & Hup & Huc).
      assert (chosen ≠ JNull ∧ ¬ unprintable_size chosen) as [Hn Hu]
        by (destruct Hchosen as [-> | ->]; done).
      rewrite IH. split.
      * intros [?|[Hin|(_ & item & Hin & Hbad)]]; [done| |].
        -- right. left. by right.
        -- right. right. split; [done|]. exists item. split; [|done].
           apply elem_of_cons in Hin as [->|Hin]; [done|].
           right. by right.
      * intros [?|[Hin|(_ & item & Hin & Hbad)]]; [done| |].
        -- apply elem_of_cons in Hin as [<-|Hin]; [done|]. right. by left.
        -- apply elem_of_cons in Hin as [->|Hin]; [done|].
           apply elem_of_cons in Hin as [->|Hin]; [done|].
           right. right. split; [by intros ->; apply elem_of_nil in Hin|].
           exists item. split; [by right | done].
    + split; [|done]. intros _.
      apply larger_throws in Hl as [->|[->|[Hbad|Hbad]]].
      * by left.
      * right. left. by left.
      * right. right. split; [done|]. exists prev. split; [by left | done].
      * right. right. split; [done|]. exists current.
        split; [right; by left | done].
Qed.

Lemma photo_throws photo key :
  (chosen ←? reduce greater photo; get chosen key) = TypeError ↔
  ∀ items, photo = Some (JArray items) →
           items = [] ∨ JNull ∈ items ∨
           ((2 ≤ length items)%nat ∧ ∃ item, item ∈ items ∧ unprintable_size item).
Proof.
  unfold reduce. destruct photo as [[| | | |[|first rest]|]|];
    try (split; [by intros _ items [=] | done]).
  - split; [|done]. intros _ items [= <-]. by left.
  - rewrite reduce_from_throws. split.
    + intros H items [= <-]. right. destruct H as [->|[H|(Hne & H)]].
      * left. by left.
      * left. by right.
      * right. split; [|done]. destruct rest; [done | simpl; lia].
    + intros H. destruct (H _ eq_refl) as [?|[Hin|(Hlen & Hbad)]]; [done| |].
      * apply elem_of_cons in Hin as [<-|Hin]; [by left | right; by left].
      * right. right. split; [|done]. intros ->. simpl in Hlen. lia.
Qed.

(** X12.  [getFileId] throws exactly when the answer is [null], or when its
    [ok] and [result] are truthy and [result.photo] is truthy but is not an
    array, is an empty array, is an array with [null] among its items, or
    is an array of two items or more of which one has a [file_size] that
    cannot be converted to a primitive for the comparison: an object with a
    member toString, or an array that holds one.  On every other answer it
    returns; this does not depend on how primitives are compared. *)
Theorem getFileId_throws (response : json) :
  getFileId greater response = TypeError ↔
  response = JNull ∨
  ∃ ok result photo,
    get response (str "ok") = Normal ok ∧ truthy_value ok = true ∧
    get response (str "result") = Normal result ∧
    truthy_value result = true ∧
    get_opt result (str "photo") = Normal photo ∧
    truthy_value photo = true ∧
    ∀ items, photo = Some (JArray items) →
             items = [] ∨ JNull ∈ items ∨
             ((2 ≤ length items)%nat ∧
              ∃ item size, item ∈ items ∧
                           get item (str "file_size") = Normal (Some size) ∧
                           unprintable size).
Proof.
  assert (∀ photo : option json,
            (∀ items, photo = Some (JArray items) →
               items = [] ∨ JNull ∈ items ∨
               ((2 ≤ length items)%nat ∧
                ∃ item size, item ∈ items ∧
                             get item (str "file_size") = Normal (Some size) ∧
                             unprintable size)) ↔
            (∀ items, photo = Some (JArray items) →
               items = [] ∨ JNull ∈ items ∨
               ((2 ≤ length items)%nat ∧
                ∃ item, item ∈ items ∧ unprintable_size item))) as Hsame.
  { intros photo. split; intros H items Hp;
      (destruct (H items Hp) as [?|[?|(Hlen & Hbad)]]; [by left | right; by left|]);
      right; right; (split; [done|]).
    - destruct Hbad as (item & size & ? & ? & ?). exists item. split; [done|].
      by exists size.
    - destruct Hbad as (item & ? & size & ? & ?). by exists item, size. }
  destruct (null_or_not response) as [->|Hnull]; [split; [by left | done]|].
  unfold getFileId.
  destruct (get_returns response (str "ok") Hnull) as [ok Hok].
  destruct (get_returns response (str "result") Hnull) as [result Hres].
  rewrite Hok. cbn [completion_bind].
  destruct (truthy_value ok) eqn:Tok; cbn [negb].
  2:{ split; [done|]. intros [?|(ok' & ? & ? & H & T & _)]; [done|]. congruence. }
  rewrite Hres. cbn [completion_bind].
  destruct (truthy_value result) eqn:Tres; cbn [negb].
  2:{ split; [done|].
      intros [?|(? & result' & ? & _ & _ & H & T & _)]; [done|]. congruence. }
  destruct (get_opt_truthy result (str "photo") Tres) as [photo Hphoto].
  rewrite Hphoto. cbn [completion_bind].
  destruct (truthy_value photo) eqn:Tphoto.
  - rewrite photo_throws, <- Hsame. split.
    + intros H. right. by exists ok, result, photo.
    + intros [?|(? & result' & photo' & _ & _ & Hr & _ & Hp & _ & H)]; [done|].
      assert (result' = result) as -> by congruence.
      assert (photo' = photo) as -> by congruence. done.
  - split.
    2:{ intros [?|(? & result' & photo' & _ & _ & Hr & _ & Hp & T & _)]; [done|].
        assert (result' = result) as -> by congruence.
        assert (photo' = photo) as -> by congruence. congruence. }
    destruct (get_opt_truthy result (str "document") Tres) as [document ->].
    cbn [completion_bind]. destruct (truthy_value document) eqn:Td.
    { destruct (get_opt_truthy document (str "file_id") Td) as [? ->]. done. }
    destruct (get_opt_truthy result (str "video") Tres) as [video ->].
    cbn [completion_bind]. destruct (truthy_value video) eqn:Tv.
    { destruct (get_opt_truthy video (str "file_id") Tv) as [? ->]. done. }
    destruct (get_opt_truthy result (str "audio") Tres) as [audio ->].
    cbn [completion_bind]. destruct (truthy_value audio) eqn:Ta.
    { destruct (get_opt_truthy audio (str "file_id") Ta) as [? ->]. done. }
    done.
Qed.

(** On [unprintable_answer] the comparison of the two sizes throws, and so
    does [getFileId]; with one item only nothing is compared. *)
Example getFileId_throws_on_unprintable_size :
  getFileId greater unprintable_answer = TypeError ∧
  getFileId greater
    (JObject
       [(str "ok", JBool true);
        (str "result",
         JObject
           [(str "photo",
             JArray
               [JObject [(str "file_id", JString (str "b"));
                         (str "file_size",
                          JObject [(str "toString", JNumber 1)])]])])])
  = Normal (Some (JString (str "b"))).
Proof. split; reflexivity. Qed.

End FileId.

Section LargestPhoto.
Variable greater : option json → option json → bool.
Hypothesis greater_numbers :
  ∀ a b, greater (Some (JNumber a)) (Some (JNumber b)) = (b <? a).

Local Arguments str : simpl never.

Lemma photo_size_get item n :
  photo_size item = Some n → get item (str "file_size") = Normal (Some (JNumber n)).
Proof.
  unfold photo_size. destruct (get item _) as [[[]|]|]; try done.
  by intros [= ->].
Qed.

Lemma larger_sized prev current m k :
  photo_size prev = Some m → photo_size current = Some k →
  larger greater prev current = Normal (if k <? m then prev else current).
Proof.
  intros Hm%photo_size_get Hk%photo_size_get. unfold larger.
  rewrite Hm, Hk. cbn. by rewrite greater_numbers.
Qed.

Lemma reduce_from_last_largest items seen prev :
  last_largest seen prev →
  Forall (λ e, is_Some (photo_size e)) items →
  ∃ chosen, reduce_from greater prev items = Normal chosen ∧
            last_largest (seen ++ items) chosen.
Proof.
  revert seen prev. induction items as [|current rest IH]; intros seen prev Hseen.
  - intros _. exists prev. by rewrite app_nil_r.
  - intros Hall. apply Forall_cons in Hall as [[k Hk] Hrest].
    destruct Hseen as (before & after & m & -> & Hm & Hbefore & Hafter).
    cbn [reduce_from]. rewrite (larger_sized _ _ m k Hm Hk). cbn.
    replace ((before ++ prev :: after) ++ current :: rest)
      with (((before ++ prev :: after) ++ [current]) ++ rest)
      by (by rewrite <- !app_assoc).
    apply IH; [|done]. destruct (k <? m) eqn:Hlt.
    + apply Z.ltb_lt in Hlt. exists before, (after ++ [current]), m.
      split; [by rewrite <- app_assoc|]. split; [done|]. split; [done|].
      apply Forall_app. split; [done|]. apply Forall_singleton. by exists k.
    + apply Z.ltb_ge in Hlt. exists (before ++ prev :: after), [], k.
      split; [done|]. split; [done|]. split; [|apply Forall_nil_2].
      apply Forall_app. split.
      * eapply Forall_impl; [exact Hbefore|]. intros e (j & Hj & Hle).
        exists j. split; [done | lia].
      * apply Forall_cons. split; [exists m; split; [done | lia]|].
        eapply Forall_impl; [exact Hafter|]. intros e (j & Hj & Hle).
        exists j. split; [done | lia].
Qed.

End LargestPhoto.

(** X13.  For an answer with a photo array whose items all have a number
    as [file_size], [getFileId] returns the [file_id] of the item of the
    greatest size, and of the last one among several of that size: no item
    before the chosen one is larger, and every item after it is smaller.
    The comparison is assumed to be the order of numbers on numbers. *)
Theorem getFileId_largest_photo (greater : option json → option json → bool)
    (response : json) (ok result : option json) (items : list json) :
  (∀ a b, greater (Some (JNumber a)) (Some (JNumber b)) = (b <? a)) →
  get response (str "ok") = Normal ok → truthy_value ok = true →
  get response (str "result") = Normal result → truthy_value result = true →
  get_opt result (str "photo") = Normal (Some (JArray items)) →
  items ≠ [] → Forall (λ e, is_Some (photo_size e)) items →
  ∃ chosen, last_largest items chosen ∧
            getFileId greater response = get chosen (str "file_id").
Proof.
  intros Hgt Hok Tok Hres Tres Hphoto Hne Hall.
  destruct items as [|first rest]; [done|].
  apply Forall_cons in Hall as [[m Hm] Hrest].
  destruct (reduce_from_last_largest greater Hgt rest [first] first)
    as (chosen & Hred & Hbest); [|done|].
  { exists [], [], m. split; [done|]. split; [done|].
    split; apply Forall_nil_2. }
  exists chosen. split; [done|].
  unfold getFileId. rewrite Hok. cbn [completion_bind]. rewrite Tok. cbn [negb].
  rewrite Hres. cbn [completion_bind]. rewrite Tres. cbn [negb].
  rewrite Hphoto. cbn [completion_bind truthy_value reduce]. by rewrite Hred.
Qed.

(** X13 on [photo_answer]: of the two largest sizes the second is chosen. *)
Lemma getFileId_largest_photo_witness :
  ∃ chosen, last_largest photo_items chosen ∧
            getFileId number_greater photo_answer = get chosen (str "file_id").
Proof.
  apply (getFileId_largest_photo number_greater photo_answer
           (Some (JBool true))
           (Some (JObject [(str "message_id", JNumber 7);
                           (str "photo", JArray photo_items)]))
           photo_items).
  - reflexivity.
  - reflexivity.
  - reflexivity.
  - reflexivity.
  - reflexivity.
  - reflexivity.
  - done.
  - repeat (apply Forall_cons_2; [by eexists|]). apply Forall_nil_2.
Defined.

Example largest_photo_id :
  getFileId number_greater photo_answer = Normal (Some (JString (str "large2"))).
Proof. reflexivity. Qed.

(** ** Sending to Telegram *)

Lemma fetches_app a b : fetches (a ++ b) = (fetches a + fetches b)%nat.
Proof.
  induction a as [|e a IH]; [done|]. cbn [app]. unfold fetches in *.
  cbn [foldr]. destruct e; lia.
Qed.

Lemma slept_app a b : slept (a ++ b) = slept a + slept b.
Proof.
  induction a as [|e a IH]; [done|]. cbn [app]. unfold slept in *.
  cbn [foldr]. destruct e; lia.
Qed.

Section Send.
Variable platform : Platform.

Local Arguments str : simpl never.
Local Arguments api_url : simpl never.

(** The time that the retries from [retryCount] on can sleep. *)
Lemma send_bounded fuel formData apiEndpoint env retryCount trace :
  (MAX_RETRIES - retryCount < fuel)%nat →
  ∃ r new,
    sendToTelegram_fuel platform fuel formData apiEndpoint env retryCount trace
      = Some (r, trace ++ new) ∧
    (1 ≤ fetches new ≤ S (MAX_RETRIES - retryCount))%nat ∧
    0 ≤ slept new ≤
      (if (retryCount =? 0)%nat then 3000
       else if (retryCount =? 1)%nat then 2000 else 0) ∧
    ∀ key metadata, Put key metadata ∉ new.
Proof.
  revert formData apiEndpoint retryCount trace.
  induction fuel as [|fuel IH]; intros formData apiEndpoint retryCount trace Hfuel;
    [lia|].
  cbn [sendToTelegram_fuel]. unfold MAX_RETRIES in *.
  assert (∀ key metadata,
            Put key metadata ∉ [Fetch (api_url env apiEndpoint) formData]) as Hput1.
  { intros key metadata H. apply list_elem_of_singleton in H. done. }
  assert (∃ r new,
    (if (retryCount <? 2)%nat
     then sendToTelegram_fuel platform fuel formData apiEndpoint env
            (retryCount + 1)
            ((trace ++ [Fetch (api_url env apiEndpoint) formData])
             ++ [Sleep (1000 * (Z.of_nat retryCount + 1))])
     else Some (Failure (JString (str "Network error occurred")),
                trace ++ [Fetch (api_url env apiEndpoint) formData]))
    = Some (r, trace ++ new) ∧
    (1 ≤ fetches new ≤ S (2 - retryCount))%nat ∧
    0 ≤ slept new ≤
      (if (retryCount =? 0)%nat then 3000
       else if (retryCount =? 1)%nat then 2000 else 0) ∧
    ∀ key metadata, Put key metadata ∉ new) as Hcaught.
  { destruct (retryCount <? 2)%nat eqn:Hlt.
    - apply Nat.ltb_lt in Hlt.
      destruct (IH formData apiEndpoint (retryCount + 1)%nat
                  ((trace ++ [Fetch (api_url env apiEndpoint) formData])
                   ++ [Sleep (1000 * (Z.of_nat retryCount + 1))]))
        as (r & new & -> & Hf & Hs & Hp); [lia|].
      exists r, ([Fetch (api_url env apiEndpoint) formData]
                 ++ [Sleep (1000 * (Z.of_nat retryCount + 1))] ++ new).
      split; [by rewrite <- !app_assoc|].
      rewrite !fetches_app, !slept_app. cbn [fetches slept foldr].
      split; [lia|]. split.
      + destruct retryCount as [|[|?]]; simpl in *; lia.
      + intros key metadata H.
        apply elem_of_app in H as [H|H]; [by apply (Hput1 key metadata)|].
        apply elem_of_app in H as [H|H]; [|by apply (Hp key metadata)].
        apply list_elem_of_singleton in H. done.
    - apply Nat.ltb_ge in Hlt. eexists _, [_]. split; [done|].
      cbn [fetches slept foldr]. split; [lia|]. split; [|done].
      destruct retryCount as [|[|?]]; simpl; lia. }
  destruct (network platform retryCount (api_url env apiEndpoint) formData)
    as [|ok responseData]; [done|].
  destruct ok.
  { eexists _, [_]. split; [done|]. cbn [fetches slept foldr].
    split; [lia|]. split; [|done]. destruct retryCount as [|[|?]]; simpl; lia. }
  destruct ((retryCount <? 2)%nat && list_eqb apiEndpoint (str "sendPhoto"))
    eqn:Hphoto.
  - apply andb_true_iff in Hphoto as [Hlt%Nat.ltb_lt _].
    match goal with
    | |- context [sendToTelegram_fuel _ _ ?fd ?ep _ _ _] =>
        destruct (IH fd ep (retryCount + 1)%nat
                    (trace ++ [Fetch (api_url env apiEndpoint) formData]))
          as (r & new & -> & Hf & Hs & Hp); [lia|]
    end.
    exists r, ([Fetch (api_url env apiEndpoint) formData] ++ new).
    split; [by rewrite <- !app_assoc|].
    rewrite !fetches_app, !slept_app. cbn [fetches slept foldr].
    split; [lia|]. split.
    + destruct retryCount as [|[|?]]; simpl in *; lia.
    + intros key metadata H.
      apply elem_of_app in H as [H|H]; [by apply (Hput1 key metadata)|].
      by apply (Hp key metadata).
  - destruct (get responseData (str "description")) as [description|]; [|done].
    eexists _, [_]. split; [done|]. cbn [fetches slept foldr].
    split; [lia|]. split; [|done]. destruct retryCount as [|[|?]]; simpl; lia.
Qed.

End Send.

(** X14.  [sendToTelegram] returns, whatever the network does, after one to
    three requests (at most one more than the retries left), having slept
    3000 milliseconds at most, and it writes nothing to the store. *)
Theorem sendToTelegram_is_bounded (platform : Platform) (formData : FormData)
    (apiEndpoint : list Z) (env : Env) (retryCount : nat) (trace : list event) :
  ∃ r new,
    sendToTelegram platform formData apiEndpoint env retryCount trace
      = Some (r, trace ++ new) ∧
    (1 ≤ fetches new ≤ S (MAX_RETRIES - retryCount))%nat ∧
    0 ≤ slept new ≤ 3000 ∧
    ∀ key metadata, Put key metadata ∉ new.
Proof.
  destruct (send_bounded platform (S (MAX_RETRIES - retryCount)) formData
              apiEndpoint env retryCount trace) as (r & new & Hr & Hf & Hs & Hp);
    [lia|].
  exists r, new. split; [done|]. split; [done|]. split; [|done].
  destruct (retryCount =? 0)%nat; [lia|]. destruct (retryCount =? 1)%nat; lia.
Qed.

Section SendResult.
Variable platform : Platform.

Local Arguments str : simpl never.
Local Arguments api_url : simpl never.

Lemma send_reports fuel formData apiEndpoint env retryCount trace r t :
  sendToTelegram_fuel platform fuel formData apiEndpoint env retryCount trace
    = Some (r, t) →
  ∃ last apiUrl form before,
    t = before ++ [Fetch apiUrl form] ∧ (retryCount ≤ last)%nat ∧
    reports r last (network platform last apiUrl form).
Proof.
  revert formData apiEndpoint retryCount trace.
  induction fuel as [|fuel IH]; intros formData apiEndpoint retryCount trace;
    [done|].
  cbn [sendToTelegram_fuel].
  assert (∀ outcome,
    network platform retryCount (api_url env apiEndpoint) formData = outcome →
    outcome = Rejects ∨ outcome = Responds false JNull →
    (if (retryCount <? MAX_RETRIES)%nat
     then sendToTelegram_fuel platform fuel formData apiEndpoint env
            (retryCount + 1)
            ((trace ++ [Fetch (api_url env apiEndpoint) formData])
             ++ [Sleep (1000 * (Z.of_nat retryCount + 1))])
     else Some (Failure (JString (str "Network error occurred")),
                trace ++ [Fetch (api_url env apiEndpoint) formData]))
    = Some (r, t) →
    ∃ last apiUrl form before,
      t = before ++ [Fetch apiUrl form] ∧ (retryCount ≤ last)%nat ∧
      reports r last (network platform last apiUrl form)) as Hcaught.
  { intros outcome Hout Hcase. destruct (retryCount <? MAX_RETRIES)%nat eqn:Hlt.
    - intros (last & apiUrl & form & before & -> & Hle & Hrep)%IH.
      exists last, apiUrl, form, before. split; [done|]. split; [lia | done].
    - apply Nat.ltb_ge in Hlt. intros [= <- <-].
      exists retryCount, (api_url env apiEndpoint), formData, trace.
      split; [done|]. split; [done|]. left. rewrite Hout. done. }
  destruct (network platform retryCount (api_url env apiEndpoint) formData)
    as [|ok responseData] eqn:Hnet.
  { apply (Hcaught Rejects); auto. }
  destruct ok.
  { intros [= <- <-].
    exists retryCount, (api_url env apiEndpoint), formData, trace.
    split; [done|]. split; [done|]. cbn [reports]. by rewrite Hnet. }
  destruct ((retryCount <? MAX_RETRIES)%nat
            && list_eqb apiEndpoint (str "sendPhoto")).
  { intros (last & apiUrl & form & before & -> & Hle & Hrep)%IH.
    exists last, apiUrl, form, before. split; [done|]. split; [lia | done]. }
  destruct (get responseData (str "description")) as [description|] eqn:Hd.
  - intros [= <- <-].
    exists retryCount, (api_url env apiEndpoint), formData, trace.
    split; [done|]. split; [done|]. right. rewrite Hnet.
    by exists responseData, description.
  - apply get_throws in Hd as ->. apply (Hcaught (Responds false JNull)); auto.
Qed.

Lemma send_same_form fuel formData apiEndpoint env retryCount trace r t :
  apiEndpoint ≠ str "sendPhoto" →
  sendToTelegram_fuel platform fuel formData apiEndpoint env retryCount trace
    = Some (r, t) →
  ∃ new, t = trace ++ new ∧
    ∀ apiUrl form, Fetch apiUrl form ∈ new →
      apiUrl = api_url env apiEndpoint ∧ form = formData.
Proof.
  intros Hep. revert retryCount trace.
  induction fuel as [|fuel IH]; intros retryCount trace; [done|].
  cbn [sendToTelegram_fuel].
  assert (list_eqb apiEndpoint (str "sendPhoto") = false) as ->.
  { unfold list_eqb. by apply bool_decide_eq_false_2. }
  rewrite andb_false_r.
  assert (∀ apiUrl form,
            Fetch apiUrl form ∈ [Fetch (api_url env apiEndpoint) formData] →
            apiUrl = api_url env apiEndpoint ∧ form = formData) as Hone.
  { intros apiUrl form H. apply list_elem_of_singleton in H. by injection H. }
  assert (
    (if (retryCount <? MAX_RETRIES)%nat
     then sendToTelegram_fuel platform fuel formData apiEndpoint env
            (retryCount + 1)
            ((trace ++ [Fetch (api_url env apiEndpoint) formData])
             ++ [Sleep (1000 * (Z.of_nat retryCount + 1))])
     else Some (Failure (JString (str "Network error occurred")),
                trace ++ [Fetch (api_url env apiEndpoint) formData]))
    = Some (r, t) →
    ∃ new, t = trace ++ new ∧
      ∀ apiUrl form, Fetch apiUrl form ∈ new →
        apiUrl = api_url env apiEndpoint ∧ form = formData) as Hcaught.
  { destruct (retryCount <? MAX_RETRIES)%nat.
    - intros (new & -> & Hnew)%IH.
      exists ([Fetch (api_url env apiEndpoint) formData]
              ++ [Sleep (1000 * (Z.of_nat retryCount + 1))] ++ new).
      split; [by rewrite <- !app_assoc|]. intros apiUrl form H.
      apply elem_of_app in H as [H|H]; [by apply Hone|].
      apply elem_of_app in H as [H|H]; [|by apply Hnew].
      apply list_elem_of_singleton in H. done.
    - intros [= <- <-]. by eexists [_]. }
  destruct (network platform retryCount (api_url env apiEndpoint) formData)
    as [|ok responseData]; [done|].
  destruct ok; [intros [= <- <-]; by eexists [_]|].
  destruct (get responseData (str "description")); [|done].
  intros [= <- <-]. by eexists [_].
Qed.

Lemma send_the_file fuel chat file field apiEndpoint env retryCount trace r t :
  (apiEndpoint = str "sendPhoto" → field = str "photo") →
  sendToTelegram_fuel platform fuel [(str "chat_id", chat); (field, file)]
    apiEndpoint env retryCount trace = Some (r, t) →
  ∃ new, t = trace ++ new ∧
    ∀ apiUrl form, Fetch apiUrl form ∈ new →
      (apiUrl = api_url env apiEndpoint ∧
       form = [(str "chat_id", chat); (field, file)]) ∨
      (apiEndpoint = str "sendPhoto" ∧
       apiUrl = api_url env (str "sendDocument") ∧
       form = [(str "chat_id", chat); (str "document", file)]).
Proof.
  intros Hfield.
  destruct (decide (apiEndpoint = str "sendPhoto")) as [->|Hep].
  2:{ intros (new & -> & Hnew)%send_same_form; [|done].
      exists new. split; [done|]. intros apiUrl form H. left. by apply Hnew. }
  rewrite (Hfield eq_refl). clear Hfield field.
  set (formData := [(str "chat_id", chat); (str "photo", file)]).
  revert retryCount trace.
  induction fuel as [|fuel IH]; intros retryCount trace; [done|].
  cbn [sendToTelegram_fuel].
  assert (∀ apiUrl form,
            Fetch apiUrl form ∈ [Fetch (api_url env (str "sendPhoto")) formData] →
            apiUrl = api_url env (str "sendPhoto") ∧ form = formData) as Hone.
  { intros apiUrl form H. apply list_elem_of_singleton in H. by injection H. }
  assert (
    (if (retryCount <? MAX_RETRIES)%nat
     then sendToTelegram_fuel platform fuel formData (str "sendPhoto") env
            (retryCount + 1)
            ((trace ++ [Fetch (api_url env (str "sendPhoto")) formData])
             ++ [Sleep (1000 * (Z.of_nat retryCount + 1))])
     else Some (Failure (JString (str "Network error occurred")),
                trace ++ [Fetch (api_url env (str "sendPhoto")) formData]))
    = Some (r, t) →
    ∃ new, t = trace ++ new ∧
      ∀ apiUrl form, Fetch apiUrl form ∈ new →
        (apiUrl = api_url env (str "sendPhoto") ∧ form = formData) ∨
        (str "sendPhoto" = str "sendPhoto" ∧
         apiUrl = api_url env (str "sendDocument") ∧
         form = [(str "chat_id", chat); (str "document", file)])) as Hcaught.
  { destruct (retryCount <? MAX_RETRIES)%nat.
    - intros (new & -> & Hnew)%IH.
      exists ([Fetch (api_url env (str "sendPhoto")) formData]
              ++ [Sleep (1000 * (Z.of_nat retryCount + 1))] ++ new).
      split; [by rewrite <- !app_assoc|]. intros apiUrl form H.
      apply elem_of_app in H as [H|H]; [left; by apply Hone|].
      apply elem_of_app in H as [H|H]; [|by apply Hnew].
      apply list_elem_of_singleton in H. done.
    - intros [= <- <-]. eexists [_]. split; [done|].
      intros apiUrl form H. left. by apply Hone. }
  destruct (network platform retryCount (api_url env (str "sendPhoto")) formData)
    as [|ok responseData]; [done|].
  destruct ok.
  { intros [= <- <-]. eexists [_]. split; [done|].
    intros apiUrl form H. left. by apply Hone. }
  destruct ((retryCount <? MAX_RETRIES)%nat
            && list_eqb (str "sendPhoto") (str "sendPhoto")).
  - change (FormData_append
              (FormData_append [] (str "chat_id")
                 (FormData_get formData (str "chat_id")))
              (str "document") (FormData_get formData (str "photo")))
      with [(str "chat_id", chat); (str "document", file)].
    intros (new & -> & Hnew)%send_same_form; [|done].
    exists ([Fetch (api_url env (str "sendPhoto")) formData] ++ new).
    split; [by rewrite <- !app_assoc|]. intros apiUrl form H.
    apply elem_of_app in H as [H|H]; [left; by apply Hone|].
    right. split; [done|]. by apply Hnew.
  - destruct (get responseData (str "description")); [|done].
    intros [= <- <-]. eexists [_]. split; [done|].
    intros apiUrl form H. left. by apply Hone.
Qed.

End SendResult.

(** X15.  The result of [sendToTelegram] reports the last request made, which
    is the last effect: success with the data of the answer when that answer
    was ok; the error Network error occurred when the request or the reading
    of its answer failed (or the answer was not ok and its body was [null])
    and no retry was left; otherwise the description of an answer that was
    not ok, or Upload to Telegram failed when it has none. *)
Theorem sendToTelegram_reports_last_request (platform : Platform)
    (formData : FormData) (apiEndpoint : list Z) (env : Env)
    (retryCount : nat) (trace : list event) (r : send_result) (t : list event) :
  sendToTelegram platform formData apiEndpoint env retryCount trace = Some (r, t) →
  ∃ last apiUrl form before,
    t = before ++ [Fetch apiUrl form] ∧ (retryCount ≤ last)%nat ∧
    reports r last (network platform last apiUrl form).
Proof. apply send_reports. Qed.

(** X15 on [example_platform], which refuses the photo and accepts the
    document. *)
Lemma sendToTelegram_reports_last_request_witness :
  ∃ last apiUrl form before,
    [Fetch (api_url example_env (str "sendPhoto")) photo_form;
     Fetch (api_url example_env (str "sendDocument"))
       [(str "chat_id", StringValue (str "42"));
        (str "document",
         FileValue (data file_part) (str "x.png") (str "image/png"))]]
    = before ++ [Fetch apiUrl form] ∧ (0 ≤ last)%nat ∧
    reports (Success document_answer) last
      (network example_platform last apiUrl form).
Proof.
  apply (sendToTelegram_reports_last_request example_platform photo_form
           (str "sendPhoto") example_env 0 []).
  vm_compute. reflexivity.
Defined.

(** X16.  Every request that [sendToTelegram] makes for a form with a chat
    identifier and a file carries that chat identifier and that file: it
    goes to the method asked for with the form as given, or, when that
    method is sendPhoto, to sendDocument with the file under the name
    document. *)
Theorem sendToTelegram_sends_the_file (platform : Platform)
    (chat file : FormValue) (field apiEndpoint : list Z) (env : Env)
    (retryCount : nat) (trace : list event) (r : send_result) (t : list event) :
  (apiEndpoint = str "sendPhoto" → field = str "photo") →
  sendToTelegram platform [(str "chat_id", chat); (field, file)]
    apiEndpoint env retryCount trace = Some (r, t) →
  ∃ new, t = trace ++ new ∧
    ∀ apiUrl form, Fetch apiUrl form ∈ new →
      (apiUrl = api_url env apiEndpoint ∧
       form = [(str "chat_id", chat); (field, file)]) ∨
      (apiEndpoint = str "sendPhoto" ∧
       apiUrl = api_url env (str "sendDocument") ∧
       form = [(str "chat_id", chat); (str "document", file)]).
Proof. apply send_the_file. Qed.

(** X16 on [example_platform]. *)
Lemma sendToTelegram_sends_the_file_witness :
  ∃ new,
    [Fetch (api_url example_env (str "sendPhoto")) photo_form;
     Fetch (api_url example_env (str "sendDocument"))
       [(str "chat_id", StringValue (str "42"));
        (str "document",
         FileValue (data file_part) (str "x.png") (str "image/png"))]]
    = [] ++ new ∧
    ∀ apiUrl form, Fetch apiUrl form ∈ new →
      (apiUrl = api_url example_env (str "sendPhoto") ∧
       form = [(str "chat_id", StringValue (str "42"));
               (str "photo",
                FileValue (data file_part) (str "x.png") (str "image/png"))]) ∨
      (str "sendPhoto" = str "sendPhoto" ∧
       apiUrl = api_url example_env (str "sendDocument") ∧
       form = [(str "chat_id", StringValue (str "42"));
               (str "document",
                FileValue (data file_part) (str "x.png") (str "image/png"))]).
Proof.
  apply (sendToTelegram_sends_the_file example_platform
           (StringValue (str "42"))
           (FileValue (data file_part) (str "x.png") (str "image/png"))
           (str "photo") (str "sendPhoto") example_env 0 []
           (Success document_answer)).
  - done.
  - vm_compute. reflexivity.
Defined.

(** ** The handler *)

Lemma puts_app a b : puts (a ++ b) = (puts a + puts b)%nat.
Proof.
  induction a as [|e a IH]; [done|]. cbn [app]. unfold puts in *.
  cbn [foldr]. destruct e; lia.
Qed.

Lemma puts_none trace :
  (∀ key metadata, Put key metadata ∉ trace) → puts trace = 0%nat.
Proof.
  induction trace as [|e trace IH]; [done|]. intros Hno.
  unfold puts in *. cbn [foldr]. destruct e as [| |key metadata].
  - apply IH. intros k m H. apply (Hno k m). by right.
  - apply IH. intros k m H. apply (Hno k m). by right.
  - exfalso. apply (Hno key metadata). by left.
Qed.

Lemma authorized_false env header :
  authorized env header = false ↔
  ∃ token, API_TOKEN env = Some token ∧ token ≠ [] ∧
           header ≠ Some (str "Bearer " ++ token).
Proof.
  unfold authorized. destruct (API_TOKEN env) as [[|c token]|]; cbn [truthy].
  - split; [done|]. intros (token & Heq & Hne & _).
    injection Heq as <-. by destruct Hne.
  - destruct header as [[|d header]|]; cbn [truthy].
    + split; [|done]. intros _. by exists (c :: token).
    + unfold list_eqb. split.
      * intros H%bool_decide_eq_false. exists (c :: token).
        split; [done|]. split; [done|]. intros Heq. apply H.
        congruence.
      * intros (token' & [= <-] & _ & H). apply bool_decide_eq_false.
        intros Heq. apply H. by rewrite Heq.
    + split; [|done]. intros _. by exists (c :: token).
  - split; [done|]. by intros (token & ? & _).
Qed.

Section HandlerProperties.
Variable ul : list Z → list Z.
Variable greater : option json → option json → bool.
Variable platform : Platform.

Local Arguments str : simpl never.
Local Arguments api_url : simpl never.
Local Arguments choose_endpoint : simpl never.
Local Arguments File_type : simpl never.
Local Arguments file_extension : simpl never.
Local Arguments success_data : simpl never.
Local Arguments to_usv : simpl never.
Local Arguments template : simpl never.
Local Arguments ToString : simpl never.
Local Arguments sendToTelegram : simpl never.
Local Arguments getFileId : simpl never.
Local Arguments parseMultipartFormData : simpl never.

Lemma read_form_is_Some r : is_Some (read_form ul platform r).
Proof.
  unfold read_form. destruct (native_formData platform); [done|].
  unfold parseMultipartFormData.
  destruct (extract_boundary (content_type_header r)) as [m|boundary]; [done|].
  destruct (parseMultipartParts_is_Some ul (body r) boundary) as [parts ->].
  done.
Qed.

Lemma send_extends fuel formData apiEndpoint env retryCount trace r t :
  sendToTelegram_fuel platform fuel formData apiEndpoint env retryCount trace
    = Some (r, t) →
  ∃ new, t = trace ++ new.
Proof.
  revert formData apiEndpoint retryCount trace.
  induction fuel as [|fuel IH]; intros formData apiEndpoint retryCount trace;
    [done|].
  cbn [sendToTelegram_fuel].
  assert (
    (if (retryCount <? MAX_RETRIES)%nat
     then sendToTelegram_fuel platform fuel formData apiEndpoint env
            (retryCount + 1)
            ((trace ++ [Fetch (api_url env apiEndpoint) formData])
             ++ [Sleep (1000 * (Z.of_nat retryCount + 1))])
     else Some (Failure (JString (str "Network error occurred")),
                trace ++ [Fetch (api_url env apiEndpoint) formData]))
    = Some (r, t) →
    ∃ new, t = (trace ++ [Fetch (api_url env apiEndpoint) formData]) ++ new)
    as Hcaught.
  { destruct (retryCount <? MAX_RETRIES)%nat.
    - intros (new & ->)%IH. eexists. by rewrite <- (app_assoc _ [Sleep _]).
    - intros [= <- <-]. exists []. by rewrite app_nil_r. }
  assert (∀ new,
            t = (trace ++ [Fetch (api_url env apiEndpoint) formData]) ++ new →
            ∃ new', t = trace ++ new') as Hdone.
  { intros new ->. eexists. by rewrite <- app_assoc. }
  destruct (network platform retryCount (api_url env apiEndpoint) formData)
    as [|ok responseData].
  { intros (new & Hn)%Hcaught. by apply (Hdone new). }
  destruct ok; [intros [= <- <-]; by eexists|].
  destruct (_ && _).
  { intros (new & ->)%IH. by apply (Hdone new). }
  destruct (get responseData (str "description")).
  - intros [= <- <-]. by eexists.
  - intros (new & Hn)%Hcaught. by apply (Hdone new).
Qed.

Lemma send_first formData apiEndpoint env retryCount trace r t :
  sendToTelegram platform formData apiEndpoint env retryCount trace = Some (r, t) →
  ∃ rest, t = trace ++ Fetch (api_url env apiEndpoint) formData :: rest.
Proof.
  unfold sendToTelegram. cbn [sendToTelegram_fuel].
  assert (∀ new,
            t = (trace ++ [Fetch (api_url env apiEndpoint) formData]) ++ new →
            ∃ rest, t = trace ++ Fetch (api_url env apiEndpoint) formData :: rest)
    as Hdone.
  { intros new ->. exists new. by rewrite <- app_assoc. }
  assert (
    (if (retryCount <? MAX_RETRIES)%nat
     then sendToTelegram_fuel platform (MAX_RETRIES - retryCount) formData
            apiEndpoint env (retryCount + 1)
            ((trace ++ [Fetch (api_url env apiEndpoint) formData])
             ++ [Sleep (1000 * (Z.of_nat retryCount + 1))])
     else Some (Failure (JString (str "Network error occurred")),
                trace ++ [Fetch (api_url env apiEndpoint) formData]))
    = Some (r, t) →
    ∃ rest, t = trace ++ Fetch (api_url env apiEndpoint) formData :: rest)
    as Hcaught.
  { destruct (retryCount <? MAX_RETRIES)%nat.
    - intros (new & ->)%send_extends.
      apply (Hdone ([Sleep (1000 * (Z.of_nat retryCount + 1))] ++ new)).
      by rewrite <- !app_assoc.
    - intros [= <- <-]. apply (Hdone []). by rewrite app_nil_r. }
  destruct (network platform retryCount (api_url env apiEndpoint) formData)
    as [|ok responseData]; [done|].
  destruct ok; [intros [= <- <-]; apply (Hdone []); by rewrite app_nil_r|].
  destruct (_ && _).
  { intros (new & ->)%send_extends. by apply (Hdone new). }
  destruct (get responseData (str "description")); [|done].
  intros [= <- <-]. apply (Hdone []). by rewrite app_nil_r.
Qed.

(** What [upload] has done when it leaves effects: it had a form with a
    file under the name file, and sent it. *)
Lemma upload_effects env r a trace :
  upload ul greater platform env r = Some (a, trace) → trace ≠ [] →
  ∃ formData bits fileName type rest,
    read_form ul platform r = Some (Done formData) ∧
    errorHandling_error platform = None ∧
    telemetryData_error platform = None ∧
    FormData_get formData (str "file") = Some (FileValue bits fileName type) ∧
    trace = first_request env bits fileName type :: rest.
Proof.
  unfold upload.
  destruct (read_form ul platform r) as [[formData|m]|] eqn:Hform; [| |done].
  2:{ by intros [= <- <-]. }
  destruct (errorHandling_error platform) eqn:He; [by intros [= <- <-]|].
  destruct (telemetryData_error platform) eqn:Ht; [by intros [= <- <-]|].
  destruct (FormData_get formData (str "file"))
    as [[[|c s]|bits fileName type]|] eqn:Hfile;
    [by intros [= <- <-].. | | by intros [= <- <-]].
  destruct (choose_endpoint (File_type type)) as [field apiEndpoint] eqn:Hce.
  destruct (sendToTelegram platform _ apiEndpoint env 0 []) as [[sr sent]|] eqn:Hs;
    [|done].
  apply send_first in Hs as [rest Hsent]. cbn [app] in Hsent.
  intros H _. exists formData, bits, fileName, type.
  assert (∃ more, trace = sent ++ more) as [more ->].
  { destruct sr as [data|error];
      [|destruct (ToString error); injection H as <- <-; exists [];
        by rewrite app_nil_r].
    destruct (getFileId greater data) as [fileId|];
      [|injection H as <- <-; exists []; by rewrite app_nil_r].
    destruct (negb (truthy_value fileId));
      [injection H as <- <-; exists []; by rewrite app_nil_r|].
    destruct (template fileId) as [id|];
      [|injection H as <- <-; exists []; by rewrite app_nil_r].
    destruct (img_url env).
    - destruct (put_error platform); injection H as <- <-; by eexists.
    - injection H as <- <-. exists []. by rewrite app_nil_r. }
  rewrite Hsent. exists (rest ++ more). unfold first_request. rewrite Hce. done.
Qed.

Lemma upload_bounded env r :
  ∃ a trace,
    upload ul greater platform env r = Some (a, trace) ∧
    (fetches trace ≤ 3)%nat ∧ 0 ≤ slept trace ≤ 3000 ∧ (puts trace ≤ 1)%nat.
Proof.
  unfold upload.
  destruct (read_form_is_Some r) as [[formData|m] ->].
  2:{ eexists _, []. split; [done|]. cbn. lia. }
  destruct (errorHandling_error platform).
  { eexists _, []. split; [done|]. cbn. lia. }
  destruct (telemetryData_error platform).
  { eexists _, []. split; [done|]. cbn. lia. }
  destruct (FormData_get formData (str "file")) as [[[|c s]|bits fileName type]|];
    try (eexists _, []; split; [done|]; cbn; lia).
  destruct (choose_endpoint (File_type type)) as [field apiEndpoint].
  match goal with
  | |- context [sendToTelegram platform ?fd apiEndpoint env 0 []] =>
      destruct (send_bounded platform (S (MAX_RETRIES - 0)) fd apiEndpoint env 0 [])
        as (sr & sent & Hs & Hf & Hsl & Hp); [lia|];
      change (sendToTelegram_fuel platform (S (MAX_RETRIES - 0)) fd apiEndpoint
                env 0 [])
        with (sendToTelegram platform fd apiEndpoint env 0 []) in Hs;
      rewrite Hs
  end.
  cbn [app] in *. unfold MAX_RETRIES in Hf. cbn [Nat.sub Nat.eqb] in Hf, Hsl.
  pose proof (puts_none sent Hp) as Hputs.
  destruct sr as [data|error];
    [|destruct (ToString error); (eexists _, sent; split; [done|]; lia)].
  destruct (getFileId greater data) as [fileId|];
    [|eexists _, sent; split; [done|]; lia].
  destruct (negb (truthy_value fileId));
    [eexists _, sent; split; [done|]; lia|].
  destruct (template fileId) as [id|];
    [|eexists _, sent; split; [done|]; lia].
  destruct (img_url env); [|eexists _, sent; split; [done|]; lia].
  destruct (put_error platform);
    (eexists _, (sent ++ [_]); split; [done|];
     rewrite fetches_app, slept_app, puts_app; cbn; lia).
Qed.

End HandlerProperties.

Section Responses.
Variable ul : list Z → list Z.
Variable greater : option json → option json → bool.
Variable platform : Platform.

Local Arguments str : simpl never.
Local Arguments upload : simpl never.

(** X17.  The response has status 401 exactly when a token is configured
    (and is not empty) and the Authorization header is not Bearer, a space
    and that token; the response then says so and the handler has done
    nothing else: no request, no write. *)
Theorem unauthorized_is_refused (env : Env) (r : HttpRequest)
    (resp : Response) (trace : list event) :
  onRequestPost ul greater platform env r = Some (resp, trace) →
  (status resp = 401 ↔
     ∃ token, API_TOKEN env = Some token ∧ token ≠ [] ∧
              authorization r ≠ Some (str "Bearer " ++ token)) ∧
  (status resp = 401 →
     resp = mkResponse 401 (FailureBody (Text UNAUTHORIZED)) ∧ trace = []).
Proof.
  unfold onRequestPost.
  destruct (authorized env (authorization r)) eqn:Hauth; cbn [negb].
  - assert (¬ ∃ token, API_TOKEN env = Some token ∧ token ≠ [] ∧
                       authorization r ≠ Some (str "Bearer " ++ token)) as Hno.
    { intros H%authorized_false. congruence. }
    destruct (upload ul greater platform env (request r)) as [[[data|m] t]|];
      [| |done]; intros [= <- <-]; cbn [status]; split; try done;
      split; try done; intros H; by destruct (Hno H).
  - intros [= <- <-]. cbn [status]. split; [|done]. split; [|done].
    intros _. by apply authorized_false.
Qed.

(** X18.  The handler always answers, with status 200, 401 or 500, after
    three requests to Telegram at most, 3000 milliseconds of sleep at most
    and one write to the store at most. *)
Theorem onRequestPost_is_bounded (env : Env) (r : HttpRequest) :
  ∃ resp trace,
    onRequestPost ul greater platform env r = Some (resp, trace) ∧
    (status resp = 200 ∨ status resp = 401 ∨ status resp = 500) ∧
    (fetches trace ≤ 3)%nat ∧ 0 ≤ slept trace ≤ 3000 ∧ (puts trace ≤ 1)%nat.
Proof.
  unfold onRequestPost. destruct (authorized env (authorization r)); cbn [negb].
  - destruct (upload_bounded ul greater platform env (request r))
      as (a & trace & -> & Hf & Hs & Hp).
    destruct a as [data|m]; eexists _, trace; (split; [done|]); cbn [status];
      auto.
  - eexists _, []. split; [done|]. cbn. split; [auto | lia].
Qed.

(** X19.  When the handler has done anything at all, the request was
    authorised, the form (the platform's, or the manual parser's) had a file
    under the name file, the middleware had passed, and the first effect is
    the request that sends this file, with the chat identifier, to the
    method chosen by the type of the file. *)
Theorem first_effect_sends_the_file (env : Env) (r : HttpRequest)
    (resp : Response) (trace : list event) :
  onRequestPost ul greater platform env r = Some (resp, trace) → trace ≠ [] →
  authorized env (authorization r) = true ∧
  ∃ formData bits fileName type rest,
    read_form ul platform (request r) = Some (Done formData) ∧
    errorHandling_error platform = None ∧
    telemetryData_error platform = None ∧
    FormData_get formData (str "file") = Some (FileValue bits fileName type) ∧
    trace = first_request env bits fileName type :: rest.
Proof.
  unfold onRequestPost.
  destruct (authorized env (authorization r)); cbn [negb];
    [|by intros [= <- <-]].
  destruct (upload ul greater platform env (request r)) as [[a t]|] eqn:Hup;
    [|done].
  intros H Hne. split; [done|].
  assert (t = trace) as -> by (destruct a; by injection H).
  by apply (upload_effects ul greater platform env (request r) a).
Qed.

End Responses.

(** X17 on the upload without its token. *)
Lemma unauthorized_is_refused_witness :
  (status (mkResponse 401 (FailureBody (Text UNAUTHORIZED))) = 401 ↔
     ∃ token, API_TOKEN example_env = Some token ∧ token ≠ [] ∧
              authorization example_upload_without_token
              ≠ Some (str "Bearer " ++ token)) ∧
  (status (mkResponse 401 (FailureBody (Text UNAUTHORIZED))) = 401 →
     mkResponse 401 (FailureBody (Text UNAUTHORIZED))
     = mkResponse 401 (FailureBody (Text UNAUTHORIZED)) ∧ @nil event = []).
Proof.
  apply (unauthorized_is_refused no_case_mapping number_greater example_platform
           example_env example_upload_without_token).
  vm_compute. reflexivity.
Defined.

(** X19 on [example_upload]. *)
Lemma first_effect_sends_the_file_witness :
  authorized example_env (authorization example_upload) = true ∧
  ∃ formData bits fileName type rest,
    read_form no_case_mapping example_platform (request example_upload)
      = Some (Done formData) ∧
    errorHandling_error example_platform = None ∧
    telemetryData_error example_platform = None ∧
    FormData_get formData (str "file") = Some (FileValue bits fileName type) ∧
    example_trace = first_request example_env bits fileName type :: rest.
Proof.
  apply (first_effect_sends_the_file no_case_mapping number_greater
           example_platform example_env example_upload example_response).
  - vm_compute. reflexivity.
  - done.
Defined.

Section Uploads.
Variable ul : list Z → list Z.
Variable greater : option json → option json → bool.
Variable platform : Platform.

Local Arguments str : simpl never.
Local Arguments api_url : simpl never.
Local Arguments choose_endpoint : simpl never.
Local Arguments File_type : simpl never.
Local Arguments file_extension : simpl never.
Local Arguments success_data : simpl never.
Local Arguments to_usv : simpl never.
Local Arguments template : simpl never.
Local Arguments ToString : simpl never.
Local Arguments sendToTelegram : simpl never.
Local Arguments getFileId : simpl never.
Local Arguments parseMultipartFormData : simpl never.

(** What [upload] has done when it returns the data of a success. *)
Lemma upload_done env r data trace :
  upload ul greater platform env r = Some (Done data, trace) →
  ∃ formData bits fileName type answer fileId id before last apiUrl form,
    read_form ul platform r = Some (Done formData) ∧
    FormData_get formData (str "file") = Some (FileValue bits fileName type) ∧
    network platform last apiUrl form = Responds true answer ∧
    getFileId greater answer = Normal fileId ∧ truthy_value fileId = true ∧
    template fileId = Normal id ∧
    data = success_data env fileId id fileName (file_extension ul fileName)
             (Z.of_nat (length bits)) (File_type type) ∧
    trace = before ++ Fetch apiUrl form ::
      (if img_url env
       then [Put (id ++ str "." ++ file_extension ul fileName)
               {| TimeStamp := now platform; ListType := str "None";
                  Label := str "None"; liked := false; fileName := fileName;
                  fileSize := Z.of_nat (length bits) |}]
       else []).
Proof.
  unfold upload.
  destruct (read_form ul platform r) as [[formData|m]|] eqn:Hform; [|done..].
  destruct (errorHandling_error platform); [done|].
  destruct (telemetryData_error platform); [done|].
  destruct (FormData_get formData (str "file"))
    as [[[|c s]|bits fileName type]|] eqn:Hfile; [done..| |done].
  destruct (choose_endpoint (File_type type)) as [field apiEndpoint].
  destruct (sendToTelegram platform _ apiEndpoint env 0 []) as [[sr sent]|] eqn:Hs;
    [|done].
  destruct sr as [answer|error]; [|by destruct (ToString error)].
  apply send_reports in Hs as (last & apiUrl & form & before & -> & _ & Hrep).
  cbn [reports] in Hrep.
  destruct (getFileId greater answer) as [fileId|] eqn:Hid; [|done].
  destruct (truthy_value fileId) eqn:Tid; cbn [negb]; [|done].
  destruct (template fileId) as [id|] eqn:Htemplate; [|done].
  intros H. exists formData, bits, fileName, type, answer, fileId, id, before,
    last, apiUrl, form.
  repeat (split; [done|]).
  destruct (img_url env).
  - destruct (put_error platform); [done|]. injection H as <- <-.
    split; [done|]. by rewrite <- app_assoc.
  - by injection H as <- <-.
Qed.

(** X20.  A response with status 200 is given only when the form had a file
    under the name file, the last request to Telegram was answered ok, and
    [getFileId] found a truthy identifier in that answer; the body then
    describes this file under this identifier, and when the store is bound
    the last effect is the write of the key made of the identifier, a full
    stop and the extension, with the name and the size of the file.  The
    identifier is written as the templates convert it to a string, which
    did not throw. *)
Theorem success_means_stored (env : Env) (r : HttpRequest)
    (resp : Response) (trace : list event) :
  onRequestPost ul greater platform env r = Some (resp, trace) →
  status resp = 200 →
  ∃ formData bits fileName type answer fileId id before last apiUrl form,
    read_form ul platform (request r) = Some (Done formData) ∧
    FormData_get formData (str "file") = Some (FileValue bits fileName type) ∧
    network platform last apiUrl form = Responds true answer ∧
    getFileId greater answer = Normal fileId ∧ truthy_value fileId = true ∧
    template fileId = Normal id ∧
    body_value resp =
      SuccessBody
        (success_data env fileId id fileName (file_extension ul fileName)
           (Z.of_nat (length bits)) (File_type type)) ∧
    trace = before ++ Fetch apiUrl form ::
      (if img_url env
       then [Put (id ++ str "." ++ file_extension ul fileName)
               {| TimeStamp := now platform; ListType := str "None";
                  Label := str "None"; liked := false; fileName := fileName;
                  fileSize := Z.of_nat (length bits) |}]
       else []).
Proof.
  unfold onRequestPost. destruct (negb (authorized env (authorization r)));
    [by intros [= <- <-]|].
  destruct (upload ul greater platform env (request r)) as [[[data|m] t]|] eqn:Hup;
    [|by intros [= <- <-]|done].
  intros [= <- <-] _.
  destruct (upload_done _ _ _ _ Hup)
    as (formData & bits & fileName & type & answer & fileId & id & before
        & last & apiUrl & form & ? & ? & ? & ? & ? & ? & -> & ->).
  by exists formData, bits, fileName, type, answer, fileId, id, before, last,
    apiUrl, form.
Qed.

(** What [upload] does with a form that has a file. *)
Lemma upload_of_file env r formData bits fileName type :
  read_form ul platform r = Some (Done formData) →
  errorHandling_error platform = None → telemetryData_error platform = None →
  FormData_get formData (str "file") = Some (FileValue bits fileName type) →
  ∃ a rest,
    upload ul greater platform env r
    = Some (a, first_request env bits fileName type :: rest).
Proof.
  intros Hform He Ht Hfile. unfold upload, first_request.
  rewrite Hform, He, Ht, Hfile.
  destruct (choose_endpoint (File_type type)) as [field apiEndpoint].
  cbn [fst snd].
  match goal with
  | |- context [sendToTelegram platform ?fd apiEndpoint env 0 []] =>
      destruct (send_bounded platform (S (MAX_RETRIES - 0)) fd apiEndpoint env 0 [])
        as (sr & sent & Hs & _); [lia|];
      change (sendToTelegram_fuel platform (S (MAX_RETRIES - 0)) fd apiEndpoint
                env 0 [])
        with (sendToTelegram platform fd apiEndpoint env 0 []) in Hs;
      rewrite Hs; apply send_first in Hs as [rest Hsent]
  end.
  cbn [app] in Hsent. rewrite Hsent.
  destruct sr as [answer|error];
    [|destruct (ToString error); by eexists _, _].
  destruct (getFileId greater answer) as [fileId|]; [|by eexists _, _].
  destruct (negb (truthy_value fileId)); [by eexists _, _|].
  destruct (template fileId) as [id|]; [|by eexists _, _].
  destruct (img_url env); [|by eexists _, _].
  destruct (put_error platform); by eexists _, _.
Qed.

Lemma get_first_file parts p :
  first_file_part parts p →
  FormData_get (form_entry <$> parts) (str "file") = Some (form_entry p).2.
Proof.
  intros (before & after & -> & Hname & Hbefore).
  unfold FormData_get, FormData.
  induction Hbefore as [|q before Hq _ IH].
  - cbn [app]. rewrite fmap_cons, filter_cons_True; [done|].
    unfold form_entry. by destruct (filename p).
  - cbn [app]. rewrite fmap_cons, filter_cons_False; [done|].
    unfold form_entry. by destruct (filename q).
Qed.

(** X21.  From the body to Telegram: when the platform rejects the body and
    the manual parser reads it, the first request that the handler makes for
    an encoded body carries, as the file, the payload bytes, the file name
    and the type (application/octet-stream when none is declared) of the
    first part with the name file. *)
Theorem manual_upload_sends_the_payload (env : Env)
    (authHeader : option (list Z)) (boundary : list Z) (parts : list Part)
    (p : Part) (f : list Z) :
  authorized env authHeader = true →
  native_formData platform = None →
  errorHandling_error platform = None → telemetryData_error platform = None →
  plain_boundary boundary → Forall (encodable boundary) parts →
  first_file_part parts p → filename p = Some f →
  ∃ resp rest,
    onRequestPost ul greater platform env
      (mkHttpRequest authHeader
         (mkRequest (Some (str "multipart/form-data; boundary=" ++ boundary))
                    (encode_multipart boundary parts)))
    = Some (resp,
            first_request env (data p) f
              (default (str "application/octet-stream") (contentType p))
            :: rest).
Proof.
  intros Hauth Hnative He Ht Hb Hall Hfirst Hf.
  unfold onRequestPost. cbn [authorization request]. rewrite Hauth. cbn [negb].
  destruct (upload_of_file env
              (mkRequest (Some (str "multipart/form-data; boundary=" ++ boundary))
                         (encode_multipart boundary parts))
              (form_entry <$> parts) (data p) f
              (default (str "application/octet-stream") (contentType p)))
    as (a & rest & ->); [|done..| |].
  - unfold read_form. rewrite Hnative.
    by rewrite (form_of_encoded ul boundary parts Hb Hall).
  - rewrite (get_first_file parts p Hfirst). unfold form_entry. by rewrite Hf.
  - destruct a; by eexists _, _.
Qed.

(** X22.  When the platform rejects the body and the manual parser throws,
    the handler answers with status 500 and the message of the parser, and
    has done nothing else: Content-Type must be multipart/form-data for a
    header that is absent or does not contain multipart/form-data, No
    boundary found in Content-Type for one that has no boundary parameter. *)
Theorem parser_error_is_reported (env : Env) (r : HttpRequest) :
  authorized env (authorization r) = true → native_formData platform = None →
  (content_type_header (request r) = None ∨
   (∃ h, content_type_header (request r) = Some h ∧
         ¬ contains h (str "multipart/form-data")) →
   onRequestPost ul greater platform env r
   = Some (mkResponse 500 (FailureBody (Text (str MSG_CONTENT_TYPE))), [])) ∧
  ((∃ h, content_type_header (request r) = Some h ∧
         contains h (str "multipart/form-data") ∧ ¬ has_boundary_param h) →
   onRequestPost ul greater platform env r
   = Some (mkResponse 500 (FailureBody (Text (str MSG_BOUNDARY))), [])).
Proof.
  intros Hauth Hnative.
  assert (∀ message,
            extract_boundary (content_type_header (request r)) = inl message →
            onRequestPost ul greater platform env r
            = Some (mkResponse 500 (FailureBody (Text (str message))), []))
    as Hthrown.
  { intros message Hm. unfold onRequestPost, upload, read_form.
    rewrite Hauth, Hnative. cbn [negb].
    by rewrite (proj2 (parseMultipartFormData_Throws ul (request r) message) Hm). }
  split; intros H; apply Hthrown.
  - by apply extract_boundary_content_type.
  - by apply extract_boundary_no_boundary.
Qed.

End Uploads.

(** X20 on [example_upload], whose photo is refused and then accepted as a
    document. *)
Lemma success_means_stored_witness :
  ∃ formData bits fileName type answer fileId id before last apiUrl form,
    read_form no_case_mapping example_platform (request example_upload)
      = Some (Done formData) ∧
    FormData_get formData (str "file") = Some (FileValue bits fileName type) ∧
    network example_platform last apiUrl form = Responds true answer ∧
    getFileId number_greater answer = Normal fileId ∧
    truthy_value fileId = true ∧
    template fileId = Normal id ∧
    body_value example_response =
      SuccessBody
        (success_data example_env fileId id fileName
           (file_extension no_case_mapping fileName)
           (Z.of_nat (length bits)) (File_type type)) ∧
    example_trace = before ++ Fetch apiUrl form ::
      (if img_url example_env
       then [Put (id ++ str "."
                  ++ file_extension no_case_mapping fileName)
               {| TimeStamp := now example_platform; ListType := str "None";
                  Label := str "None"; liked := false; fileName := fileName;
                  fileSize := Z.of_nat (length bits) |}]
       else []).
Proof.
  apply (success_means_stored no_case_mapping number_greater example_platform
           example_env example_upload example_response example_trace).
  - vm_compute. reflexivity.
  - reflexivity.
Defined.

(** An identifier that cannot be written as a string: the template of the
    key throws, nothing is written to the store, and the answer has status
    500.  So it is when the description of a refusal cannot be written. *)
Example unprintable_identifier_is_an_error :
  onRequestPost no_case_mapping number_greater unprintable_id_platform
    example_env example_upload
  = Some (mkResponse 500 (FailureBody EngineText),
          [Fetch (api_url example_env (str "sendPhoto")) photo_form]) ∧
  onRequestPost no_case_mapping number_greater unprintable_error_platform
    example_env example_upload
  = Some (mkResponse 500 (FailureBody EngineText),
          [Fetch (api_url example_env (str "sendPhoto")) photo_form;
           Fetch (api_url example_env (str "sendDocument"))
             [(str "chat_id", StringValue (str "42"));
              (str "document",
               FileValue (data file_part) (str "x.png") (str "image/png"))]]).
Proof. split; vm_compute; reflexivity. Qed.

(** X21 on the parts of [example_request]. *)
Lemma manual_upload_sends_the_payload_witness :
  ∃ resp rest,
    onRequestPost no_case_mapping number_greater example_platform example_env
      (mkHttpRequest (Some (str "Bearer secret"))
         (mkRequest (Some (str "multipart/form-data; boundary=" ++ str "B"))
            (encode_multipart (str "B") [field_part; file_part; unicode_part])))
    = Some (resp,
            first_request example_env (data file_part) (str "x.png")
              (default (str "application/octet-stream") (contentType file_part))
            :: rest).
Proof.
  apply (manual_upload_sends_the_payload no_case_mapping number_greater
           example_platform example_env (Some (str "Bearer secret")) (str "B")
           [field_part; file_part; unicode_part] file_part (str "x.png")).
  - reflexivity.
  - reflexivity.
  - reflexivity.
  - reflexivity.
  - apply plain_boundary_B.
  - apply Forall_cons_2; [|apply Forall_cons_2; [|apply Forall_cons_2;
      [|apply Forall_nil_2]]]; apply encodableb_sound; vm_compute; reflexivity.
  - exists [field_part], [unicode_part]. split; [reflexivity|].
    split; [reflexivity|]. apply Forall_cons_2; [|apply Forall_nil_2].
    vm_compute. discriminate.
  - reflexivity.
Defined.

(** X22 on [example_text_upload]. *)
Lemma parser_error_is_reported_witness :
  (content_type_header (request example_text_upload) = None ∨
   (∃ h, content_type_header (request example_text_upload) = Some h ∧
         ¬ contains h (str "multipart/form-data")) →
   onRequestPost no_case_mapping number_greater example_platform example_env
     example_text_upload
   = Some (mkResponse 500 (FailureBody (Text (str MSG_CONTENT_TYPE))), [])) ∧
  ((∃ h, content_type_header (request example_text_upload) = Some h ∧
         contains h (str "multipart/form-data") ∧ ¬ has_boundary_param h) →
   onRequestPost no_case_mapping number_greater example_platform example_env
     example_text_upload
   = Some (mkResponse 500 (FailureBody (Text (str MSG_BOUNDARY))), [])).
Proof.
  apply (parser_error_is_reported no_case_mapping number_greater
           example_platform example_env example_text_upload);
    reflexivity.
Defined.

Example text_upload_is_refused :
  onRequestPost no_case_mapping number_greater example_platform example_env
    example_text_upload
  = Some (mkResponse 500 (FailureBody (Text (str MSG_CONTENT_TYPE))), []).
Proof. vm_compute. reflexivity. Qed.

(** ** The extension *)

Lemma last_cons_nonempty {A} (x : A) (l : list A) : l ≠ [] → last (x :: l) = last l.
Proof. by destruct l. Qed.

Lemma split_at_nonempty separator cur s : split_at separator cur s ≠ [].
Proof.
  revert cur. induction s as [|c r IH]; intros cur; [done|].
  cbn [split_at]. destruct (c =? separator); [done | apply IH].
Qed.

Lemma split_at_last separator cur s :
  separator ∉ cur →
  ∃ piece, last (split_at separator cur s) = Some piece ∧ (separator ∉ piece) ∧
    (reverse cur ++ s = piece ∨
     ∃ stem, reverse cur ++ s = stem ++ separator :: piece).
Proof.
  revert cur. induction s as [|c r IH]; intros cur Hcur.
  - exists (reverse cur). split; [done|]. split.
    + by rewrite elem_of_reverse.
    + left. by rewrite app_nil_r.
  - cbn [split_at]. destruct (c =? separator) eqn:Hc.
    + apply Z.eqb_eq in Hc as ->.
      rewrite last_cons_nonempty by apply split_at_nonempty.
      destruct (IH [] ltac:(apply not_elem_of_nil)) as (piece & Hl & Hp & Hs).
      exists piece. split; [done|]. split; [done|]. right.
      rewrite reverse_nil, app_nil_l in Hs.
      destruct Hs as [-> | [stem ->]].
      * by exists (reverse cur).
      * exists (reverse cur ++ separator :: stem). by rewrite <- app_assoc.
    + apply Z.eqb_neq in Hc.
      destruct (IH (c :: cur)) as (piece & Hl & Hp & Hs).
      { intros [?|?]%elem_of_cons; [congruence | done]. }
      exists piece. split; [done|]. split; [done|].
      rewrite reverse_cons, <- app_assoc in Hs. done.
Qed.

(** X23.  The extension is the text after the last full stop of the file
    name, in lower case; a name without full stop is its own extension, so
    that the key in the store then ends with the whole name. *)
Theorem file_extension_is_last_piece (ul : list Z → list Z) (fileName : list Z) :
  ∃ piece,
    (FULL_STOP ∉ piece) ∧
    file_extension ul fileName = toLowerCase ul piece ∧
    (fileName = piece ∨ ∃ stem, fileName = stem ++ FULL_STOP :: piece).
Proof.
  destruct (split_at_last FULL_STOP [] fileName ltac:(apply not_elem_of_nil))
    as (piece & Hl & Hp & Hs).
  exists piece. split; [done|]. split; [|done].
  unfold file_extension. by rewrite Hl.
Qed.

(** ** Text fields, and forms without a file *)

Section TextFields.
Variable ul : list Z → list Z.

Local Arguments str : simpl never.
Local Arguments TextDecoder_decode : simpl never.
Local Arguments TextEncoder_encode : simpl never.

(** X24.  Text fields come back as strings: for fields whose values are
    strings without lone surrogate that do not begin with U+FEFF, written
    with the value in UTF-8 as the payload, the form has, in order, each
    name with its value. *)
Theorem text_fields_round_trip (boundary : list Z)
    (fields : list (list Z * list Z)) :
  plain_boundary boundary →
  Forall (λ field, encodable boundary (field_part_of field) ∧
                   well_formed_utf16 field.2 ∧ ∀ r, field.2 ≠ 65279 :: r)
         fields →
  parseMultipartFormData ul
    (mkRequest (Some (str "multipart/form-data; boundary=" ++ boundary))
               (encode_multipart boundary (field_part_of <$> fields)))
  = Some (Returns ((λ field, (field.1, StringValue field.2)) <$> fields)).
Proof.
  intros Hb Hall. rewrite (form_of_encoded ul boundary _ Hb).
  2:{ apply Forall_fmap. eapply Forall_impl; [exact Hall|]. by intros f [? _]. }
  do 2 f_equal. rewrite <- list_fmap_compose. apply Forall_fmap_ext_1.
  eapply Forall_impl; [exact Hall|]. intros [n v] (_ & Hwf & Hbom).
  unfold form_entry, field_part_of. cbn [filename name data fst snd compose].
  by rewrite TextDecoder_TextEncoder.
Qed.

End TextFields.

(** X24 on [example_fields]. *)
Lemma text_fields_round_trip_witness :
  parseMultipartFormData no_case_mapping
    (mkRequest (Some (str "multipart/form-data; boundary=" ++ str "B"))
               (encode_multipart (str "B") (field_part_of <$> example_fields)))
  = Some (Returns ((λ field, (field.1, StringValue field.2)) <$> example_fields)).
Proof.
  apply (text_fields_round_trip no_case_mapping (str "B") example_fields
           plain_boundary_B).
  apply Forall_cons_2; [|apply Forall_cons_2; [|apply Forall_nil_2]].
  - split; [apply encodableb_sound; vm_compute; reflexivity|].
    split; [by apply well_formedb_sound | by intros r [=]].
  - split; [apply encodableb_sound; vm_compute; reflexivity|].
    split; [by apply well_formedb_sound | by intros r [=]].
Defined.

Section NoFile.
Variable ul : list Z → list Z.
Variable greater : option json → option json → bool.
Variable platform : Platform.

Local Arguments str : simpl never.

(** X25.  A form without a file under the name file is refused, and nothing
    is sent or written: the handler answers with status 500, and with the
    message No file uploaded when the form has no entry of that name or an
    empty string under it. *)
Theorem upload_needs_a_file (env : Env) (r : HttpRequest)
    (formData : FormData) :
  authorized env (authorization r) = true →
  read_form ul platform (request r) = Some (Done formData) →
  errorHandling_error platform = None → telemetryData_error platform = None →
  (∀ bits fileName type,
     FormData_get formData (str "file") ≠ Some (FileValue bits fileName type)) →
  ∃ message,
    onRequestPost ul greater platform env r
    = Some (mkResponse 500 (FailureBody message), []) ∧
    (FormData_get formData (str "file") = None ∨
     FormData_get formData (str "file") = Some (StringValue []) →
     message = Text (str "No file uploaded")).
Proof.
  intros Hauth Hform He Ht Hno. unfold onRequestPost, upload.
  rewrite Hauth, Hform, He, Ht. cbn [negb].
  destruct (FormData_get formData (str "file"))
    as [[[|c s]|bits fileName type]|] eqn:Hfile.
  - by eexists.
  - eexists. split; [done|]. by intros [?|?].
  - by destruct (Hno bits fileName type).
  - by eexists.
Qed.

End NoFile.

(** X25 on [example_upload_without_file]. *)
Lemma upload_needs_a_file_witness :
  ∃ message,
    onRequestPost no_case_mapping number_greater example_platform example_env
      example_upload_without_file
    = Some (mkResponse 500 (FailureBody message), []) ∧
    (FormData_get [form_entry field_part] (str "file") = None ∨
     FormData_get [form_entry field_part] (str "file") = Some (StringValue []) →
     message = Text (str "No file uploaded")).
Proof.
  apply (upload_needs_a_file no_case_mapping number_greater example_platform
           example_env example_upload_without_file [form_entry field_part]).
  - reflexivity.
  - vm_compute. reflexivity.
  - reflexivity.
  - reflexivity.
  - intros bits fileName type. vm_compute. discriminate.
Defined.
